(** * duplicates-finder: duplicate grouping, folder fingerprints, ignore
    rules and the undo log

    A shallow embedding of the TypeScript sources.  Conventions:
    - a JavaScript [number] holding a byte count is an exact integer [Z]
      (the sums stay below 2^53 for any real disk);
    - a JavaScript [string] is a [string] of bytes, compared byte by byte
      (for ASCII text this is the order of UTF-16 code units);
    - a [Date] is the integer count of milliseconds it wraps;
    - a JavaScript [Map] keeps its keys in insertion order and is an
      association list ([JsMap]);
    - a path is a normalised absolute path without a trailing separator
      (the commands pass [resolve(directory)] to the scanner);
    - the random identifiers, the clock and the digest function are read
      from a [Host], one answer per call;
    - the disk is read through a [Disk] (stat, read and list by path),
      and written, by the undo system, in a [World]. *)

From Stdlib Require Import ZArith Ascii String.
From stdpp Require Import gmap strings list sorting pretty.

#[local] Set Warnings "-register-all".

Open Scope string_scope.
Open Scope list_scope.
Open Scope Z_scope.

(** ** Host services: [uuidv4()], [new Date()], [createHash("sha256")],
    [Math.random()], [Date.prototype.toISOString] *)

Record Host := {
  host_uuid : nat -> string;
  host_clock : nat -> Z;
  host_sha256 : string -> string;
  host_random : nat -> string;
  host_toISOString : Z -> string
}.

(** A computation that calls the host: the state is the number of calls
    made so far. *)
Definition Gen (A : Type) : Type := nat -> A * nat.

Definition gret {A} (a : A) : Gen A := fun n => (a, n).
Definition gbind {A B} (m : Gen A) (k : A -> Gen B) : Gen B :=
  fun n => let '(a, n') := m n in k a n'.

Notation "x <~ m ; k" := (gbind m (fun x => k))
  (at level 20, m at level 100, k at level 200, only parsing).

Definition uuidv4 (h : Host) : Gen string := fun n => (host_uuid h n, S n).
Definition newDate (h : Host) : Gen Z := fun n => (host_clock h n, S n).

(** ** JavaScript values *)

(** [if (s)] on an optional string: [undefined] and the empty string are
    falsy. *)
Definition truthy (o : option string) : bool :=
  match o with
  | Some s => negb (String.eqb s "")
  | None => false
  end.

(** [Math.max(...xs)].  On an empty list JavaScript answers [-Infinity];
    the program only calls it on lists of two or more sizes. *)
Definition Math_max (xs : list Z) : Z :=
  match xs with
  | [] => 0
  | x :: r => fold_left Z.max r x
  end.

(** A [Map<string, V>]: keys in insertion order, [set] on a key already
    present keeps its place. *)
Module JsMap.
Definition t (V : Type) : Type := list (string * V).

Fixpoint get {V} (k : string) (m : t V) : option V :=
  match m with
  | [] => None
  | (k', v) :: r => if String.eqb k k' then Some v else get k r
  end.

Definition has {V} (k : string) (m : t V) : bool :=
  match get k m with Some _ => true | None => false end.

Fixpoint set {V} (k : string) (v : V) (m : t V) : t V :=
  match m with
  | [] => [(k, v)]
  | (k', v') :: r =>
      if String.eqb k k' then (k', v) :: r else (k', v') :: set k v r
  end.

Definition entries {V} (m : t V) : list (string * V) := m.
Definition values {V} (m : t V) : list V := map snd m.
End JsMap.

(** ** types/file.ts, types/duplicate.ts *)

(** The field [size] of the source is [fsize] here. *)
Record FileMetadata := {
  path : string;
  name : string;
  fsize : Z;
  modified : Z;
  created : Z;
  isDirectory : bool;
  hash : option string;
  extension : option string
}.

Inductive DuplicateType := NAME_BASED | CONTENT_BASED | FOLDER_BASED.

Inductive DuplicateAction := KEEP | DELETE | MOVE | RENAME.

Record DuplicateGroup := {
  id : string;
  type : DuplicateType;
  files : list FileMetadata;
  totalSize : Z;
  potentialSavings : Z;
  actions : JsMap.t DuplicateAction
}.

(** ** detector/duplicate-detector.ts *)

(** [if (!m.has(k)) m.set(k, []); m.get(k)!.push(file)] *)
Definition pushInto {V} (k : string) (file : V)
    (m : JsMap.t (list V)) : JsMap.t (list V) :=
  let m1 := if JsMap.has k m then m else JsMap.set k [] m in
  match JsMap.get k m1 with
  | Some fs => JsMap.set k (fs ++ [file]) m1
  | None => m1
  end.

(** [files.reduce((sum, file) => sum + file.size, 0)] *)
Definition sumSizes (fs : list FileMetadata) : Z :=
  fold_left (fun sum file => sum + fsize file) fs 0.

(** The loop [for (const [key, files] of groups) if (files.length > 1)
    duplicateGroups.push({ id: uuidv4(), ... })], with the record built by
    [mk]. *)
Fixpoint emitGroups (h : Host)
    (mk : string -> list FileMetadata -> DuplicateGroup)
    (groups : list (string * list FileMetadata)) : Gen (list DuplicateGroup) :=
  match groups with
  | [] => gret []
  | (_, fs) :: rest =>
      if (1 <? length fs)%nat then
        i <~ uuidv4 h;
        out <~ emitGroups h mk rest;
        gret (mk i fs :: out)
      else emitGroups h mk rest
  end.

Definition nameGroups (fs : list FileMetadata) : JsMap.t (list FileMetadata) :=
  fold_left (fun m file => pushInto (name file) file m) fs [].

Definition nameGroup (i : string) (fs : list FileMetadata) : DuplicateGroup :=
  let total := sumSizes fs in
  {| id := i;
     type := NAME_BASED;
     files := fs;
     totalSize := total;
     potentialSavings := total - Math_max (map fsize fs);
     actions := [] |}.

Definition findNameBasedDuplicates (h : Host) (fs : list FileMetadata)
    : Gen (list DuplicateGroup) :=
  emitGroups h nameGroup (JsMap.entries (nameGroups fs)).

Definition hashGroups (fs : list FileMetadata) : JsMap.t (list FileMetadata) :=
  fold_left
    (fun m file =>
       if truthy (hash file)
       then match hash file with Some k => pushInto k file m | None => m end
       else m)
    fs [].

(** [files[0].size] is read on a list of two or more files only. *)
Definition contentGroup (i : string) (fs : list FileMetadata) : DuplicateGroup :=
  let total := sumSizes fs in
  {| id := i;
     type := CONTENT_BASED;
     files := fs;
     totalSize := total;
     potentialSavings :=
       total - match fs with f0 :: _ => fsize f0 | [] => 0 end;
     actions := [] |}.

Definition findContentBasedDuplicates (h : Host) (fs : list FileMetadata)
    : Gen (list DuplicateGroup) :=
  emitGroups h contentGroup (JsMap.entries (hashGroups fs)).

(** ** Strings and paths *)

(** [s.split(sep)] for a one-character separator. *)
Fixpoint splitOn (sep : ascii) (s : string) : list string :=
  match s with
  | EmptyString => [EmptyString]
  | String c r =>
      if Ascii.eqb c sep then EmptyString :: splitOn sep r
      else match splitOn sep r with
           | w :: ws => String c w :: ws
           | [] => [String c EmptyString]
           end
  end.

(** [p.split("/").pop() || ""] *)
Definition lastSegment (p : string) : string :=
  List.last (splitOn "/" p) "".

(** [path.join(dir, name)] for a normalised [dir] without a trailing
    separator and a plain entry name, which is how the program calls it. *)
Definition join (dir entry : string) : string := dir +:+ "/" +:+ entry.

Fixpoint stripPrefix (p s : string) : option string :=
  match p with
  | EmptyString => Some s
  | String a p' =>
      match s with
      | String b s' => if Ascii.eqb a b then stripPrefix p' s' else None
      | EmptyString => None
      end
  end.

(** [path.relative(from, to)] for a [to] below [from]: the program only
    asks for the path of an entry relative to a directory it descended
    from.  Any other [to] is left as it is. *)
Definition relative (from to : string) : string :=
  match stripPrefix (from +:+ "/") to with
  | Some r => r
  | None => to
  end.

(** [digest("hex")]: two lower-case hexadecimal digits per byte. *)
Definition hexDigit (n : N) : ascii :=
  match n with
  | 0%N => "0" | 1%N => "1" | 2%N => "2" | 3%N => "3"
  | 4%N => "4" | 5%N => "5" | 6%N => "6" | 7%N => "7"
  | 8%N => "8" | 9%N => "9" | 10%N => "a" | 11%N => "b"
  | 12%N => "c" | 13%N => "d" | 14%N => "e" | _ => "f"
  end%char.

Fixpoint toHex (bytes : string) : string :=
  match bytes with
  | EmptyString => EmptyString
  | String a r =>
      let n := N_of_ascii a in
      String (hexDigit (n / 16)) (String (hexDigit (n mod 16)) (toHex r))
  end.

(** [createHash("sha256")], any number of [update]s whose arguments
    concatenate to [text], then [digest("hex")]. *)
Definition hexDigest (h : Host) (text : string) : string :=
  toHex (host_sha256 h text).

(** [xs.sort()] without a comparator, on elements whose conversion to a
    string is [str]: ascending in that string, equal strings keep their
    order (the sort is stable). *)
Fixpoint sortInsert {A} (str : A -> string) (x : A) (l : list A) : list A :=
  match l with
  | [] => [x]
  | y :: r =>
      if String.leb (str x) (str y) then x :: y :: r
      else y :: sortInsert str x r
  end.

Fixpoint jsSort {A} (str : A -> string) (l : list A) : list A :=
  match l with
  | [] => []
  | x :: r => sortInsert str x (jsSort str r)
  end.

(** ** The file system *)

(** What [fs.readdir(dir, { withFileTypes: true })] lists, with, for a
    directory or a link, what listing that entry in turn gives ([None]: the
    listing fails).  Entries come in the order the file system enumerates
    them. *)
Inductive Dirent :=
| EntDir (name : string) (listing : option (list Dirent))
| EntFile (name : string)
| EntLink (name : string) (listing : option (list Dirent))
| EntOther (name : string).

Definition entryName (e : Dirent) : string :=
  match e with
  | EntDir n _ | EntFile n | EntLink n _ | EntOther n => n
  end.

Definition entryIsDirectory (e : Dirent) : bool :=
  match e with EntDir _ _ => true | _ => false end.

Record Stats := {
  st_size : Z;
  st_mtime : Z;
  st_birthtime : Z;
  st_isDirectory : bool
}.

(** The calls that reach the disk by path: [fs.stat], the bytes a read
    stream delivers, [fs.readdir].  [None] is a rejected call. *)
Record Disk := {
  disk_stat : string -> option Stats;
  disk_read : string -> option string;
  disk_readdir : string -> option (list Dirent)
}.

(** ** detector/folder-comparer.ts *)

Module FolderStructure.
Inductive t := mk {
  path : string;
  name : string;
  files : JsMap.t string;
  subdirectories : JsMap.t t;
  structureHash : string
}.
End FolderStructure.

(** [calculateFileHash], the promise resolved or rejected. *)
Definition calculateFileHash (h : Host) (d : Disk) (filePath : string)
    : option string :=
  match disk_read d filePath with
  | Some bytes => Some (hexDigest h bytes)
  | None => None
  end.

(** [String([path, fileHash])] and [String([name, structure])], the
    strings the default sort compares. *)
Definition fileEntryString (e : string * string) : string :=
  e.1 +:+ "," +:+ e.2.

Definition subdirEntryString (e : string * FolderStructure.t) : string :=
  e.1 +:+ ",[object Object]".

(** The text the successive [hash.update] calls of
    [calculateStructureHash] feed to the digest. *)
Definition structureText (files : JsMap.t string)
    (subdirectories : JsMap.t FolderStructure.t) : string :=
  let sortedFiles := jsSort fileEntryString (JsMap.entries files) in
  let sortedSubdirs := jsSort subdirEntryString (JsMap.entries subdirectories) in
  String.concat ""
    (map (fun '(path, fileHash) => "file:" +:+ path +:+ ":" +:+ fileHash)
         sortedFiles)
  +:+
  String.concat ""
    (map (fun '(name, structure) =>
            "dir:" +:+ name +:+ ":" +:+ FolderStructure.structureHash structure)
         sortedSubdirs).

Definition calculateStructureHash (h : Host) (files : JsMap.t string)
    (subdirectories : JsMap.t FolderStructure.t) : string :=
  hexDigest h (structureText files subdirectories).

(** The record [buildFolderStructure] returns once both maps are filled. *)
Definition folderRecord (h : Host) (directoryPath : string)
    (maps : JsMap.t string * JsMap.t FolderStructure.t) : FolderStructure.t :=
  FolderStructure.mk directoryPath (lastSegment directoryPath)
    maps.1 maps.2 (calculateStructureHash h maps.1 maps.2).

(** One turn of the loop over the entries of [directoryPath].  A
    directory entry is built by the same loop over its own listing, a
    failed listing leaving both maps empty. *)
Fixpoint visitEntry (h : Host) (d : Disk) (directoryPath basePath : string)
    (entry : Dirent) (maps : JsMap.t string * JsMap.t FolderStructure.t)
    {struct entry} : JsMap.t string * JsMap.t FolderStructure.t :=
  let entryPath := join directoryPath (entryName entry) in
  let relativePath := relative basePath entryPath in
  match entry with
  | EntDir name listing =>
      let inner :=
        match listing with
        | Some entries =>
            (fix loop (es : list Dirent) maps' :=
               match es with
               | [] => maps'
               | e :: r => loop r (visitEntry h d entryPath basePath e maps')
               end) entries ([], [])
        | None => ([], [])
        end in
      (maps.1, JsMap.set name (folderRecord h entryPath inner) maps.2)
  | EntFile _ =>
      match calculateFileHash h d entryPath with
      | Some fileHash => (JsMap.set relativePath fileHash maps.1, maps.2)
      | None => (JsMap.set relativePath "error" maps.1, maps.2)
      end
  | _ => maps
  end.

Definition visitListing (h : Host) (d : Disk) (directoryPath basePath : string)
    (listing : option (list Dirent))
    : JsMap.t string * JsMap.t FolderStructure.t :=
  match listing with
  | Some entries =>
      fold_left (fun maps e => visitEntry h d directoryPath basePath e maps)
        entries ([], [])
  | None => ([], [])
  end.

Definition buildFolderStructure (h : Host) (d : Disk)
    (directoryPath basePath : string) : FolderStructure.t :=
  folderRecord h directoryPath
    (visitListing h d directoryPath basePath (disk_readdir d directoryPath)).

Definition findDuplicateFolders (structures : list FolderStructure.t)
    : list (list FolderStructure.t) :=
  let hashGroups :=
    fold_left
      (fun m structure =>
         pushInto (FolderStructure.structureHash structure) structure m)
      structures [] in
  filter (fun group => (1 < length group)%nat) (JsMap.values hashGroups).

(** [getFolderSize]: one turn of its loop, then the whole. *)
Fixpoint sizeEntry (d : Disk) (folderPath : string) (entry : Dirent)
    (totalSize : Z) {struct entry} : Z :=
  let entryPath := join folderPath (entryName entry) in
  match entry with
  | EntDir _ listing =>
      totalSize +
      match listing with
      | Some entries =>
          (fix loop (es : list Dirent) total :=
             match es with
             | [] => total
             | e :: r => loop r (sizeEntry d entryPath e total)
             end) entries 0
      | None => 0
      end
  | EntFile _ =>
      match disk_stat d entryPath with
      | Some stats => totalSize + st_size stats
      | None => totalSize
      end
  | _ => totalSize
  end.

Definition getFolderSize (d : Disk) (folderPath : string) : Z :=
  match disk_readdir d folderPath with
  | Some entries =>
      fold_left (fun total e => sizeEntry d folderPath e total) entries 0
  | None => 0
  end.

(** ** detector/duplicate-detector.ts, the folder pass *)

(** The inner loop of [findFolderBasedDuplicates] over one group of
    folders: the members and their total size. *)
Fixpoint folderMembers (h : Host) (d : Disk)
    (folderGroup : list FolderStructure.t)
    (acc : list FileMetadata * Z) : Gen (list FileMetadata * Z) :=
  match folderGroup with
  | [] => gret acc
  | folder :: rest =>
      let size := getFolderSize d (FolderStructure.path folder) in
      m <~ newDate h;
      c <~ newDate h;
      let metadata :=
        {| path := FolderStructure.path folder;
           name := FolderStructure.name folder;
           fsize := size;
           modified := m;
           created := c;
           isDirectory := true;
           hash := None;
           extension := None |} in
      folderMembers h d rest (acc.1 ++ [metadata], acc.2 + size)
  end.

Fixpoint folderGroups (h : Host) (d : Disk)
    (duplicateFolderGroups : list (list FolderStructure.t))
    : Gen (list DuplicateGroup) :=
  match duplicateFolderGroups with
  | [] => gret []
  | folderGroup :: rest =>
      r <~ folderMembers h d folderGroup ([], 0);
      let '(fs, total) := r in
      if (1 <? length fs)%nat then
        i <~ uuidv4 h;
        out <~ folderGroups h d rest;
        gret ({| id := i;
                 type := FOLDER_BASED;
                 files := fs;
                 totalSize := total;
                 potentialSavings := total - Math_max (map fsize fs);
                 actions := [] |} :: out)
      else folderGroups h d rest
  end.

Definition findFolderBasedDuplicates (h : Host) (d : Disk)
    (directories : list FileMetadata) : Gen (list DuplicateGroup) :=
  if (length directories =? 0)%nat then gret []
  else
    let folderStructures :=
      map (fun dir => buildFolderStructure h d (path dir) (path dir))
          directories in
    folderGroups h d (findDuplicateFolders folderStructures).

Definition detectDuplicates (h : Host) (d : Disk)
    (fs directories : list FileMetadata) : Gen (list DuplicateGroup) :=
  nameBasedGroups <~ findNameBasedDuplicates h fs;
  contentBasedGroups <~ findContentBasedDuplicates h fs;
  folderBasedGroups <~ findFolderBasedDuplicates h d directories;
  gret (nameBasedGroups ++ contentBasedGroups ++ folderBasedGroups).

(** ** Regular expressions

    The fragment of JavaScript's regular expressions the two pattern
    translations of this program produce from plain glob patterns:
    literal characters, escaped punctuation, [.], the class [[^/]], groups
    with alternatives, the quantifiers [*], [+] and [?], and the
    assertions [^] and [$].  No flags are set. *)

Inductive Regex :=
| REmpty
| RChar (c : ascii)
| RAny
| RNotSlash
| RBol
| REol
| RSeq (r1 r2 : Regex)
| RAlt (r1 r2 : Regex)
| RStar (r : Regex)
| ROpt (r : Regex).

Definition isLineTerminator (c : ascii) : bool :=
  Ascii.eqb c "010" || Ascii.eqb c "013".

(** The iterations of [r*], [step] matching one [r]: stop here, or match
    [r] once more and go on.  An iteration that consumes nothing is not
    repeated, so the length of the input bounds the number [n] of
    iterations. *)
Fixpoint starLoop (step : bool -> string -> (bool -> string -> bool) -> bool)
    (k : bool -> string -> bool) (n : nat) (b : bool) (s : string) : bool :=
  k b s ||
  match n with
  | O => false
  | S n' =>
      step b s
        (fun b' s' =>
           (String.length s' <? String.length s)%nat && starLoop step k n' b' s')
  end.

(** Matching by continuation: [k] receives the position reached (whether
    it is still the start of the input, and what is left of the input). *)
Fixpoint matchRe (r : Regex) (atStart : bool) (s : string)
    (k : bool -> string -> bool) {struct r} : bool :=
  match r with
  | REmpty => k atStart s
  | RChar c =>
      match s with
      | String c' s' => Ascii.eqb c c' && k false s'
      | EmptyString => false
      end
  | RAny =>
      match s with
      | String c' s' => negb (isLineTerminator c') && k false s'
      | EmptyString => false
      end
  | RNotSlash =>
      match s with
      | String c' s' => negb (Ascii.eqb c' "/") && k false s'
      | EmptyString => false
      end
  | RBol => atStart && k atStart s
  | REol =>
      match s with
      | EmptyString => k atStart s
      | String _ _ => false
      end
  | RSeq r1 r2 => matchRe r1 atStart s (fun b s' => matchRe r2 b s' k)
  | RAlt r1 r2 => matchRe r1 atStart s k || matchRe r2 atStart s k
  | ROpt r1 => matchRe r1 atStart s k || k atStart s
  | RStar r1 => starLoop (matchRe r1) k (String.length s) atStart s
  end.

(** [regex.test(s)]: a match starting at some position of [s]. *)
Fixpoint searchFrom (r : Regex) (atStart : bool) (s : string) : bool :=
  matchRe r atStart s (fun _ _ => true) ||
  match s with
  | String _ s' => searchFrom r false s'
  | EmptyString => false
  end.

Definition test (r : Regex) (s : string) : bool := searchFrom r true s.

Definition isAlphaNum (c : ascii) : bool :=
  let n := nat_of_ascii c in
  ((48 <=? n) && (n <=? 57) || (65 <=? n) && (n <=? 90)
   || (97 <=? n) && (n <=? 122))%nat.

(** The quantifier that follows an atom, if any.  A quantifier followed
    by a further [?], [*], [+] or [{] is outside the fragment. *)
Definition quantified (a : Regex) (s : string) : option (Regex * string) :=
  let plain (q : Regex) (rest : string) : option (Regex * string) :=
    match rest with
    | String c _ =>
        if Ascii.eqb c "?" || Ascii.eqb c "*" || Ascii.eqb c "+"
           || Ascii.eqb c "{"
        then None else Some (q, rest)
    | EmptyString => Some (q, rest)
    end in
  match s with
  | String "*" rest => plain (RStar a) rest
  | String "+" rest => plain (RSeq a (RStar a)) rest
  | String "?" rest => plain (ROpt a) rest
  | String "{" _ => None
  | _ => Some (a, s)
  end.

(** [new RegExp(source)]: the alternatives up to the end of the source or
    to a closing parenthesis, [acc] being the terms of the current
    alternative read so far.  [None]: the source is outside the fragment
    (in JavaScript it is either an expression this model does not cover or
    a syntax error). *)
Fixpoint parseDisjunction (fuel : nat) (s : string) (acc : Regex)
    : option (Regex * string) :=
  match fuel with
  | O => None
  | S fuel' =>
      let continue (a : Regex) (rest : string) :=
        match quantified a rest with
        | Some (q, rest') => parseDisjunction fuel' rest' (RSeq acc q)
        | None => None
        end in
      match s with
      | EmptyString => Some (acc, s)
      | String ")" _ => Some (acc, s)
      | String "|" rest =>
          match parseDisjunction fuel' rest REmpty with
          | Some (r, rest') => Some (RAlt acc r, rest')
          | None => None
          end
      | String "^" rest => parseDisjunction fuel' rest (RSeq acc RBol)
      | String "$" rest => parseDisjunction fuel' rest (RSeq acc REol)
      | String "." rest => continue RAny rest
      | String "(" (String "?" _) => None
      | String "(" rest =>
          match parseDisjunction fuel' rest REmpty with
          | Some (r, String ")" rest') => continue r rest'
          | _ => None
          end
      | String "[" (String "^" (String "/" (String "]" rest))) =>
          continue RNotSlash rest
      | String "\" (String c rest) =>
          if isAlphaNum c then None else continue (RChar c) rest
      | String c rest =>
          if Ascii.eqb c "*" || Ascii.eqb c "+" || Ascii.eqb c "?"
             || Ascii.eqb c "[" || Ascii.eqb c "]" || Ascii.eqb c "{"
             || Ascii.eqb c "}" || Ascii.eqb c "\"
          then None else continue (RChar c) rest
      end
  end.

Definition RegExp (source : string) : option Regex :=
  match parseDisjunction (S (String.length source)) source REmpty with
  | Some (r, EmptyString) => Some r
  | _ => None
  end.

(** [s.replace(/c/g, by)] for a single character [c]. *)
Fixpoint replaceChar (c : ascii) (by_ : string) (s : string) : string :=
  match s with
  | EmptyString => EmptyString
  | String x r =>
      if Ascii.eqb x c then by_ +:+ replaceChar c by_ r
      else String x (replaceChar c by_ r)
  end.

(** ** utils/file-utils.ts *)

(** [pattern.replace(/\./g, "\\.").replace(/\*/g, ".*").replace(/\?/g, ".")] *)
Definition globSource (pattern : string) : string :=
  replaceChar "?" "." (replaceChar "*" ".*" (replaceChar "." "\." pattern)).

(** [ignorePatterns.some(...)]: the patterns are tried in order and the
    first that matches decides.  [None] when a pattern that has to be
    tried has a source outside the fragment. *)
Fixpoint somePatternMatches (normalizedPath : string)
    (ignorePatterns : list string) : option bool :=
  match ignorePatterns with
  | [] => Some false
  | pattern :: rest =>
      match RegExp (globSource pattern) with
      | Some regex =>
          if test regex normalizedPath then Some true
          else somePatternMatches normalizedPath rest
      | None => None
      end
  end.

Definition shouldIgnoreFile (filePath : string) (ignorePatterns : list string)
    : option bool :=
  let normalizedPath := replaceChar "\" "/" filePath in
  somePatternMatches normalizedPath ignorePatterns.

(** ** More string methods *)

Definition startsWith (s p : string) : bool := String.prefix p s.

Fixpoint endsWith (s : string) (c : ascii) : bool :=
  match s with
  | EmptyString => false
  | String x EmptyString => Ascii.eqb x c
  | String _ r => endsWith r c
  end.

(** [s.slice(0, -1)] *)
Fixpoint dropLast (s : string) : string :=
  match s with
  | EmptyString => EmptyString
  | String _ EmptyString => EmptyString
  | String x r => String x (dropLast r)
  end.

(** [s.slice(1)] *)
Definition dropFirst (s : string) : string :=
  match s with
  | EmptyString => EmptyString
  | String _ r => r
  end.

Definition isWhiteSpace (c : ascii) : bool :=
  let n := nat_of_ascii c in ((n =? 32) || (9 <=? n) && (n <=? 13))%nat.

Fixpoint trimStart (s : string) : string :=
  match s with
  | String c r => if isWhiteSpace c then trimStart r else s
  | EmptyString => EmptyString
  end.

Fixpoint trimEnd (s : string) : string :=
  match s with
  | EmptyString => EmptyString
  | String c r =>
      match trimEnd r with
      | EmptyString => if isWhiteSpace c then EmptyString else String c EmptyString
      | r' => String c r'
      end
  end.

(** [s.trim()], for the ASCII white space. *)
Definition trim (s : string) : string := trimEnd (trimStart s).

(** [s.replace(/\*\*/g, by)]: the occurrences of [**] from the left,
    without overlap. *)
Fixpoint replaceStarStar (by_ : string) (s : string) : string :=
  match s with
  | String "*" (String "*" r) => by_ +:+ replaceStarStar by_ r
  | String x r => String x (replaceStarStar by_ r)
  | EmptyString => EmptyString
  end.

(** ** utils/gitignore-parser.ts *)

Module GitignoreRule.
Record t := mk {
  pattern : string;
  isNegation : bool;
  isDirectory : bool;
  regex : Regex
}.
End GitignoreRule.

(** [pattern.replace(/[.+^${}()|\\]/g, "\\$&")] *)
Fixpoint escapeSpecial (s : string) : string :=
  match s with
  | EmptyString => EmptyString
  | String c r =>
      if Ascii.eqb c "." || Ascii.eqb c "+" || Ascii.eqb c "^"
         || Ascii.eqb c "$" || Ascii.eqb c "{" || Ascii.eqb c "}"
         || Ascii.eqb c "(" || Ascii.eqb c ")" || Ascii.eqb c "|"
         || Ascii.eqb c "\"
      then String "\" (String c (escapeSpecial r))
      else String c (escapeSpecial r)
  end.

(** The source [patternToRegex] hands to [new RegExp]. *)
Definition patternSource (pattern : string) : string :=
  let regexPattern :=
    replaceChar "*" "[^/]*"
      (replaceStarStar ".*"
         (replaceChar "?" "[^/]" (escapeSpecial pattern))) in
  let anchored :=
    if startsWith pattern "/" then "^" +:+ dropFirst regexPattern
    else "(^|/)" +:+ regexPattern in
  anchored +:+ "(/.*)?$".

Definition patternToRegex (pattern : string) : option Regex :=
  RegExp (patternSource pattern).

Definition parseRule (pattern : string) : option GitignoreRule.t :=
  let isNegation := startsWith pattern "!" in
  let cleanPattern := if isNegation then dropFirst pattern else pattern in
  let isDirectory := endsWith cleanPattern "/" in
  let cleanPattern := if isDirectory then dropLast cleanPattern else cleanPattern in
  match patternToRegex cleanPattern with
  | Some regex => Some (GitignoreRule.mk cleanPattern isNegation isDirectory regex)
  | None => None
  end.

(** [GitignoreParser.fromContent]: the rules of the lines that are neither
    empty nor comments.  [None] when the expression of some rule is outside
    the fragment of [RegExp]. *)
Fixpoint rulesOfLines (lines : list string) : option (list GitignoreRule.t) :=
  match lines with
  | [] => Some []
  | line :: rest =>
      let trimmed := trim line in
      if String.eqb trimmed "" || startsWith trimmed "#" then rulesOfLines rest
      else
        match parseRule trimmed, rulesOfLines rest with
        | Some rule, Some rules => Some (rule :: rules)
        | _, _ => None
        end
  end.

Definition fromContent (content : string) : option (list GitignoreRule.t) :=
  rulesOfLines (splitOn "010" content).

(** [shouldIgnore]: the last rule that applies and matches decides. *)
Definition shouldIgnore (rules : list GitignoreRule.t) (filePath : string)
    (isDirectory : bool) : bool :=
  let normalizedPath := replaceChar "\" "/" filePath in
  fold_left
    (fun isIgnored rule =>
       if GitignoreRule.isDirectory rule && negb isDirectory then isIgnored
       else if test (GitignoreRule.regex rule) normalizedPath
            then negb (GitignoreRule.isNegation rule)
            else isIgnored)
    rules false.

(** [fs.access(path)] succeeds when the path can be seen. *)
Definition access (d : Disk) (p : string) : bool :=
  match disk_stat d p with Some _ => true | None => false end.

(** [findGitignoreFiles]: one directory entry of the search, then a
    directory with its listing. *)
Fixpoint searchEntry (d : Disk) (dir : string) (depth : nat) (e : Dirent)
    {struct e} : list string :=
  match e with
  | EntDir nm listing =>
      if startsWith nm "." then []
      else
        let sub := join dir nm in
        if (10 <? S depth)%nat then []
        else
          (if access d (join sub ".gitignore") then [join sub ".gitignore"] else [])
          ++ match listing with
             | Some es =>
                 (fix each (es : list Dirent) : list string :=
                    match es with
                    | [] => []
                    | e' :: r => searchEntry d sub (S depth) e' ++ each r
                    end) es
             | None => []
             end
  | _ => []
  end.

Definition findGitignoreFiles (d : Disk) (directory : string) : list string :=
  (if access d (join directory ".gitignore")
   then [join directory ".gitignore"] else [])
  ++ match disk_readdir d directory with
     | Some es => flat_map (searchEntry d directory 0) es
     | None => []
     end.

(** [GitignoreParser.fromFile]: a file that cannot be read gives no rule. *)
Definition fromFile (d : Disk) (gitignorePath : string)
    : option (list GitignoreRule.t) :=
  match disk_read d gitignorePath with
  | Some content => fromContent content
  | None => Some []
  end.

Fixpoint combineRules (d : Disk) (gitignoreFiles : list string)
    : option (list GitignoreRule.t) :=
  match gitignoreFiles with
  | [] => Some []
  | f :: rest =>
      match fromFile d f, combineRules d rest with
      | Some rs, Some rs' => Some (rs ++ rs')
      | _, _ => None
      end
  end.

Definition createCombinedParser (d : Disk) (directory : string)
    : option (list GitignoreRule.t) :=
  combineRules d (findGitignoreFiles d directory).

(** ** scanner/file-scanner.ts

    The scanner that walks the tree itself ([getFilePathsNative]). *)

Module ScanOptions.
Record t := mk {
  directory : string;
  includeHidden : bool;
  followSymlinks : bool;
  ignorePatterns : list string;
  maxDepth : option Z
}.
End ScanOptions.

Module ScanResult.
Record t := mk {
  files : list FileMetadata;
  directories : list FileMetadata;
  totalFiles : nat;
  totalSize : Z;
  scanTime : Z
}.
End ScanResult.

(** [this.scanOptions.maxDepth && currentDepth >= this.scanOptions.maxDepth],
    with [maxDepth] as [parseInt] left it: a limit that is absent (or not a
    number) or 0 does not limit, and a negative limit is reached at once. *)
Definition depthReached (o : ScanOptions.t) (currentDepth : nat) : bool :=
  match ScanOptions.maxDepth o with
  | Some m => negb (m =? 0) && (m <=? Z.of_nat currentDepth)
  | None => false
  end.

(** One turn of the loop of [scanDirectory] over the entries of
    [directory]: the paths it appends to [filePaths], its own and those of
    the directory it descends into. *)
Fixpoint walkEntry (rules : list GitignoreRule.t) (o : ScanOptions.t)
    (d : Disk) (directory : string) (currentDepth : nat) (entry : Dirent)
    {struct entry} : list string :=
  let fullPath := join directory (entryName entry) in
  let relativePath := relative (ScanOptions.directory o) fullPath in
  let descend (listing : option (list Dirent)) : list string :=
    if depthReached o (S currentDepth) then []
    else match listing with
         | Some es =>
             (fix each (es : list Dirent) : list string :=
                match es with
                | [] => []
                | e' :: r =>
                    walkEntry rules o d fullPath (S currentDepth) e' ++ each r
                end) es
         | None => []
         end in
  if negb (ScanOptions.includeHidden o) && startsWith (entryName entry) "."
  then []
  else if shouldIgnore rules relativePath (entryIsDirectory entry) then []
  else
    fullPath ::
    match entry with
    | EntDir _ listing => descend listing
    | EntLink _ listing =>
        if ScanOptions.followSymlinks o then
          match disk_stat d fullPath with
          | Some stats => if st_isDirectory stats then descend listing else []
          | None => []
          end
        else []
    | _ => []
    end.

Definition scanDirectory (rules : list GitignoreRule.t) (o : ScanOptions.t)
    (d : Disk) (directory : string) (currentDepth : nat)
    (listing : option (list Dirent)) : list string :=
  if depthReached o currentDepth then []
  else match listing with
       | Some es => flat_map (walkEntry rules o d directory currentDepth) es
       | None => []
       end.

Definition getFilePathsNative (o : ScanOptions.t) (d : Disk)
    : option (list string) :=
  match createCombinedParser d (ScanOptions.directory o) with
  | Some rules =>
      Some (scanDirectory rules o d (ScanOptions.directory o) 0
              (disk_readdir d (ScanOptions.directory o)))
  | None => None
  end.

(** [path.basename] and [path.extname] of a normalised path. *)
Definition basename (p : string) : string := lastSegment p.

Fixpoint lastDotSuffix (s : string) : option string :=
  match s with
  | EmptyString => None
  | String c r =>
      match lastDotSuffix r with
      | Some e => Some e
      | None => if Ascii.eqb c "." then Some s else None
      end
  end.

Definition extname (p : string) : string :=
  match basename p with
  | EmptyString => EmptyString
  | String c r =>
      if String.eqb (String c r) ".." then EmptyString
      else match lastDotSuffix r with Some e => e | None => EmptyString end
  end.

Definition toLowerAscii (c : ascii) : ascii :=
  let n := nat_of_ascii c in
  if ((65 <=? n) && (n <=? 90))%nat then ascii_of_nat (n + 32) else c.

Fixpoint toLowerCase (s : string) : string :=
  match s with
  | EmptyString => EmptyString
  | String c r => String (toLowerAscii c) (toLowerCase r)
  end.

(** [getFileMetadata], the promise resolved or rejected. *)
Definition getFileMetadata (d : Disk) (filePath : string)
    : option FileMetadata :=
  match disk_stat d filePath with
  | Some stats =>
      let ext := toLowerCase (extname filePath) in
      Some {| path := filePath;
              name := basename filePath;
              fsize := st_size stats;
              modified := st_mtime stats;
              created := st_birthtime stats;
              isDirectory := st_isDirectory stats;
              hash := None;
              extension := if String.eqb ext "" then None else Some ext |}
  | None => None
  end.

Definition withHash (m : FileMetadata) (fileHash : string) : FileMetadata :=
  {| path := path m; name := name m; fsize := fsize m;
     modified := modified m; created := created m;
     isDirectory := isDirectory m; hash := Some fileHash;
     extension := extension m |}.

(** The loop of [scan] over the paths: the files, the directories and
    the total size so far.  A path whose metadata or whose hash cannot be
    had lands in the [catch] and is passed over. *)
Fixpoint scanPaths (h : Host) (d : Disk) (ignorePatterns : list string)
    (filePaths : list string)
    (acc : list FileMetadata * list FileMetadata * Z)
    : option (list FileMetadata * list FileMetadata * Z) :=
  match filePaths with
  | [] => Some acc
  | filePath :: rest =>
      let '(fs, dirs, total) := acc in
      match shouldIgnoreFile filePath ignorePatterns with
      | None => None
      | Some true => scanPaths h d ignorePatterns rest acc
      | Some false =>
          match getFileMetadata d filePath with
          | None => scanPaths h d ignorePatterns rest acc
          | Some metadata =>
              if isDirectory metadata then
                scanPaths h d ignorePatterns rest (fs, dirs ++ [metadata], total)
              else if 0 <? fsize metadata then
                match calculateFileHash h d filePath with
                | Some fileHash =>
                    scanPaths h d ignorePatterns rest
                      (fs ++ [withHash metadata fileHash], dirs,
                       total + fsize metadata)
                | None => scanPaths h d ignorePatterns rest acc
                end
              else
                scanPaths h d ignorePatterns rest
                  (fs ++ [metadata], dirs, total + fsize metadata)
          end
      end
  end.

(** [scan]: [None] when an expression is outside the fragment of
    [RegExp]. *)
Definition scan (h : Host) (o : ScanOptions.t) (d : Disk)
    : Gen (option ScanResult.t) :=
  startTime <~ newDate h;
  match getFilePathsNative o d with
  | None => gret None
  | Some filePaths =>
      match scanPaths h d (ScanOptions.ignorePatterns o) filePaths ([], [], 0) with
      | None => gret None
      | Some (fs, dirs, total) =>
          endTime <~ newDate h;
          gret (Some (ScanResult.mk fs dirs (length fs) total
                        (endTime - startTime)))
      end
  end.

(** ** utils/logger.ts *)

Inductive LogLevel := DEBUG | INFO | WARN | ERROR.

Definition levelRank (l : LogLevel) : nat :=
  match l with DEBUG => 0 | INFO => 1 | WARN => 2 | ERROR => 3 end.

(** ** utils/undo-system.ts *)

Module UndoOperation.
Record t := mk {
  id : string;
  timestamp : Z;
  action : DuplicateAction;
  originalPath : string;
  backupPath : option string;
  newPath : option string
}.
End UndoOperation.

(** What the undo system acts on: the regular files by path with their
    bytes, the list last written to [undo-history.json] ([None] before the
    first write), the lines handed to the logger, the number of calls made
    to the host, and the paths at which the file system refuses to create,
    replace or remove a file (the directory is missing or read-only, a
    permission is lacking).  A copy, a rename or an unlink fails when its
    source is missing or when a path it has to change is refused. *)
Record World := {
  store : gmap string string;
  history : option (list UndoOperation.t);
  logged : list (LogLevel * string);
  ticks : nat;
  unwritable : string -> bool
}.

Inductive Outcome (A : Type) :=
| Resolved (a : A)
| Rejected.
Arguments Resolved {A} a.
Arguments Rejected {A}.

(** An asynchronous operation: the promise resolved or rejected, and the
    world it leaves. *)
Definition IO (A : Type) : Type := World -> Outcome A * World.

Definition ioret {A} (a : A) : IO A := fun w => (Resolved a, w).

Definition iobind {A B} (m : IO A) (k : A -> IO B) : IO B :=
  fun w =>
    match m w with
    | (Resolved a, w') => k a w'
    | (Rejected, w') => (Rejected, w')
    end.

(** [try { m } catch { handler }] *)
Definition tryCatch {A} (m handler : IO A) : IO A :=
  fun w =>
    match m w with
    | (Resolved a, w') => (Resolved a, w')
    | (Rejected, w') => handler w'
    end.

Notation "x <- m ; k" := (iobind m (fun x => k))
  (at level 20, m at level 100, k at level 200, only parsing).

Definition withStore (w : World) (s : gmap string string) : World :=
  {| store := s; history := history w; logged := logged w; ticks := ticks w;
     unwritable := unwritable w |}.

(** [fs.copyFile(src, dest)] *)
Definition copyFile (src dest : string) : IO unit :=
  fun w =>
    match store w !! src with
    | Some bytes =>
        if unwritable w dest then (Rejected, w)
        else (Resolved tt, withStore w (<[dest := bytes]> (store w)))
    | None => (Rejected, w)
    end.

(** [fs.rename(oldPath, newPath)] *)
Definition rename (oldPath new : string) : IO unit :=
  fun w =>
    match store w !! oldPath with
    | Some bytes =>
        if unwritable w oldPath || unwritable w new then (Rejected, w)
        else
          (Resolved tt,
           withStore w (<[new := bytes]> (delete oldPath (store w))))
    | None => (Rejected, w)
    end.

(** [fs.unlink(path)] *)
Definition unlink (p : string) : IO unit :=
  fun w =>
    match store w !! p with
    | Some _ =>
        if unwritable w p then (Rejected, w)
        else (Resolved tt, withStore w (delete p (store w)))
    | None => (Rejected, w)
    end.

(** [logger.info], [logger.warn], [logger.error] at the default level
    [INFO]. *)
Definition logLine (level : LogLevel) (message : string) : IO unit :=
  fun w =>
    if (levelRank level <? levelRank INFO)%nat then (Resolved tt, w)
    else
      (Resolved tt,
       {| store := store w; history := history w;
          logged := logged w ++ [(level, message)]; ticks := ticks w;
          unwritable := unwritable w |}).

(** [new Date()] and [Date.now()]; [Math.random().toString(36).substr(2, 9)]. *)
Definition now (h : Host) : IO Z :=
  fun w =>
    (Resolved (host_clock h (ticks w)),
     {| store := store w; history := history w; logged := logged w;
        ticks := S (ticks w); unwritable := unwritable w |}).

Definition randomSuffix (h : Host) : IO string :=
  fun w =>
    (Resolved (host_random h (ticks w)),
     {| store := store w; history := history w; logged := logged w;
        ticks := S (ticks w); unwritable := unwritable w |}).

(** [path.dirname(p)]: the part before the last slash that is followed by
    something other than slashes, the first character left aside; ["/"] or
    ["."] when there is no such slash. *)
Fixpoint hasNonSlash (s : string) : bool :=
  match s with
  | EmptyString => false
  | String c r => negb (Ascii.eqb c "/") || hasNonSlash r
  end.

Fixpoint dirEnd (s : string) (i : nat) : option nat :=
  match s with
  | EmptyString => None
  | String c r =>
      match dirEnd r (S i) with
      | Some e => Some e
      | None =>
          if (1 <=? i)%nat && Ascii.eqb c "/" && hasNonSlash r then Some i
          else None
      end
  end.

Definition dirname (p : string) : string :=
  match p with
  | EmptyString => "."
  | String c _ =>
      let hasRoot := Ascii.eqb c "/" in
      match dirEnd p 0 with
      | None => if hasRoot then "/" else "."
      | Some e => if hasRoot && (e =? 1)%nat then "//" else substring 0 e p
      end
  end.

(** [fs.mkdir(dir, { recursive: true })] *)
Definition mkdir (dir : string) : IO unit :=
  fun w => if unwritable w dir then (Rejected, w) else (Resolved tt, w).

(** [fs.writeFile(historyPath, JSON.stringify(operations, null, 2))] *)
Definition writeHistory (historyPath : string)
    (operations : list UndoOperation.t) : IO unit :=
  fun w =>
    if unwritable w historyPath then (Rejected, w)
    else
      (Resolved tt,
       {| store := store w; history := Some operations; logged := logged w;
          ticks := ticks w; unwritable := unwritable w |}).

(** [saveHistory] to the file at [historyPath]: its own [try] swallows a
    failure of [mkdir] or of the write, which is logged and leaves the file
    as it was. *)
Definition saveHistory (historyPath : string)
    (operations : list UndoOperation.t) : IO unit :=
  tryCatch
    (_ <- mkdir (dirname historyPath);
     writeHistory historyPath operations)
    (logLine ERROR "Failed to save undo history").

(** The fields of the [UndoSystem] object. *)
Record UndoSystem := {
  undoHistoryPath : string;
  backupDirectory : string;
  operations : list UndoOperation.t
}.

Definition withOperations (u : UndoSystem) (ops : list UndoOperation.t)
    : UndoSystem :=
  {| undoHistoryPath := undoHistoryPath u;
     backupDirectory := backupDirectory u;
     operations := ops |}.

Definition generateOperationId (h : Host) : IO string :=
  t <- now h;
  r <- randomSuffix h;
  ioret ("undo_" +:+ pretty t +:+ "_" +:+ r).

Definition createBackup (h : Host) (u : UndoSystem) (filePath : string)
    : IO string :=
  let fileName := basename filePath in
  t <- now h;
  let timestamp :=
    replaceChar "." "-" (replaceChar ":" "-" (host_toISOString h t)) in
  let backupFileName := timestamp +:+ "_" +:+ fileName in
  let backupPath := join (backupDirectory u) backupFileName in
  _ <- copyFile filePath backupPath;
  _ <- logLine INFO "Backup created";
  ioret backupPath.

(** [recordOperation]: the operation as the caller gives it (without id
    and timestamp), the id returned and the object after the call. *)
Definition recordOperation (h : Host) (u : UndoSystem)
    (action : DuplicateAction) (originalPath : string)
    (backupPath newPath : option string) : IO (string * UndoSystem) :=
  i <- generateOperationId h;
  t <- now h;
  backup <- (match action with
             | DELETE => b <- createBackup h u originalPath; ioret (Some b)
             | _ => ioret backupPath
             end);
  let undoOp := UndoOperation.mk i t action originalPath backup newPath in
  let ops := operations u ++ [undoOp] in
  _ <- saveHistory (undoHistoryPath u) ops;
  _ <- logLine INFO "Undo operation recorded";
  ioret (i, withOperations u ops).

(** [this.operations.findIndex((op) => op.id === operationId)] *)
Definition findIndex (operationId : string) (ops : list UndoOperation.t)
    : option nat :=
  fst <$> list_find (fun op => UndoOperation.id op = operationId) ops.

(** The [switch] of [undoOperation]: [true] when the case ends in
    [break], [false] for the [default] case, which returns at once. *)
Definition reverse (operation : UndoOperation.t) : IO bool :=
  match UndoOperation.action operation with
  | DELETE =>
      match UndoOperation.backupPath operation with
      | Some backupPath =>
          if truthy (Some backupPath) then
            _ <- copyFile backupPath (UndoOperation.originalPath operation);
            _ <- logLine INFO "File restored from backup";
            ioret true
          else ioret true
      | None => ioret true
      end
  | MOVE =>
      match UndoOperation.newPath operation with
      | Some newPath =>
          if truthy (Some newPath) then
            _ <- rename newPath (UndoOperation.originalPath operation);
            _ <- logLine INFO "File moved back to original location";
            ioret true
          else ioret true
      | None => ioret true
      end
  | RENAME =>
      match UndoOperation.newPath operation with
      | Some newPath =>
          if truthy (Some newPath) then
            _ <- rename newPath (UndoOperation.originalPath operation);
            _ <- logLine INFO "File renamed back to original name";
            ioret true
          else ioret true
      | None => ioret true
      end
  | KEEP =>
      _ <- logLine WARN "Cannot undo operation type";
      ioret false
  end.

Definition undoOperation (u : UndoSystem) (operationId : string)
    : IO (bool * UndoSystem) :=
  match findIndex operationId (operations u) with
  | None =>
      _ <- logLine WARN "Undo operation not found";
      ioret (false, u)
  | Some operationIndex =>
      match operations u !! operationIndex with
      | None => ioret (false, u)
      | Some operation =>
          tryCatch
            (reversed <- reverse operation;
             if reversed : bool then
               let ops := delete operationIndex (operations u) in
               _ <- saveHistory (undoHistoryPath u) ops;
               ioret (true, withOperations u ops)
             else ioret (false, u))
            (_ <- logLine ERROR "Failed to undo operation";
             ioret (false, u))
      end
  end.

(** ** Reading the grouping loops *)

(** Both grouping loops are instances of one loop over an optional key. *)
Definition keyed {V} (key : V -> option string)
    (fs : list V) : JsMap.t (list V) :=
  fold_left
    (fun m file => match key file with Some k => pushInto k file m | None => m end)
    fs [].

Definition hashKey (file : FileMetadata) : option string :=
  if truthy (hash file) then hash file else None.

(** The members the key [k] selects, in traversal order. *)
Definition membersOf {V} (key : V -> option string) (k : string)
    (fs : list V) : list V :=
  filter (fun file => key file = Some k) fs.

(** The sum of the member sizes. *)
Definition sizeSum (fs : list FileMetadata) : Z :=
  foldr (fun file acc => fsize file + acc) 0 fs.

(** [m] is the largest element of [xs]. *)
Definition maxOf (m : Z) (xs : list Z) : Prop :=
  m ∈ xs ∧ Forall (fun x => x <= m) xs.

(** ** Reading the folder fingerprint *)

(** The fingerprint a file gets in a folder structure: its digest, or the
    placeholder when hashing fails. *)
Definition fileFingerprint (h : Host) (d : Disk) (filePath : string) : string :=
  match calculateFileHash h d filePath with
  | Some fileHash => fileHash
  | None => "error"
  end.

(** The text digested for the directory at [directoryPath] whose listing
    is [listing], in a walk that started at [basePath], and its digest: the
    [structureHash] the directory gets. *)
Definition compositeText (h : Host) (d : Disk) (directoryPath basePath : string)
    (listing : option (list Dirent)) : string :=
  let maps := visitListing h d directoryPath basePath listing in
  structureText maps.1 maps.2.

Definition compositeFingerprint (h : Host) (d : Disk)
    (directoryPath basePath : string) (listing : option (list Dirent)) : string :=
  hexDigest h (compositeText h d directoryPath basePath listing).

(** The regular files directly in a directory, as (path relative to the
    base, fingerprint), [pre] being the directory's own path relative to
    the base with its separator; and its immediate child directories, as
    (name, composite fingerprint). *)
Definition fileDatum (h : Host) (d : Disk) (directoryPath pre : string)
    (e : Dirent) : option (string * string) :=
  match e with
  | EntFile nm => Some (pre +:+ nm, fileFingerprint h d (join directoryPath nm))
  | _ => None
  end.

Definition dirDatum (h : Host) (d : Disk) (directoryPath basePath : string)
    (e : Dirent) : option (string * string) :=
  match e with
  | EntDir nm listing =>
      Some (nm, compositeFingerprint h d (join directoryPath nm) basePath listing)
  | _ => None
  end.

Definition directFiles (h : Host) (d : Disk) (directoryPath pre : string)
    (entries : list Dirent) : list (string * string) :=
  omap (fileDatum h d directoryPath pre) entries.

Definition childDirs (h : Host) (d : Disk) (directoryPath basePath : string)
    (entries : list Dirent) : list (string * string) :=
  omap (dirDatum h d directoryPath basePath) entries.

Definition nameAndHash (e : string * FolderStructure.t) : string * string :=
  (e.1, FolderStructure.structureHash e.2).

Definition fileLine (e : string * string) : string :=
  "file:" +:+ e.1 +:+ ":" +:+ e.2.

Definition dirLine (e : string * string) : string :=
  "dir:" +:+ e.1 +:+ ":" +:+ e.2.

Definition dirEntryString (e : string * string) : string :=
  e.1 +:+ ",[object Object]".

(** Two listings of the same tree: at every level the same entries, in
    whatever order each directory enumerates them.  [SameAll] matches two
    listings entry by entry; a directory's two listings match after one of
    them is reordered. *)
Inductive SameEntry : Dirent -> Dirent -> Prop :=
| same_file nm : SameEntry (EntFile nm) (EntFile nm)
| same_dir_unread nm : SameEntry (EntDir nm None) (EntDir nm None)
| same_dir nm es1 es es2 :
    es1 ≡ₚ es -> SameAll es es2 ->
    SameEntry (EntDir nm (Some es1)) (EntDir nm (Some es2))
| same_link nm l : SameEntry (EntLink nm l) (EntLink nm l)
| same_other nm : SameEntry (EntOther nm) (EntOther nm)
with SameAll : list Dirent -> list Dirent -> Prop :=
| same_nil : SameAll [] []
| same_cons e1 e2 es1 es2 :
    SameEntry e1 e2 -> SameAll es1 es2 -> SameAll (e1 :: es1) (e2 :: es2).

Scheme SameEntry_mut := Minimality for SameEntry Sort Prop
  with SameAll_mut := Minimality for SameAll Sort Prop.
Combined Scheme Same_mutind from SameEntry_mut, SameAll_mut.

Definition SameListing (es1 es2 : list Dirent) : Prop :=
  ∃ es, es1 ≡ₚ es ∧ SameAll es es2.

(** Within every directory below the entry, no two entries share a name. *)
Fixpoint uniqueNames (e : Dirent) : Prop :=
  match e with
  | EntDir _ (Some es) =>
      NoDup (entryName <$> es)
      ∧ (fix all (es : list Dirent) : Prop :=
           match es with
           | [] => True
           | e' :: r => uniqueNames e' ∧ all r
           end) es
  | _ => True
  end.

Fixpoint noComma (s : string) : bool :=
  match s with
  | EmptyString => true
  | String c r => negb (Ascii.eqb c ",") && noComma r
  end.

(** What one character of a configured pattern becomes in the source of
    its expression. *)
Definition globChar (c : ascii) : string :=
  if Ascii.eqb c "." then "\."
  else if Ascii.eqb c "*" then ".*"
  else if Ascii.eqb c "?" then "."
  else String c EmptyString.

(** [sub] occurs in [s]. *)
Definition occursIn (sub s : string) : Prop :=
  ∃ pre post, s = pre +:+ sub +:+ post.

(** The literal [.log] at the head of the input. *)
Definition dotLog (k : bool → string → bool) (b : bool) (s : string) : bool :=
  matchRe (RChar ".") b s
    (fun b1 s1 => matchRe (RChar "l") b1 s1
       (fun b2 s2 => matchRe (RChar "o") b2 s2
          (fun b3 s3 => matchRe (RChar "g") b3 s3 k))).

(** Once a position past the first is reached, the input is no longer at
    its start. *)
Definition startAfter (pre : string) (b : bool) : bool :=
  match pre with EmptyString => b | String _ _ => false end.

(** ** Reading the walker *)

(** [p] is [base] or lies below it. *)
Definition under (base p : string) : Prop :=
  p = base ∨ ∃ r, p = base +:+ "/" +:+ r.

Fixpoint noSlash (s : string) : bool :=
  match s with
  | EmptyString => true
  | String c r => negb (Ascii.eqb c "/") && noSlash r
  end.

(** The two ignore files considered: the rule [build/] alone, and followed
    by the exception [!build/keep.txt]. *)
Definition buildRule : string := "build/".

Definition buildRuleWithException : string :=
  "build/" +:+ String "010" "!build/keep.txt".

(** ** Reading the undo system *)

(** The id [recordOperation] is about to generate, and the path of the
    backup it is about to write for [originalPath]: the clock is read for
    the id, the random suffix drawn, then the clock read for the timestamp
    of the entry and once more for the name of the backup. *)
Definition nextOperationId (h : Host) (w : World) : string :=
  "undo_" +:+ pretty (host_clock h (ticks w)) +:+ "_"
  +:+ host_random h (S (ticks w)).

Definition nextBackupPath (h : Host) (u : UndoSystem) (w : World)
    (originalPath : string) : string :=
  join (backupDirectory u)
    (replaceChar "." "-"
       (replaceChar ":" "-"
          (host_toISOString h (host_clock h (S (S (S (ticks w)))))))
     +:+ "_" +:+ basename originalPath).

(** Ascending in the string [str] gives. *)
Definition strLe {A} (str : A -> string) : relation A :=
  fun a b => String.leb (str a) (str b) = true.

(** ** The fingerprint as the specification words it

    For comparison with [compositeText]: lines "file:<path>:<fingerprint>"
    for every file anywhere below the directory, the path taken relative to
    the directory itself, and lines "dir:<name>:<fingerprint>" for its
    immediate child directories, each list sorted as text. *)

Definition claimedLines
    (data : list (string * string) * list (string * string)) : string :=
  String.concat "" (jsSort (fun line => line) (fileLine <$> data.1))
  +:+ String.concat "" (jsSort (fun line => line) (dirLine <$> data.2)).

(** The files at or below an entry with their fingerprints, and the
    entry's own line datum when it is a directory. *)
Fixpoint claimedEntry (h : Host) (d : Disk) (directoryPath : string)
    (e : Dirent) {struct e}
    : list (string * string) * list (string * string) :=
  match e with
  | EntFile nm => ([(nm, fileFingerprint h d (join directoryPath nm))], [])
  | EntDir nm listing =>
      let inner :=
        match listing with
        | Some es =>
            (fix gather (es : list Dirent) :=
               match es with
               | [] => ([], [])
               | e' :: r =>
                   let a := claimedEntry h d (join directoryPath nm) e' in
                   let b := gather r in
                   (a.1 ++ b.1, a.2 ++ b.2)
               end) es
        | None => ([], [])
        end in
      ((fun pf => (nm +:+ "/" +:+ pf.1, pf.2)) <$> inner.1,
       [(nm, hexDigest h (claimedLines inner))])
  | _ => ([], [])
  end.

Definition claimedText (h : Host) (d : Disk) (directoryPath : string) : string :=
  match disk_readdir d directoryPath with
  | Some es =>
      claimedLines
        (foldr (fun e acc =>
                  let a := claimedEntry h d directoryPath e in
                  (a.1 ++ acc.1, a.2 ++ acc.2))
               ([], []) es)
  | None => claimedLines ([], [])
  end.

(** ** detector/duplicate-detector.ts, the statistics *)

Module DuplicateStats.
Record t := mk {
  totalGroups : nat;
  totalFiles : nat;
  totalSize : Z;
  potentialSavings : Z;
  groupsByType : DuplicateType -> nat
}.
End DuplicateStats.

Definition DuplicateType_eqb (a b : DuplicateType) : bool :=
  match a, b with
  | NAME_BASED, NAME_BASED => true
  | CONTENT_BASED, CONTENT_BASED => true
  | FOLDER_BASED, FOLDER_BASED => true
  | _, _ => false
  end.

(** [byType[t]++] *)
Definition bump (byType : DuplicateType -> nat) (t : DuplicateType)
    : DuplicateType -> nat :=
  fun t' => if DuplicateType_eqb t' t then S (byType t') else byType t'.

(** [DuplicateDetector.calculateStats]; the reporter and the interactive
    screen carry the same loop. *)
Definition calculateStats (duplicateGroups : list DuplicateGroup)
    : DuplicateStats.t :=
  fold_left
    (fun stats group =>
       DuplicateStats.mk
         (DuplicateStats.totalGroups stats)
         (DuplicateStats.totalFiles stats + length (files group))%nat
         (DuplicateStats.totalSize stats + totalSize group)
         (DuplicateStats.potentialSavings stats + potentialSavings group)
         (bump (DuplicateStats.groupsByType stats) (type group)))
    duplicateGroups
    (DuplicateStats.mk (length duplicateGroups) 0 0 0 (fun _ => 0%nat)).

(** The reporter's [calculateSavingsByType]:
    [groups.filter((g) => g.type === type).reduce((sum, g) => sum +
    g.potentialSavings, 0)] *)
Definition calculateSavingsByType (duplicateGroups : list DuplicateGroup)
    (t : DuplicateType) : Z :=
  fold_left (fun sum group => sum + potentialSavings group)
    (List.filter (fun group => DuplicateType_eqb (type group) t) duplicateGroups)
    0.

(** ** utils/file-utils.ts, [formatRelativeTime]

    [Math.floor(x / d)] on integers is the quotient rounded down, and an
    integer in a template string is written in decimal. *)
Definition formatRelativeTime (h : Host) (date : Z) : Gen string :=
  nowDate <~ newDate h;
  let diffMs := nowDate - date in
  let diffDays := diffMs / (1000 * 60 * 60 * 24) in
  gret (if diffDays =? 0 then "Today"
        else if diffDays =? 1 then "Yesterday"
        else if diffDays <? 7 then pretty diffDays +:+ " days ago"
        else if diffDays <? 30 then pretty (diffDays / 7) +:+ " weeks ago"
        else if diffDays <? 365 then pretty (diffDays / 30) +:+ " months ago"
        else pretty (diffDays / 365) +:+ " years ago").

(** ** utils/undo-system.ts, the rest of the log *)

(** [xs.sort(compare)]: [x] goes before [y] unless [compare(x, y)] is
    positive, and elements that compare equal keep their order. *)
Fixpoint sortInsertBy {A} (compare : A -> A -> Z) (x : A) (l : list A)
    : list A :=
  match l with
  | [] => [x]
  | y :: r =>
      if compare x y <=? 0 then x :: y :: r
      else y :: sortInsertBy compare x r
  end.

Fixpoint jsSortBy {A} (compare : A -> A -> Z) (l : list A) : list A :=
  match l with
  | [] => []
  | x :: r => sortInsertBy compare x (jsSortBy compare r)
  end.

(** [xs.slice(0, limit)]: a negative [limit] counts from the end. *)
Definition slice0 {A} (limit : Z) (l : list A) : list A :=
  if limit <? 0 then take (Z.to_nat (Z.of_nat (length l) + limit)) l
  else take (Z.to_nat limit) l.

(** [getRecentOperations(limit)]: [sort] reorders [this.operations] itself,
    so the object is returned with the answer. *)
Definition getRecentOperations (u : UndoSystem) (limit : Z)
    : list UndoOperation.t * UndoSystem :=
  let sorted :=
    jsSortBy
      (fun a b => UndoOperation.timestamp b - UndoOperation.timestamp a)
      (operations u) in
  (slice0 limit sorted, withOperations u sorted).

(** The loop of [clearHistory] over the entries. *)
Fixpoint removeBackups (ops : list UndoOperation.t) : IO unit :=
  match ops with
  | [] => ioret tt
  | operation :: rest =>
      _ <- (if truthy (UndoOperation.backupPath operation) then
              match UndoOperation.backupPath operation with
              | Some backupPath =>
                  tryCatch (unlink backupPath)
                    (logLine WARN "Failed to delete backup file")
              | None => ioret tt
              end
            else ioret tt);
      removeBackups rest
  end.

Definition clearHistory (u : UndoSystem) : IO UndoSystem :=
  _ <- removeBackups (operations u);
  _ <- saveHistory (undoHistoryPath u) [];
  _ <- logLine INFO "Undo history cleared";
  ioret (withOperations u []).

(** [loadHistory]: the list last written, or the empty list when there is
    no history file. *)
Definition loadHistory (u : UndoSystem) : IO UndoSystem :=
  fun w =>
    match history w with
    | Some ops =>
        (_ <- logLine INFO "Undo history loaded";
         ioret (withOperations u ops)) w
    | None =>
        (_ <- logLine INFO "Starting with empty undo history";
         ioret (withOperations u [])) w
    end.

(** [initialize]: when the backup directory cannot be made, the history
    is not loaded and the object stays as it was. *)
Definition initialize (u : UndoSystem) : IO UndoSystem :=
  tryCatch
    (_ <- mkdir (backupDirectory u);
     loadHistory u)
    (_ <- logLine ERROR "Failed to initialize undo system"; ioret u).

(** ** ui/interactive-ui.ts, the actions set on a group

    [group.actions] is updated in place; the group is returned with its
    new map.  [keepIndex] is the answer to the prompt of
    [deleteAllButOne]. *)
Definition withActions (group : DuplicateGroup)
    (acts : JsMap.t DuplicateAction) : DuplicateGroup :=
  {| id := id group; type := type group; files := files group;
     totalSize := totalSize group; potentialSavings := potentialSavings group;
     actions := acts |}.

Definition setGroupAction (group : DuplicateGroup) (action : DuplicateAction)
    : DuplicateGroup :=
  withActions group
    (fold_left (fun acts file => JsMap.set (path file) action acts)
       (files group) (actions group)).

(** [group.files.forEach((file, index) => ...)] from [index] on. *)
Fixpoint markFrom (keepIndex index : nat) (fs : list FileMetadata)
    (acts : JsMap.t DuplicateAction) : JsMap.t DuplicateAction :=
  match fs with
  | [] => acts
  | file :: rest =>
      let action := if (index =? keepIndex)%nat then KEEP else DELETE in
      markFrom keepIndex (S index) rest (JsMap.set (path file) action acts)
  end.

Definition deleteAllButOne (group : DuplicateGroup) (keepIndex : nat)
    : DuplicateGroup :=
  withActions group (markFrom keepIndex 0 (files group) (actions group)).

(** ** Reading the rest *)

(** The path reached from [directory] through the entries [names]. *)
Definition pathFrom (directory : string) (names : list string) : string :=
  fold_left join names directory.

Definition withMaxDepth (o : ScanOptions.t) (m : option Z) : ScanOptions.t :=
  ScanOptions.mk (ScanOptions.directory o) (ScanOptions.includeHidden o)
    (ScanOptions.followSymlinks o) (ScanOptions.ignorePatterns o) m.

(** A rule applies to the path and matches it. *)
Definition ruleDecides (rule : GitignoreRule.t) (filePath : string)
    (isDirectory : bool) : bool :=
  negb (GitignoreRule.isDirectory rule && negb isDirectory)
  && test (GitignoreRule.regex rule) (replaceChar "\" "/" filePath).

(** The history file cannot be written: its directory cannot be made or
    the file itself is refused. *)
Definition saveFails (u : UndoSystem) (w : World) : bool :=
  unwritable w (dirname (undoHistoryPath u))
  || unwritable w (undoHistoryPath u).

(** The persisted log is the log in memory. *)
Definition inSync (u : UndoSystem) (w : World) : Prop :=
  history w = Some (operations u).

(** Newest first. *)
Definition newerFirst : relation UndoOperation.t :=
  fun a b => UndoOperation.timestamp b <= UndoOperation.timestamp a.

(** ** Examples *)

(** A host whose digest of a text is the text itself: two of its digests
    differ exactly when the texts do.  Its n-th identifier and its n-th
    random suffix are n letters long, its clock counts the calls, and it
    renders the date t as "T<t>:00.000Z". *)
Definition plainHost : Host :=
  {| host_uuid := fun n => string_of_list_ascii (replicate n "u"%char);
     host_clock := fun n => Z.of_nat n;
     host_sha256 := fun text => text;
     host_random := fun n => string_of_list_ascii (replicate n "r"%char);
     host_toISOString := fun t => "T" +:+ pretty t +:+ ":00.000Z" |}.

(** A disk with the same tree under [/d] and [/e], enumerated in
    different orders, a directory [/c1] whose only file lies one level
    down, and a directory [/c2] holding [a] and [a.txt]. *)
Definition exampleBytes (p : string) : option string :=
  if String.eqb p "/d/a" then Some "A"
  else if String.eqb p "/d/sub/x" then Some "X"
  else if String.eqb p "/e/a" then Some "A"
  else if String.eqb p "/e/sub/x" then Some "X"
  else if String.eqb p "/c1/sub/x" then Some "X"
  else if String.eqb p "/c2/a" then Some "A"
  else if String.eqb p "/c2/a.txt" then Some "T"
  else None.

Definition exampleListing (p : string) : option (list Dirent) :=
  if String.eqb p "/d"
  then Some [EntFile "a"; EntDir "sub" (Some [EntFile "x"; EntFile "y"])]
  else if String.eqb p "/e"
  then Some [EntDir "sub" (Some [EntFile "y"; EntFile "x"]); EntFile "a"]
  else if String.eqb p "/c1"
  then Some [EntDir "sub" (Some [EntFile "x"])]
  else if String.eqb p "/c2"
  then Some [EntFile "a"; EntFile "a.txt"]
  else None.

Definition exampleDisk : Disk :=
  {| disk_stat := fun _ => None;
     disk_read := exampleBytes;
     disk_readdir := exampleListing |}.

(** A project under [/r]: an ignore file with the rule and its
    exception; a directory [build] holding [keep.txt], [other.txt] and a
    directory [deep]; directories [src] and [lib], each with a file
    [data.bin], the one under [lib] being unreadable. *)
Definition projectListing : list Dirent :=
  [EntFile ".gitignore";
   EntDir "build"
     (Some [EntFile "keep.txt"; EntFile "other.txt";
            EntDir "deep" (Some [EntFile "x.o"])]);
   EntDir "src" (Some [EntFile "main.ts"; EntFile "data.bin"]);
   EntDir "lib" (Some [EntFile "data.bin"])].

Definition projectStats (isDir : bool) : Stats :=
  {| st_size := if isDir then 4096 else 3;
     st_mtime := 0; st_birthtime := 0; st_isDirectory := isDir |}.

Definition projectDisk : Disk :=
  {| disk_stat := fun p =>
       if String.eqb p "/r/.gitignore" then Some (projectStats false)
       else if String.eqb p "/r/build/keep.txt" then Some (projectStats false)
       else if String.eqb p "/r/build/other.txt" then Some (projectStats false)
       else if String.eqb p "/r/build/deep/x.o" then Some (projectStats false)
       else if String.eqb p "/r/src/main.ts" then Some (projectStats false)
       else if String.eqb p "/r/src/data.bin" then Some (projectStats false)
       else if String.eqb p "/r/lib/data.bin" then Some (projectStats false)
       else if String.eqb p "/r/build" then Some (projectStats true)
       else if String.eqb p "/r/build/deep" then Some (projectStats true)
       else if String.eqb p "/r/src" then Some (projectStats true)
       else if String.eqb p "/r/lib" then Some (projectStats true)
       else None;
     disk_read := fun p =>
       if String.eqb p "/r/.gitignore" then Some buildRuleWithException
       else if String.eqb p "/r/src/main.ts" then Some "abc"
       else if String.eqb p "/r/src/data.bin" then Some "xyz"
       else if String.eqb p "/r/build/keep.txt" then Some "abc"
       else None;
     disk_readdir := fun p =>
       if String.eqb p "/r" then Some projectListing else None |}.

Definition projectOptions : ScanOptions.t :=
  ScanOptions.mk "/r" false false [] None.

(** An undo system with an empty log, a world with one file, and a log
    whose only entry is a delete whose backup is gone. *)
Definition exampleUndo : UndoSystem :=
  {| undoHistoryPath := "/home/.duplicates-finder/undo-history.json";
     backupDirectory := "/home/.duplicates-finder/backups";
     operations := [] |}.

Definition exampleWorld : World :=
  {| store := {[ "/r/a.txt" := "hello" ]};
     history := None; logged := []; ticks := 0;
     unwritable := fun _ => false |}.

Definition orphanEntry : UndoOperation.t :=
  UndoOperation.mk "undo_7_r" 7 DELETE "/r/b.txt"
    (Some "/home/.duplicates-finder/backups/T7_b.txt") None.

Definition orphanUndo : UndoSystem :=
  withOperations exampleUndo [orphanEntry].

(** ** Further readings and examples *)

Definition sumOf {A} (f : A -> Z) (l : list A) : Z :=
  foldr (fun a acc => f a + acc) 0 l.


(** The example tree with sizes: under [/d] and under [/e] the file [a]
    has 1 byte, [sub/x] has 2 and [sub/y] has 4. *)
Definition exampleStats (p : string) : option Stats :=
  let file (n : Z) :=
    Some {| st_size := n; st_mtime := 0; st_birthtime := 0;
            st_isDirectory := false |} in
  if String.eqb p "/d/a" then file 1
  else if String.eqb p "/d/sub/x" then file 2
  else if String.eqb p "/d/sub/y" then file 4
  else if String.eqb p "/e/a" then file 1
  else if String.eqb p "/e/sub/x" then file 2
  else if String.eqb p "/e/sub/y" then file 4
  else None.

Definition sizedDisk : Disk :=
  {| disk_stat := exampleStats;
     disk_read := exampleBytes;
     disk_readdir := exampleListing |}.

(** Two files named [a] with the same bytes, and the two directories that
    hold them. *)
Definition copyA1 : FileMetadata :=
  {| path := "/d/a"; name := "a"; fsize := 1; modified := 0; created := 0;
     isDirectory := false; hash := Some "41"; extension := None |}.

Definition copyA2 : FileMetadata :=
  {| path := "/e/a"; name := "a"; fsize := 1; modified := 0; created := 0;
     isDirectory := false; hash := Some "41"; extension := None |}.

Definition folderD : FileMetadata :=
  {| path := "/d"; name := "d"; fsize := 4096; modified := 0; created := 0;
     isDirectory := true; hash := None; extension := None |}.

Definition folderE : FileMetadata :=
  {| path := "/e"; name := "e"; fsize := 4096; modified := 0; created := 0;
     isDirectory := true; hash := None; extension := None |}.

(** The identifiers of [out] are those the host gave at calls number
    [ks], made in this order between call [n] and call [n']. *)
Definition drawnIds (h : Host) (out : list DuplicateGroup) (n n' : nat)
    : Prop :=
  ∃ ks, id <$> out = host_uuid h <$> ks
        ∧ StronglySorted lt ks
        ∧ Forall (fun k => (n <= k < n')%nat) ks
        ∧ (n <= n')%nat.

(** The fingerprint the folder pass computes for a directory record. *)
Definition folderFingerprint (h : Host) (d : Disk) (dir : FileMetadata)
    : string :=
  FolderStructure.structureHash (buildFolderStructure h d (path dir) (path dir)).

(** A directory in which the folder comparer sees nothing: it cannot be
    listed, or it lists neither a regular file nor a directory. *)
Definition isFileOrDir (e : Dirent) : bool :=
  match e with EntDir _ _ | EntFile _ => true | _ => false end.

Definition barren (d : Disk) (p : string) : Prop :=
  match disk_readdir d p with
  | Some es => Forall (fun e => isFileOrDir e = false) es
  | None => True
  end.

(** The backup paths [clearHistory] tries to remove. *)
Definition backupsOf (ops : list UndoOperation.t) : list string :=
  omap (fun op =>
          if truthy (UndoOperation.backupPath op)
          then UndoOperation.backupPath op else None) ops.

(** The rules of two contents, one after the other. *)
Definition bothRules (a b : option (list GitignoreRule.t))
    : option (list GitignoreRule.t) :=
  match a, b with
  | Some rs, Some rs' => Some (rs ++ rs')
  | _, _ => None
  end.

Fixpoint noNewline (s : string) : bool :=
  match s with
  | EmptyString => true
  | String c r => negb (Ascii.eqb c "010") && noNewline r
  end.

(** A character of a plain name: a letter, a digit, [-], [_] or [.]. *)
Definition plainChar (c : ascii) : bool :=
  isAlphaNum c || Ascii.eqb c "-" || Ascii.eqb c "_" || Ascii.eqb c ".".

Fixpoint plainName (s : string) : bool :=
  match s with
  | EmptyString => true
  | String c r => plainChar c && plainName r
  end.

(** A character of a literal text: one of a plain name, or a
    separator. *)
Definition literalChar (c : ascii) : bool := plainChar c || Ascii.eqb c "/".

Fixpoint literalText (s : string) : bool :=
  match s with
  | EmptyString => true
  | String c r => literalChar c && literalText r
  end.

Fixpoint noLineTerminator (s : string) : bool :=
  match s with
  | EmptyString => true
  | String c r => negb (isLineTerminator c) && noLineTerminator r
  end.

(** [p] occurs in [s] as whole path segments: at the start of [s] or
    after a separator, and up to the end of [s] or to a separator that is
    not followed by a line break. *)
Definition atSegment (p s : string) : Prop :=
  ∃ pre post,
    s = pre +:+ p +:+ post
    ∧ (pre = "" ∨ ∃ pre', pre = pre' +:+ "/")
    ∧ (post = "" ∨ ∃ post', post = "/" +:+ post'
                            ∧ noLineTerminator post' = true).

(** What the source does not start with when an atom may stand before
    it: a quantifier. *)
Definition safeStart (s : string) : bool :=
  match s with
  | String c _ =>
      negb (Ascii.eqb c "?" || Ascii.eqb c "*" || Ascii.eqb c "+"
            || Ascii.eqb c "{")
  | EmptyString => true
  end.

(** The expression of a plain name: the start of the input or a
    separator, the characters of the name, optionally a separator with
    anything after it, and the end of the input. *)
Fixpoint litSeq (acc : Regex) (body : string) : Regex :=
  match body with
  | EmptyString => acc
  | String c r => litSeq (RSeq acc (RChar c)) r
  end.

Definition segmentStart : Regex :=
  RAlt (RSeq REmpty RBol) (RSeq REmpty (RChar "/")).

Definition segmentEnd : Regex :=
  ROpt (RSeq (RSeq REmpty (RChar "/")) (RStar RAny)).

Definition literalRegex (p : string) : Regex :=
  RSeq (RSeq (litSeq (RSeq REmpty segmentStart) p) segmentEnd) REol.

(** Matching the characters of [body] one after the other. *)
Fixpoint lit (body : string) (k : bool -> string -> bool) (b : bool)
    (s : string) : bool :=
  match body with
  | EmptyString => k b s
  | String c r =>
      match s with
      | String c' s' => Ascii.eqb c c' && lit r k false s'
      | EmptyString => false
      end
  end.

(** The entries [walkEntry] goes on with below [entry]: the listing of
    a directory, or of a link to a directory when links are followed,
    unless the depth limit is reached. *)
Definition descent (o : ScanOptions.t) (d : Disk) (fullPath : string)
    (currentDepth : nat) (entry : Dirent) : list Dirent :=
  let listed (listing : option (list Dirent)) : list Dirent :=
    if depthReached o (S currentDepth) then []
    else match listing with Some es => es | None => [] end in
  match entry with
  | EntDir _ listing => listed listing
  | EntLink _ listing =>
      if ScanOptions.followSymlinks o then
        match disk_stat d fullPath with
        | Some stats => if st_isDirectory stats then listed listing else []
        | None => []
        end
      else []
  | _ => []
  end.

(** An entry the walker passes over: hidden while hidden entries are
    left out, or ignored by the rules under its path relative to the
    root. *)
Definition passedOver (rules : list GitignoreRule.t) (o : ScanOptions.t)
    (directory : string) (entry : Dirent) : bool :=
  negb (ScanOptions.includeHidden o) && startsWith (entryName entry) "."
  || shouldIgnore rules
       (relative (ScanOptions.directory o) (join directory (entryName entry)))
       (entryIsDirectory entry).

Definition listingOf (e : Dirent) : option (list Dirent) :=
  match e with
  | EntDir _ listing | EntLink _ listing => listing
  | _ => None
  end.

(** What [scan] records for a regular file: its metadata, with the
    digest of its bytes when it is not empty; and for a directory: its
    metadata. *)
Definition scannedFile (h : Host) (d : Disk) (f : FileMetadata) : Prop :=
  ∃ m, getFileMetadata d (path f) = Some m
       ∧ isDirectory m = false
       ∧ ((fsize m <= 0 ∧ f = m)
          ∨ (0 < fsize m
             ∧ ∃ bytes, disk_read d (path f) = Some bytes
                        ∧ f = withHash m (hexDigest h bytes))).

Definition scannedDirectory (d : Disk) (f : FileMetadata) : Prop :=
  getFileMetadata d (path f) = Some f ∧ isDirectory f = true.

(** A directory [/t] with two files of the same two bytes and an empty
    file. *)
Definition twinDisk : Disk :=
  {| disk_stat := fun p =>
       if String.eqb p "/t/a.txt" then
         Some {| st_size := 2; st_mtime := 0; st_birthtime := 0;
                 st_isDirectory := false |}
       else if String.eqb p "/t/b.txt" then
         Some {| st_size := 2; st_mtime := 0; st_birthtime := 0;
                 st_isDirectory := false |}
       else if String.eqb p "/t/empty" then
         Some {| st_size := 0; st_mtime := 0; st_birthtime := 0;
                 st_isDirectory := false |}
       else None;
     disk_read := fun p =>
       if String.eqb p "/t/a.txt" then Some "hi"
       else if String.eqb p "/t/b.txt" then Some "hi"
       else if String.eqb p "/t/empty" then Some ""
       else None;
     disk_readdir := fun p =>
       if String.eqb p "/t"
       then Some [EntFile "a.txt"; EntFile "b.txt"; EntFile "empty"]
       else None |}.

Definition twinOptions : ScanOptions.t :=
  ScanOptions.mk "/t" false false [] None.

(** What scanning [/t] gives. *)
Definition twinResult : ScanResult.t :=
  default (ScanResult.mk [] [] 0 0 0)
    (scan plainHost twinOptions twinDisk 0%nat).1.

(** The number of milliseconds in a day. *)
Definition dayMs : Z := 1000 * 60 * 60 * 24.

(** The content-based group of the two copies. *)
Definition twinGroup : DuplicateGroup := contentGroup "g" [copyA1; copyA2].

Fixpoint hasChar (c : ascii) (s : string) : bool :=
  match s with
  | EmptyString => false
  | String x r => Ascii.eqb x c || hasChar c r
  end.

(** A host whose clock stands still, and a world with two files of the
    same base name. *)
Definition frozenHost : Host :=
  {| host_uuid := host_uuid plainHost;
     host_clock := fun _ => 0;
     host_sha256 := host_sha256 plainHost;
     host_random := host_random plainHost;
     host_toISOString := host_toISOString plainHost |}.

Definition twoFilesWorld : World :=
  {| store := {[ "/r/a/x.txt" := "one"; "/r/b/x.txt" := "two" ]};
     history := None; logged := []; ticks := 0;
     unwritable := fun _ => false |}.

(** A chain of entries the walk goes through from [directory], which it
    scans at depth [currentDepth]: none is passed over, and each next one
    is among the entries the walk goes on with below the one before it,
    which are the listing of a directory, or of a link that is followed
    and leads to a directory, as long as the depth limit is not reached. *)
Fixpoint keptChain (rules : list GitignoreRule.t) (o : ScanOptions.t)
    (d : Disk) (directory : string) (currentDepth : nat)
    (entries : list Dirent) : Prop :=
  match entries with
  | [] => True
  | e :: rest =>
      passedOver rules o directory e = false
      ∧ match rest with
        | [] => True
        | e' :: _ =>
            e' ∈ descent o d (join directory (entryName e)) currentDepth e
        end
      ∧ keptChain rules o d (join directory (entryName e)) (S currentDepth)
          rest
  end.

(** A chain of directories the search for ignore files goes through:
    each is a directory whose name does not start with a dot, and each
    next one is listed in the one before it. *)
Fixpoint searchedChain (chain : list Dirent) : Prop :=
  match chain with
  | [] => True
  | e :: rest =>
      startsWith (entryName e) "." = false
      ∧ (∃ nm listing,
           e = EntDir nm listing
           ∧ match rest with
             | [] => True
             | e' :: _ => e' ∈ default [] listing
             end)
      ∧ searchedChain rest
  end.

(** The regular files at and below an entry, by their paths relative to
    the directory that lists the entry; and the size [stat] gives for a
    path, 0 when it fails. *)
Fixpoint regularFiles (e : Dirent) : list string :=
  match e with
  | EntFile nm => [nm]
  | EntDir nm (Some es) =>
      (fun r => nm +:+ "/" +:+ r) <$> flat_map regularFiles es
  | _ => []
  end.

Definition sizeAt (d : Disk) (p : string) : Z :=
  match disk_stat d p with
  | Some stats => st_size stats
  | None => 0
  end.

(** [s] passes unchanged through the three replacements
    [patternToRegex] makes after escaping. *)
Definition passes (s : string) : Prop :=
  replaceChar "*" "[^/]*" (replaceStarStar ".*" (replaceChar "?" "[^/]" s)) = s.

(** A project under [/p] whose ignore file holds the one rule [tmp]:
    a directory [tmp] at the top, and another one inside [src]. *)
Definition plainDisk : Disk :=
  {| disk_stat := fun p =>
       if String.eqb p "/p/.gitignore" then Some (projectStats false)
       else None;
     disk_read := fun p =>
       if String.eqb p "/p/.gitignore" then Some "tmp" else None;
     disk_readdir := fun p =>
       if String.eqb p "/p"
       then Some [EntFile ".gitignore";
                  EntDir "tmp" (Some [EntFile "x"]);
                  EntDir "src" (Some [EntDir "tmp" (Some [EntFile "y"]);
                                      EntFile "main.ts"])]
       else None |}.

Definition plainOptions : ScanOptions.t :=
  ScanOptions.mk "/p" false false [] None.

(* ================================================================== *)
(** * Proofs *)
(* ================================================================== *)

(** ** JsMap *)

Lemma JsMap_get_set {V} (k k' : string) (v : V) (m : JsMap.t V) :
  JsMap.get k' (JsMap.set k v m) =
  if String.eqb k' k then Some v else JsMap.get k' m.
Proof.
  induction m as [|[k0 v0] m IH]; simpl.
  - destruct (String.eqb_spec k' k); reflexivity.
  - destruct (String.eqb_spec k k0) as [->|Hk]; simpl.
    + destruct (String.eqb_spec k' k0); reflexivity.
    + destruct (String.eqb_spec k' k0) as [->|Hk'].
      * destruct (String.eqb_spec k0 k); congruence.
      * exact IH.
Qed.

Lemma JsMap_keys_set {V} (k : string) (v : V) (m : JsMap.t V) :
  (JsMap.set k v m).*1 = if JsMap.has k m then m.*1 else m.*1 ++ [k].
Proof.
  unfold JsMap.has.
  induction m as [|[k0 v0] m IH]; csimpl; [reflexivity|].
  destruct (String.eqb_spec k k0) as [->|Hk]; csimpl; [reflexivity|].
  rewrite IH. destruct (JsMap.get k m); reflexivity.
Qed.

Lemma JsMap_get_None {V} (k : string) (m : JsMap.t V) :
  JsMap.get k m = None ↔ k ∉ m.*1.
Proof.
  induction m as [|[k0 v0] m IH]; csimpl.
  - split; [intros _; apply not_elem_of_nil | reflexivity].
  - destruct (String.eqb_spec k k0) as [->|Hk].
    + split; [discriminate | intros H; exfalso; apply H; left].
    + rewrite IH, not_elem_of_cons. tauto.
Qed.

Lemma JsMap_get_elem {V} (k : string) (v : V) (m : JsMap.t V) :
  NoDup m.*1 → (k, v) ∈ m ↔ JsMap.get k m = Some v.
Proof.
  induction m as [|[k0 v0] m IH]; csimpl; intros Hnd.
  - split; [intros H; inversion H | discriminate].
  - apply NoDup_cons in Hnd as [Hk0 Hnd].
    rewrite elem_of_cons, (IH Hnd).
    destruct (String.eqb_spec k k0) as [->|Hk].
    + split.
      * intros [H|H]; [congruence|].
        exfalso. apply Hk0. apply JsMap_get_None in Hk0. congruence.
      * intros [= ->]. left; reflexivity.
    + split; [intros [H|H]; [congruence|exact H] | intros H; right; exact H].
Qed.

(** ** The grouping loop *)

Lemma pushInto_get {V} (k k' : string) (f : V) m :
  JsMap.get k' (pushInto k f m) =
  if String.eqb k' k then Some (default [] (JsMap.get k m) ++ [f])
  else JsMap.get k' m.
Proof.
  unfold pushInto, JsMap.has.
  destruct (JsMap.get k m) as [fs|] eqn:Hk.
  - rewrite Hk, JsMap_get_set. reflexivity.
  - rewrite JsMap_get_set, String.eqb_refl, !JsMap_get_set.
    destruct (String.eqb k' k); reflexivity.
Qed.

Lemma pushInto_keys {V} (k : string) (f : V) m :
  (pushInto k f m).*1 = if JsMap.has k m then m.*1 else m.*1 ++ [k].
Proof.
  unfold pushInto. destruct (JsMap.has k m) eqn:Hhas.
  - unfold JsMap.has in Hhas.
    destruct (JsMap.get k m) eqn:Hk; [|discriminate].
    rewrite JsMap_keys_set. unfold JsMap.has. rewrite Hk. reflexivity.
  - rewrite JsMap_get_set, String.eqb_refl, JsMap_keys_set.
    unfold JsMap.has at 1. rewrite JsMap_get_set, String.eqb_refl.
    rewrite JsMap_keys_set, Hhas. reflexivity.
Qed.

Lemma keyed_snoc {V} (key : V -> option string) fs f :
  keyed key (fs ++ [f]) =
  match key f with
  | Some k => pushInto k f (keyed key fs)
  | None => keyed key fs
  end.
Proof. unfold keyed. rewrite fold_left_app. reflexivity. Qed.

Lemma keyed_NoDup {V} (key : V -> option string) fs : NoDup (keyed key fs).*1.
Proof.
  induction fs as [|f fs IH] using rev_ind; [constructor|].
  rewrite keyed_snoc. destruct (key f) as [k|]; [|exact IH].
  rewrite pushInto_keys. unfold JsMap.has.
  destruct (JsMap.get k (keyed key fs)) eqn:Hk; [exact IH|].
  apply NoDup_app. split; [exact IH|]. split.
  - intros x Hx Hx'. apply list_elem_of_singleton in Hx'. subst x.
    apply JsMap_get_None in Hk. contradiction.
  - apply NoDup_singleton.
Qed.

Lemma keyed_get {V} (key : V -> option string) fs k :
  JsMap.get k (keyed key fs) =
  match membersOf key k fs with [] => None | l => Some l end.
Proof.
  unfold membersOf.
  induction fs as [|f fs IH] using rev_ind; [reflexivity|].
  rewrite keyed_snoc, filter_app.
  destruct (key f) as [k0|] eqn:Hf.
  - rewrite pushInto_get.
    destruct (String.eqb_spec k k0) as [->|Hne].
    + rewrite IH. rewrite filter_cons_True by exact Hf. rewrite filter_nil.
      destruct (filter _ fs); reflexivity.
    + rewrite IH, filter_cons_False by congruence.
      rewrite filter_nil, app_nil_r. reflexivity.
  - rewrite IH, filter_cons_False by congruence.
    rewrite filter_nil, app_nil_r. reflexivity.
Qed.

Lemma keyed_elem {V} (key : V -> option string) fs k v :
  (k, v) ∈ keyed key fs ↔ v = membersOf key k fs ∧ v ≠ [].
Proof.
  rewrite JsMap_get_elem by apply keyed_NoDup.
  rewrite keyed_get. destruct (membersOf key k fs) eqn:Hm.
  - split; [discriminate | intros [-> H]; contradiction].
  - split; [intros [= <-]; split; [reflexivity | discriminate]
           | intros [-> _]; reflexivity].
Qed.

Lemma nameGroups_keyed fs : nameGroups fs = keyed (fun f => Some (name f)) fs.
Proof. reflexivity. Qed.

Lemma hashGroups_keyed fs : hashGroups fs = keyed hashKey fs.
Proof.
  unfold hashGroups, keyed, hashKey. generalize (@nil (string * list FileMetadata)).
  induction fs as [|f fs IH]; intros m; simpl; [reflexivity|].
  rewrite IH. f_equal.
  destruct (truthy (hash f)) eqn:Ht; [reflexivity|].
  reflexivity.
Qed.

(** ** The emitting loop *)

Lemma emitGroups_sound h mk groups n g :
  g ∈ (emitGroups h mk groups n).1 →
  ∃ i k fs, (k, fs) ∈ groups ∧ (2 <= length fs)%nat ∧ g = mk i fs.
Proof.
  revert n. induction groups as [|[k fs] rest IH]; intros n; simpl.
  - intros H; inversion H.
  - destruct (Nat.ltb_spec 1 (length fs)) as [Hlen|Hlen].
    + unfold gbind, uuidv4, gret.
      destruct (emitGroups h mk rest (S n)) as [out n'] eqn:He. simpl.
      intros [->|Hin]%elem_of_cons.
      * exists (host_uuid h n), k, fs. split; [left|split; [lia|reflexivity]].
      * specialize (IH (S n)). rewrite He in IH.
        destruct (IH Hin) as (i & k' & fs' & Hin' & Hl & ->).
        exists i, k', fs'. split; [right; exact Hin'|split; [exact Hl|reflexivity]].
    + intros Hin. destruct (IH n Hin) as (i & k' & fs' & Hin' & Hl & ->).
      exists i, k', fs'. split; [right; exact Hin'|split; [exact Hl|reflexivity]].
Qed.

Lemma emitGroups_complete h mk groups n k fs :
  (k, fs) ∈ groups → (2 <= length fs)%nat →
  ∃ i, mk i fs ∈ (emitGroups h mk groups n).1.
Proof.
  revert n. induction groups as [|[k0 fs0] rest IH]; intros n Hin Hlen; simpl.
  - inversion Hin.
  - apply elem_of_cons in Hin as [[= <- <-]|Hin].
    + destruct (Nat.ltb_spec 1 (length fs)) as [_|?]; [|lia].
      unfold gbind, uuidv4, gret.
      destruct (emitGroups h mk rest (S n)) as [out n'].
      exists (host_uuid h n). left.
    + destruct (Nat.ltb_spec 1 (length fs0)) as [_|_].
      * unfold gbind, uuidv4, gret.
        destruct (IH (S n) Hin Hlen) as [i Hi].
        destruct (emitGroups h mk rest (S n)) as [out n'].
        exists i. right. exact Hi.
      * apply IH; assumption.
Qed.

(** ** Sizes *)

Lemma sumSizes_from (fs : list FileMetadata) (a : Z) :
  fold_left (fun sum file => sum + fsize file) fs a = a + sizeSum fs.
Proof.
  revert a. induction fs as [|f fs IH]; intros a; simpl; [lia|].
  rewrite IH. lia.
Qed.

Lemma sumSizes_sizeSum fs : sumSizes fs = sizeSum fs.
Proof. unfold sumSizes. rewrite sumSizes_from. lia. Qed.

Lemma fold_max_ge (xs : list Z) (a : Z) :
  a <= fold_left Z.max xs a ∧ Forall (fun x => x <= fold_left Z.max xs a) xs.
Proof.
  revert a. induction xs as [|x xs IH]; intros a; simpl.
  - split; [lia | constructor].
  - destruct (IH (Z.max a x)) as [H1 H2]. split; [lia|].
    constructor; [lia | exact H2].
Qed.

Lemma fold_max_in (xs : list Z) (a : Z) :
  fold_left Z.max xs a = a ∨ fold_left Z.max xs a ∈ xs.
Proof.
  revert a. induction xs as [|x xs IH]; intros a; simpl; [left; reflexivity|].
  destruct (IH (Z.max a x)) as [H|H].
  - rewrite H. destruct (Z.max_spec a x) as [[_ ->]|[_ ->]];
      [right; left | left; reflexivity].
  - right; right; exact H.
Qed.

Lemma Math_max_maxOf (xs : list Z) : xs ≠ [] → maxOf (Math_max xs) xs.
Proof.
  destruct xs as [|x xs]; [contradiction|]. intros _. simpl. split.
  - destruct (fold_max_in xs x) as [->|H]; [left | right; exact H].
  - destruct (fold_max_ge xs x) as [H1 H2]. constructor; assumption.
Qed.

(** ** The name pass and the content pass *)

(** C6: the name pass groups the files by exact base name; a name yields a
    group exactly when two or more files carry it; the group's members are
    those files in traversal order, its total is the sum of their sizes
    and its reclaimable bytes are that sum minus the largest member size.
    Two files of one name and sizes 5 and 7 give one group reclaiming 5. *)
Theorem name_based_grouping (h : Host) (fs : list FileMetadata) (n : nat) :
  (∀ g, g ∈ (findNameBasedDuplicates h fs n).1 →
     ∃ nm mx,
       files g = filter (fun f => name f = nm) fs
       ∧ (2 <= length (files g))%nat
       ∧ type g = NAME_BASED
       ∧ totalSize g = sizeSum (files g)
       ∧ maxOf mx (fsize <$> files g)
       ∧ potentialSavings g = sizeSum (files g) - mx)
  ∧ (∀ nm, (2 <= length (filter (fun f => name f = nm) fs))%nat →
     ∃ g, g ∈ (findNameBasedDuplicates h fs n).1
          ∧ files g = filter (fun f => name f = nm) fs)
  ∧ (∀ f1 f2, name f1 = name f2 → fsize f1 = 5 → fsize f2 = 7 →
     ∃ g, (findNameBasedDuplicates h [f1; f2] n).1 = [g]
          ∧ files g = [f1; f2] ∧ potentialSavings g = 5).
Proof.
  unfold findNameBasedDuplicates, JsMap.entries. rewrite nameGroups_keyed.
  split; [|split].
  - intros g Hg.
    apply emitGroups_sound in Hg as (i & k & ms & Hin & Hlen & ->).
    apply keyed_elem in Hin as [-> Hne]. unfold membersOf in *.
    exists k, (Math_max (fsize <$> filter (fun f => Some (name f) = Some k) fs)).
    simpl. rewrite sumSizes_sizeSum.
    assert (Hf : filter (fun f => Some (name f) = Some k) fs
                 = filter (fun f => name f = k) fs).
    { apply list_filter_iff. intros f. split; congruence. }
    rewrite Hf in *. repeat split; try assumption.
    + apply Math_max_maxOf. intros H%fmap_nil_inv. contradiction.
    + apply Math_max_maxOf. intros H%fmap_nil_inv. contradiction.
  - intros nm Hlen.
    assert (Hf : filter (fun f => Some (name f) = Some nm) fs
                 = filter (fun f => name f = nm) fs).
    { apply list_filter_iff. intros f. split; congruence. }
    destruct (emitGroups_complete h nameGroup
                (keyed (fun f => Some (name f)) fs) n nm
                (filter (fun f => name f = nm) fs)) as [i Hi].
    + apply keyed_elem. unfold membersOf. rewrite Hf. split; [reflexivity|].
      intros H. rewrite H in Hlen. simpl in Hlen. lia.
    + exact Hlen.
    + exists (nameGroup i (filter (fun f => name f = nm) fs)).
      split; [exact Hi | reflexivity].
  - intros f1 f2 Hnm H1 H2. unfold nameGroups. simpl.
    unfold pushInto, JsMap.has. simpl. rewrite Hnm.
    repeat (rewrite String.eqb_refl; simpl).
    eexists. split; [reflexivity|]. split; [reflexivity|].
    simpl. unfold sumSizes. simpl. rewrite H1, H2. reflexivity.
Qed.

(** C5: the content pass looks only at files whose fingerprint is set,
    groups them by that fingerprint, and a fingerprint yields a group
    exactly when two or more such files carry it; the reclaimable bytes are
    the sum of the member sizes minus the size of the first member in
    traversal order.  Three files of one fingerprint and size 10 each give
    one group reclaiming 20. *)
Theorem content_based_grouping (h : Host) (fs : list FileMetadata) (n : nat) :
  (∀ g, g ∈ (findContentBasedDuplicates h fs n).1 →
     ∃ fp f0,
       fp ≠ ""
       ∧ files g = filter (fun f => hash f = Some fp) fs
       ∧ (2 <= length (files g))%nat
       ∧ type g = CONTENT_BASED
       ∧ totalSize g = sizeSum (files g)
       ∧ head (files g) = Some f0
       ∧ potentialSavings g = sizeSum (files g) - fsize f0)
  ∧ (∀ fp, fp ≠ "" →
     (2 <= length (filter (fun f => hash f = Some fp) fs))%nat →
     ∃ g, g ∈ (findContentBasedDuplicates h fs n).1
          ∧ files g = filter (fun f => hash f = Some fp) fs)
  ∧ (∀ g f, g ∈ (findContentBasedDuplicates h fs n).1 → f ∈ files g →
     truthy (hash f) = true)
  ∧ (∀ f1 f2 f3 fp, fp ≠ "" →
     hash f1 = Some fp → hash f2 = Some fp → hash f3 = Some fp →
     fsize f1 = 10 → fsize f2 = 10 → fsize f3 = 10 →
     ∃ g, (findContentBasedDuplicates h [f1; f2; f3] n).1 = [g]
          ∧ files g = [f1; f2; f3] ∧ potentialSavings g = 20).
Proof.
  assert (Hkey : ∀ fp, fp ≠ "" →
            filter (fun f => hashKey f = Some fp) fs
            = filter (fun f => hash f = Some fp) fs).
  { intros fp Hfp. apply list_filter_iff. intros f. unfold hashKey, truthy.
    destruct (hash f) as [s|]; [|split; congruence].
    destruct (String.eqb_spec s ""); simpl; split; congruence. }
  assert (Hset : ∀ f fp, hashKey f = Some fp → fp ≠ "" ∧ hash f = Some fp).
  { intros f fp. unfold hashKey, truthy.
    destruct (hash f) as [s|]; [|discriminate].
    destruct (String.eqb_spec s ""); simpl; [discriminate|].
    intros [= <-]. split; [assumption|reflexivity]. }
  unfold findContentBasedDuplicates, JsMap.entries. rewrite hashGroups_keyed.
  split; [|split; [|split]].
  - intros g Hg.
    apply emitGroups_sound in Hg as (i & k & ms & Hin & Hlen & ->).
    apply keyed_elem in Hin as [-> Hne]. unfold membersOf in *.
    destruct (filter (fun f => hashKey f = Some k) fs) as [|f0 ms] eqn:Hms;
      [contradiction|].
    assert (Hk : k ≠ "").
    { assert (Hin0 : f0 ∈ filter (fun f => hashKey f = Some k) fs)
        by (rewrite Hms; left).
      apply list_elem_of_filter in Hin0 as [Hin0 _].
      apply (Hset _ _ Hin0). }
    exists k, f0. rewrite <- (Hkey k Hk), Hms. simpl.
    rewrite sumSizes_sizeSum. repeat split; try assumption.
  - intros fp Hfp Hlen.
    destruct (emitGroups_complete h contentGroup (keyed hashKey fs) n fp
                (filter (fun f => hash f = Some fp) fs)) as [i Hi].
    + apply keyed_elem. unfold membersOf. rewrite (Hkey fp Hfp).
      split; [reflexivity|].
      intros H. rewrite H in Hlen. simpl in Hlen. lia.
    + exact Hlen.
    + exists (contentGroup i (filter (fun f => hash f = Some fp) fs)).
      split; [exact Hi | reflexivity].
  - intros g f Hg Hf.
    apply emitGroups_sound in Hg as (i & k & ms & Hin & Hlen & ->).
    apply keyed_elem in Hin as [-> Hne]. simpl in Hf. unfold membersOf in Hf.
    apply list_elem_of_filter in Hf as [Hf _].
    destruct (Hset _ _ Hf) as [Hk Hh]. rewrite Hh. simpl.
    destruct (String.eqb_spec k ""); [contradiction|reflexivity].
  - intros f1 f2 f3 fp Hfp E1 E2 E3 S1 S2 S3.
    unfold hashGroups. simpl. rewrite E1, E2, E3. simpl.
    destruct (String.eqb_spec fp ""); [contradiction|]. simpl.
    unfold pushInto, JsMap.has. simpl.
    repeat (rewrite String.eqb_refl; simpl).
    eexists. split; [reflexivity|]. split; [reflexivity|].
    simpl. unfold sumSizes. simpl. rewrite S1, S2, S3. reflexivity.
Qed.

(** ** Every emitted group has two members *)

Lemma emitGroups_two h mk groups n :
  (∀ i fs, files (mk i fs) = fs) →
  Forall (fun g => (2 <= length (files g))%nat) (emitGroups h mk groups n).1.
Proof.
  intros Hmk. apply Forall_forall. intros g Hg.
  apply emitGroups_sound in Hg as (i & k & ms & _ & Hlen & ->).
  rewrite Hmk. exact Hlen.
Qed.

Lemma folderGroups_two h d groups n :
  Forall (fun g => (2 <= length (files g))%nat) (folderGroups h d groups n).1.
Proof.
  revert n. induction groups as [|grp rest IH]; intros n; simpl.
  - constructor.
  - unfold gbind.
    destruct (folderMembers h d grp ([], 0) n) as [[ms total] n1].
    destruct (Nat.ltb_spec 1 (length ms)) as [Hlen|Hlen].
    + unfold uuidv4, gret. specialize (IH (S n1)).
      destruct (folderGroups h d rest (S n1)) as [out n2]. simpl in *.
      constructor; [simpl; lia | exact IH].
    + apply IH.
Qed.

(** C2: whatever the files, the directories and the disk, every group
    the detection emits, from the name pass, the content pass or the folder
    pass, has at least two members. *)
Theorem every_group_has_two_members (h : Host) (d : Disk)
    (fs directories : list FileMetadata) (n : nat) :
  Forall (fun g => (2 <= length (files g))%nat)
         (detectDuplicates h d fs directories n).1.
Proof.
  unfold detectDuplicates, gbind, gret.
  pose proof (emitGroups_two h nameGroup (JsMap.entries (nameGroups fs)) n
                (fun _ _ => eq_refl)) as Hname.
  unfold findNameBasedDuplicates.
  destruct (emitGroups h nameGroup (JsMap.entries (nameGroups fs)) n)
    as [names n1].
  pose proof (emitGroups_two h contentGroup (JsMap.entries (hashGroups fs)) n1
                (fun _ _ => eq_refl)) as Hcontent.
  unfold findContentBasedDuplicates.
  destruct (emitGroups h contentGroup (JsMap.entries (hashGroups fs)) n1)
    as [contents n2].
  assert (Hfolder : Forall (fun g => (2 <= length (files g))%nat)
                      (findFolderBasedDuplicates h d directories n2).1).
  { unfold findFolderBasedDuplicates.
    destruct (length directories =? 0)%nat; [constructor|].
    apply folderGroups_two. }
  destruct (findFolderBasedDuplicates h d directories n2) as [folders n3].
  simpl in *. rewrite !Forall_app. auto.
Qed.

(** ** Strings *)

Lemma string_app_nil (b : string) : "" +:+ b = b.
Proof. reflexivity. Qed.

Lemma string_app_cons (x : ascii) (a b : string) :
  String x a +:+ b = String x (a +:+ b).
Proof. reflexivity. Qed.

Lemma string_app_assoc (a b c : string) : (a +:+ b) +:+ c = a +:+ (b +:+ c).
Proof.
  induction a as [|x a IH]; [reflexivity|].
  rewrite !string_app_cons, IH. reflexivity.
Qed.

Lemma string_app_inv_head (a b c : string) : a +:+ b = a +:+ c → b = c.
Proof.
  induction a as [|x a IH]; [auto|].
  rewrite !string_app_cons. intros [= H]. auto.
Qed.

Lemma stripPrefix_app (p s t r : string) :
  stripPrefix p s = Some r → stripPrefix p (s +:+ t) = Some (r +:+ t).
Proof.
  revert s. induction p as [|a p IH]; intros s; simpl.
  - intros [= ->]. reflexivity.
  - destruct s as [|b s]; [discriminate|]. rewrite string_app_cons.
    destruct (Ascii.eqb a b); [apply IH | discriminate].
Qed.

Lemma stripPrefix_self (p : string) : stripPrefix p p = Some "".
Proof.
  induction p as [|a p IH]; simpl; [reflexivity|].
  rewrite Ascii.eqb_refl. exact IH.
Qed.

Lemma relative_join (basePath directoryPath pre entry : string) :
  stripPrefix (basePath +:+ "/") (directoryPath +:+ "/") = Some pre →
  relative basePath (join directoryPath entry) = pre +:+ entry.
Proof.
  intros H. unfold relative, join.
  rewrite <- string_app_assoc, (stripPrefix_app _ _ entry _ H). reflexivity.
Qed.

Lemma stripPrefix_join (basePath directoryPath pre entry : string) :
  stripPrefix (basePath +:+ "/") (directoryPath +:+ "/") = Some pre →
  stripPrefix (basePath +:+ "/") (join directoryPath entry +:+ "/")
  = Some (pre +:+ entry +:+ "/").
Proof.
  intros H. unfold join.
  rewrite <- !string_app_assoc.
  apply stripPrefix_app, stripPrefix_app, H.
Qed.

(** ** The order of strings *)

Lemma string_leb_trans (s1 s2 s3 : string) :
  String.leb s1 s2 = true → String.leb s2 s3 = true → String.leb s1 s3 = true.
Proof.
  rewrite <- !Is_true_true. intros H1 H2.
  exact (transitivity (R := String.le) H1 H2).
Qed.

Lemma string_leb_refl (s : string) : String.leb s s = true.
Proof. rewrite <- Is_true_true. exact (reflexivity (R := String.le) s). Qed.

(** ** The default sort *)

Section jsSort.
Context {A : Type} (str : A → string).

Lemma sortInsert_perm x l : sortInsert str x l ≡ₚ x :: l.
Proof.
  induction l as [|y l IH]; simpl; [reflexivity|].
  destruct (String.leb (str x) (str y)); [reflexivity|].
  rewrite IH. apply Permutation_swap.
Qed.

Lemma jsSort_perm l : jsSort str l ≡ₚ l.
Proof.
  induction l as [|x l IH]; simpl; [reflexivity|].
  rewrite sortInsert_perm, IH. reflexivity.
Qed.

Lemma sortInsert_sorted x l :
  StronglySorted (strLe str) l → StronglySorted (strLe str) (sortInsert str x l).
Proof.
  induction 1 as [|y l Hl IH Hy]; simpl.
  - repeat constructor.
  - destruct (String.leb (str x) (str y)) eqn:Hxy.
    + constructor; [constructor; assumption|].
      constructor; [exact Hxy|].
      eapply Forall_impl; [exact Hy|].
      intros z Hz. unfold strLe in *. eapply string_leb_trans; eassumption.
    + constructor; [exact IH|].
      rewrite sortInsert_perm. constructor; [|exact Hy].
      unfold strLe. destruct (String.leb_total (str x) (str y)); congruence.
Qed.

Lemma jsSort_sorted l : StronglySorted (strLe str) (jsSort str l).
Proof.
  induction l as [|x l IH]; simpl; [constructor|].
  apply sortInsert_sorted, IH.
Qed.

Lemma jsSort_unique l1 l2 :
  l1 ≡ₚ l2 →
  (∀ a b, a ∈ l1 → b ∈ l1 → str a = str b → a = b) →
  jsSort str l1 = jsSort str l2.
Proof.
  intros Hp Hinj.
  apply (StronglySorted_unique_strong (strLe str)).
  - intros a b Ha Hb Hab Hba.
    rewrite jsSort_perm in Ha. rewrite jsSort_perm, <- Hp in Hb.
    apply Hinj; [assumption..|].
    apply String.leb_antisym; assumption.
  - apply jsSort_sorted.
  - apply jsSort_sorted.
  - rewrite !jsSort_perm. exact Hp.
Qed.
End jsSort.

Lemma jsSort_map {A B} (g : A → B) (k : B → string) (l : list A) :
  g <$> jsSort (k ∘ g) l = jsSort k (g <$> l).
Proof.
  induction l as [|x l IH]; csimpl; [reflexivity|].
  rewrite <- IH. generalize (jsSort (k ∘ g) l). intros s.
  induction s as [|y s IHs]; csimpl; [reflexivity|].
  destruct (String.leb (k (g x)) (k (g y))); csimpl; [reflexivity|].
  rewrite IHs. reflexivity.
Qed.

(** ** The folder structure loop *)

Lemma JsMap_set_fresh {V} (k : string) (v : V) (m : JsMap.t V) :
  k ∉ m.*1 → JsMap.set k v m = m ++ [(k, v)].
Proof.
  induction m as [|[k0 v0] m IH]; csimpl; intros Hk; [reflexivity|].
  apply not_elem_of_cons in Hk as [Hne Hk].
  destruct (String.eqb_spec k k0); [contradiction|].
  rewrite IH by exact Hk. reflexivity.
Qed.

Lemma visitEntry_dir h d directoryPath basePath nm listing maps :
  visitEntry h d directoryPath basePath (EntDir nm listing) maps =
  (maps.1,
   JsMap.set nm
     (folderRecord h (join directoryPath nm)
        (visitListing h d (join directoryPath nm) basePath listing))
     maps.2).
Proof.
  destruct listing; reflexivity.
Qed.

(** The child structures, before their fingerprints are read off. *)
Lemma visit_fold h d directoryPath basePath pre (entries : list Dirent)
    (f0 : JsMap.t string) (s0 : JsMap.t FolderStructure.t) :
  stripPrefix (basePath +:+ "/") (directoryPath +:+ "/") = Some pre →
  NoDup (entryName <$> entries) →
  (∀ nm, nm ∈ entryName <$> entries → pre +:+ nm ∉ f0.*1) →
  (∀ nm, nm ∈ entryName <$> entries → nm ∉ s0.*1) →
  ∃ subs,
    fold_left (fun maps e => visitEntry h d directoryPath basePath e maps)
      entries (f0, s0)
    = (f0 ++ directFiles h d directoryPath pre entries, s0 ++ subs)
    ∧ nameAndHash <$> subs = childDirs h d directoryPath basePath entries.
Proof.
  intros Hpre. revert f0 s0.
  induction entries as [|e r IH]; intros f0 s0 Hnd Hf Hs.
  - exists []. simpl. rewrite !app_nil_r. split; reflexivity.
  - rewrite fmap_cons in Hnd. apply NoDup_cons in Hnd as [Hfresh Hnd].
    assert (Hstep : ∀ (P : string → Prop),
              (∀ nm, nm ∈ entryName <$> e :: r → P nm) →
              ∀ nm, nm ∈ entryName <$> r → P nm).
    { intros P HP nm Hnm. apply HP. rewrite fmap_cons. right. exact Hnm. }
    assert (Hhead : entryName e ∈ entryName <$> e :: r)
      by (rewrite fmap_cons; left).
    cbn [fold_left].
    destruct e as [nm listing|nm|nm listing|nm].
    + rewrite visitEntry_dir. cbn [fst snd].
      rewrite JsMap_set_fresh by (apply Hs, Hhead).
      destruct (IH f0 (s0 ++ [(nm, folderRecord h (join directoryPath nm)
                  (visitListing h d (join directoryPath nm) basePath listing))])
                  Hnd (Hstep _ Hf)) as (subs & Hfold & Hsubs).
      { intros nm' Hnm'. rewrite fmap_app, not_elem_of_app. split.
        - apply Hs. rewrite fmap_cons. right. exact Hnm'.
        - csimpl. intros ->%list_elem_of_singleton. contradiction. }
      eexists (_ :: subs). split.
      * etransitivity; [exact Hfold|]. rewrite <- app_assoc. reflexivity.
      * csimpl. rewrite Hsubs. reflexivity.
    + assert (Hvisit : visitEntry h d directoryPath basePath (EntFile nm) (f0, s0)
                = (f0 ++ [(pre +:+ nm, fileFingerprint h d (join directoryPath nm))], s0)).
      { simpl. rewrite (relative_join _ _ _ _ Hpre). unfold fileFingerprint.
        destruct (calculateFileHash h d (join directoryPath nm));
          cbn [fst snd]; rewrite JsMap_set_fresh by (apply Hf, Hhead);
          reflexivity. }
      rewrite Hvisit.
      destruct (IH (f0 ++ [(pre +:+ nm, fileFingerprint h d (join directoryPath nm))])
                  s0 Hnd) as (subs & Hfold & Hsubs).
      { intros nm' Hnm'. rewrite fmap_app, not_elem_of_app. split.
        - apply Hf. rewrite fmap_cons. right. exact Hnm'.
        - csimpl. intros Heq%list_elem_of_singleton.
          apply string_app_inv_head in Heq. subst nm'. contradiction. }
      { apply (Hstep _ Hs). }
      exists subs. split; [|exact Hsubs].
      etransitivity; [exact Hfold|].
      csimpl. rewrite <- app_assoc. reflexivity.
    + destruct (IH f0 s0 Hnd (Hstep _ Hf) (Hstep _ Hs)) as (subs & Hfold & Hsubs).
      exists subs. split; [exact Hfold | exact Hsubs].
    + destruct (IH f0 s0 Hnd (Hstep _ Hf) (Hstep _ Hs)) as (subs & Hfold & Hsubs).
      exists subs. split; [exact Hfold | exact Hsubs].
Qed.

Lemma structureText_read (files : JsMap.t string)
    (subs : JsMap.t FolderStructure.t) :
  structureText files subs =
  String.concat "" (fileLine <$> jsSort fileEntryString files)
  +:+ String.concat "" (dirLine <$> jsSort dirEntryString (nameAndHash <$> subs)).
Proof.
  unfold structureText, JsMap.entries. f_equal.
  - f_equal. generalize (jsSort fileEntryString files). intros l.
    induction l as [|[p fh] l IH]; csimpl; [reflexivity|].
    rewrite IH. reflexivity.
  - f_equal. rewrite <- jsSort_map.
    change (dirEntryString ∘ nameAndHash) with subdirEntryString.
    generalize (jsSort subdirEntryString subs). intros l.
    induction l as [|[nm st] l IH]; csimpl; [reflexivity|].
    rewrite IH. reflexivity.
Qed.

Lemma compositeText_read h d directoryPath basePath pre (entries : list Dirent) :
  stripPrefix (basePath +:+ "/") (directoryPath +:+ "/") = Some pre →
  NoDup (entryName <$> entries) →
  compositeText h d directoryPath basePath (Some entries) =
  String.concat ""
    (fileLine <$> jsSort fileEntryString (directFiles h d directoryPath pre entries))
  +:+ String.concat ""
    (dirLine <$> jsSort dirEntryString (childDirs h d directoryPath basePath entries)).
Proof.
  intros Hpre Hnd. unfold compositeText.
  destruct (visit_fold h d directoryPath basePath pre entries [] [] Hpre Hnd)
    as (subs & Hfold & Hsubs).
  - intros nm _. apply not_elem_of_nil.
  - intros nm _. apply not_elem_of_nil.
  - assert (Hv : visitListing h d directoryPath basePath (Some entries)
                 = (directFiles h d directoryPath pre entries, subs))
      by exact Hfold.
    rewrite Hv. cbn [fst snd]. rewrite structureText_read, Hsubs.
    reflexivity.
Qed.

(** C3, as the code has it: the fingerprint of a directory is the digest
    of the lines "file:<path>:<fingerprint>", one for every regular file
    directly in the directory (the path taken relative to the base of the
    walk), in ascending order of the strings "<path>,<fingerprint>",
    followed by the lines "dir:<name>:<fingerprint of the child>", one for
    every immediate child directory, in ascending order of the strings
    "<name>,[object Object]".  Files further down enter only through the
    fingerprints of the child directories. *)
Theorem fingerprint_of_direct_entries (h : Host) (d : Disk)
    (directoryPath basePath pre : string) (entries : list Dirent) :
  stripPrefix (basePath +:+ "/") (directoryPath +:+ "/") = Some pre →
  NoDup (entryName <$> entries) →
  ∃ fileList dirList,
    fileList ≡ₚ directFiles h d directoryPath pre entries
    ∧ StronglySorted (strLe fileEntryString) fileList
    ∧ dirList ≡ₚ childDirs h d directoryPath basePath entries
    ∧ StronglySorted (strLe dirEntryString) dirList
    ∧ compositeFingerprint h d directoryPath basePath (Some entries)
      = hexDigest h (String.concat "" (fileLine <$> fileList)
                     +:+ String.concat "" (dirLine <$> dirList))
    ∧ (disk_readdir d directoryPath = Some entries →
       FolderStructure.structureHash
         (buildFolderStructure h d directoryPath basePath)
       = hexDigest h (String.concat "" (fileLine <$> fileList)
                      +:+ String.concat "" (dirLine <$> dirList))).
Proof.
  intros Hpre Hnd.
  exists (jsSort fileEntryString (directFiles h d directoryPath pre entries)),
         (jsSort dirEntryString (childDirs h d directoryPath basePath entries)).
  split; [apply jsSort_perm|]. split; [apply jsSort_sorted|].
  split; [apply jsSort_perm|]. split; [apply jsSort_sorted|].
  assert (Hc : compositeFingerprint h d directoryPath basePath (Some entries)
               = hexDigest h
                   (String.concat ""
                      (fileLine <$> jsSort fileEntryString
                                      (directFiles h d directoryPath pre entries))
                    +:+ String.concat ""
                      (dirLine <$> jsSort dirEntryString
                                     (childDirs h d directoryPath basePath entries)))).
  { unfold compositeFingerprint.
    rewrite (compositeText_read h d directoryPath basePath pre entries Hpre Hnd).
    reflexivity. }
  split; [exact Hc|].
  intros Hread. rewrite <- Hc. unfold buildFolderStructure. rewrite Hread.
  reflexivity.
Qed.

(** ** The fingerprint does not depend on the order of a listing *)

Lemma string_length_app (a b : string) :
  String.length (a +:+ b) = (String.length a + String.length b)%nat.
Proof.
  induction a as [|x a IH]; [reflexivity|].
  rewrite string_app_cons. simpl. rewrite IH. reflexivity.
Qed.

Lemma string_app_inv_tail (a b s : string) : a +:+ s = b +:+ s → a = b.
Proof.
  revert b. induction a as [|x a IH]; intros [|y b] H.
  - reflexivity.
  - apply (f_equal String.length) in H.
    rewrite string_app_nil, string_app_cons in H. simpl in H.
    rewrite string_length_app in H. lia.
  - apply (f_equal String.length) in H.
    rewrite string_app_nil, string_app_cons in H. simpl in H.
    rewrite string_length_app in H. lia.
  - rewrite !string_app_cons in H. injection H as -> H.
    f_equal. apply IH, H.
Qed.

Lemma stripPrefix_Some (p s r : string) : stripPrefix p s = Some r → s = p +:+ r.
Proof.
  revert s. induction p as [|a p IH]; intros s; simpl.
  - intros [= ->]. reflexivity.
  - destruct s as [|b s]; [discriminate|].
    destruct (Ascii.eqb_spec a b) as [->|]; [|discriminate].
    intros H. rewrite string_app_cons, <- (IH _ H). reflexivity.
Qed.

Lemma noComma_app (a b : string) : noComma (a +:+ b) = noComma a && noComma b.
Proof.
  induction a as [|x a IH]; [reflexivity|].
  rewrite string_app_cons. simpl. rewrite IH, andb_assoc. reflexivity.
Qed.

Lemma hexDigit_noComma (n : N) : Ascii.eqb (hexDigit n) "," = false.
Proof.
  destruct n as [|p]; [reflexivity|].
  do 4 (try destruct p as [p|p|]); reflexivity.
Qed.

Lemma toHex_noComma (bytes : string) : noComma (toHex bytes) = true.
Proof.
  induction bytes as [|a r IH]; [reflexivity|].
  cbn [toHex noComma]. rewrite !hexDigit_noComma, IH. reflexivity.
Qed.

Lemma fileFingerprint_noComma h d p : noComma (fileFingerprint h d p) = true.
Proof.
  unfold fileFingerprint, calculateFileHash, hexDigest.
  destruct (disk_read d p); [apply toHex_noComma | reflexivity].
Qed.

(** The last comma of "<path>,<fingerprint>" separates the two. *)
Lemma fileEntryString_inj (p1 f1 p2 f2 : string) :
  noComma f1 = true → noComma f2 = true →
  fileEntryString (p1, f1) = fileEntryString (p2, f2) → p1 = p2 ∧ f1 = f2.
Proof.
  unfold fileEntryString. cbn [fst snd]. intros H1 H2.
  revert p2. induction p1 as [|x p1 IH]; intros [|y p2];
    repeat (rewrite string_app_nil || rewrite string_app_cons).
  - intros [= ->]. split; reflexivity.
  - intros [= <- ->]. rewrite noComma_app in H1.
    simpl in H1.
    rewrite andb_false_r in H1. discriminate.
  - intros [= -> <-]. rewrite noComma_app in H2.
    simpl in H2.
    rewrite andb_false_r in H2. discriminate.
  - intros [= -> H]. destruct (IH _ H) as [-> ->]. split; reflexivity.
Qed.

Lemma directFiles_noComma h d directoryPath pre (entries : list Dirent) p f :
  (p, f) ∈ directFiles h d directoryPath pre entries → noComma f = true.
Proof.
  unfold directFiles. rewrite list_elem_of_omap. intros (e & _ & He).
  destruct e; try discriminate. injection He as _ <-.
  apply fileFingerprint_noComma.
Qed.

Lemma childDirs_names h d directoryPath basePath (entries : list Dirent) nm f :
  (nm, f) ∈ childDirs h d directoryPath basePath entries →
  nm ∈ entryName <$> entries.
Proof.
  unfold childDirs. rewrite list_elem_of_omap. intros (e & Hin & He).
  destruct e; try discriminate. injection He as <- _.
  apply list_elem_of_fmap. eexists. split; [|exact Hin]. reflexivity.
Qed.

Lemma childDirs_functional h d directoryPath basePath (entries : list Dirent)
    nm f1 f2 :
  NoDup (entryName <$> entries) →
  (nm, f1) ∈ childDirs h d directoryPath basePath entries →
  (nm, f2) ∈ childDirs h d directoryPath basePath entries →
  f1 = f2.
Proof.
  induction entries as [|e r IH]; csimpl; intros Hnd H1 H2.
  - inversion H1.
  - apply NoDup_cons in Hnd as [Hfresh Hnd].
    unfold childDirs in H1, H2. csimpl in H1. csimpl in H2.
    destruct (dirDatum h d directoryPath basePath e) as [[nm' f']|] eqn:He.
    + assert (Hnm : nm' = entryName e).
      { destruct e; try discriminate. injection He as <- _. reflexivity. }
      csimpl in H1. csimpl in H2.
      apply elem_of_cons in H1 as [E1|H1];
      apply elem_of_cons in H2 as [E2|H2].
      * congruence.
      * exfalso. apply Hfresh. rewrite <- Hnm.
        replace nm' with nm by congruence. eapply childDirs_names, H2.
      * exfalso. apply Hfresh. rewrite <- Hnm.
        replace nm' with nm by congruence. eapply childDirs_names, H1.
      * apply IH; assumption.
    + csimpl in H1. csimpl in H2. apply IH; assumption.
Qed.

Lemma sorted_lines_agree h (d1 d2 : Disk) dp1 dp2 B1 B2 pre
    (es1 es2 : list Dirent) :
  NoDup (entryName <$> es1) →
  directFiles h d1 dp1 pre es1 ≡ₚ directFiles h d2 dp2 pre es2 →
  childDirs h d1 dp1 B1 es1 ≡ₚ childDirs h d2 dp2 B2 es2 →
  jsSort fileEntryString (directFiles h d1 dp1 pre es1)
  = jsSort fileEntryString (directFiles h d2 dp2 pre es2)
  ∧ jsSort dirEntryString (childDirs h d1 dp1 B1 es1)
    = jsSort dirEntryString (childDirs h d2 dp2 B2 es2).
Proof.
  intros Hnd Hf Hd. split.
  - apply jsSort_unique; [exact Hf|].
    intros [p1 f1] [p2 f2] Ha Hb Hab.
    apply directFiles_noComma in Ha, Hb.
    destruct (fileEntryString_inj _ _ _ _ Ha Hb Hab) as [-> ->]. reflexivity.
  - apply jsSort_unique; [exact Hd|].
    intros [n1 f1] [n2 f2] Ha Hb Hab.
    unfold dirEntryString in Hab. cbn [fst] in Hab.
    apply string_app_inv_tail in Hab. subst n2.
    rewrite (childDirs_functional _ _ _ _ _ _ _ _ Hnd Ha Hb). reflexivity.
Qed.

Lemma uniqueNames_dir nm (es : list Dirent) :
  uniqueNames (EntDir nm (Some es)) ↔
  NoDup (entryName <$> es) ∧ Forall uniqueNames es.
Proof.
  cbn [uniqueNames]. apply and_iff_compat_l.
  induction es as [|e r IH]; [split; [constructor | trivial]|].
  rewrite Forall_cons, IH. reflexivity.
Qed.

Lemma join_below (basePath directoryPath pre entry : string) :
  stripPrefix (basePath +:+ "/") (directoryPath +:+ "/") = Some pre →
  join directoryPath entry = basePath +:+ "/" +:+ (pre +:+ entry).
Proof.
  intros H%stripPrefix_Some. unfold join.
  rewrite <- (string_app_assoc directoryPath), H, !string_app_assoc.
  reflexivity.
Qed.

Section SameTree.
Variables (h : Host) (d1 d2 : Disk) (B1 B2 : string).
Hypothesis same_bytes :
  ∀ r, disk_read d1 (B1 +:+ "/" +:+ r) = disk_read d2 (B2 +:+ "/" +:+ r).

Lemma same_listing_fingerprint dp1 dp2 pre (es1 es es2 : list Dirent) :
  stripPrefix (B1 +:+ "/") (dp1 +:+ "/") = Some pre →
  stripPrefix (B2 +:+ "/") (dp2 +:+ "/") = Some pre →
  NoDup (entryName <$> es1) →
  es1 ≡ₚ es →
  directFiles h d1 dp1 pre es = directFiles h d2 dp2 pre es2 →
  childDirs h d1 dp1 B1 es = childDirs h d2 dp2 B2 es2 →
  entryName <$> es = entryName <$> es2 →
  compositeFingerprint h d1 dp1 B1 (Some es1)
  = compositeFingerprint h d2 dp2 B2 (Some es2).
Proof.
  intros Hp1 Hp2 Hnd Hperm Hfiles Hdirs Hnames.
  assert (Hnd2 : NoDup (entryName <$> es2))
    by (rewrite <- Hnames, <- Hperm; exact Hnd).
  unfold compositeFingerprint.
  rewrite (compositeText_read h d1 dp1 B1 pre es1 Hp1 Hnd).
  rewrite (compositeText_read h d2 dp2 B2 pre es2 Hp2 Hnd2).
  destruct (sorted_lines_agree h d1 d2 dp1 dp2 B1 B2 pre es1 es2 Hnd)
    as [-> ->]; [| |reflexivity].
  - unfold directFiles in *. rewrite Hperm, Hfiles. reflexivity.
  - unfold childDirs in *. rewrite Hperm, Hdirs. reflexivity.
Qed.

Lemma same_data :
  (∀ e1 e2, SameEntry e1 e2 →
     ∀ dp1 dp2 pre,
       stripPrefix (B1 +:+ "/") (dp1 +:+ "/") = Some pre →
       stripPrefix (B2 +:+ "/") (dp2 +:+ "/") = Some pre →
       uniqueNames e1 →
       fileDatum h d1 dp1 pre e1 = fileDatum h d2 dp2 pre e2
       ∧ dirDatum h d1 dp1 B1 e1 = dirDatum h d2 dp2 B2 e2
       ∧ entryName e1 = entryName e2)
  ∧ (∀ es1 es2, SameAll es1 es2 →
     ∀ dp1 dp2 pre,
       stripPrefix (B1 +:+ "/") (dp1 +:+ "/") = Some pre →
       stripPrefix (B2 +:+ "/") (dp2 +:+ "/") = Some pre →
       Forall uniqueNames es1 →
       directFiles h d1 dp1 pre es1 = directFiles h d2 dp2 pre es2
       ∧ childDirs h d1 dp1 B1 es1 = childDirs h d2 dp2 B2 es2
       ∧ entryName <$> es1 = entryName <$> es2).
Proof.
  apply Same_mutind.
  - intros nm dp1 dp2 pre Hp1 Hp2 _. split; [|split; reflexivity].
    cbn [fileDatum]. unfold fileFingerprint, calculateFileHash.
    rewrite (join_below _ _ _ nm Hp1), (join_below _ _ _ nm Hp2), same_bytes.
    reflexivity.
  - intros nm dp1 dp2 pre _ _ _. repeat split; reflexivity.
  - intros nm es1 es es2 Hperm _ IH dp1 dp2 pre Hp1 Hp2
      [Hnd Hall]%uniqueNames_dir.
    split; [reflexivity|]. split; [|reflexivity].
    cbn [dirDatum]. f_equal. f_equal.
    assert (Hall' : Forall uniqueNames es) by (rewrite <- Hperm; exact Hall).
    destruct (IH (join dp1 nm) (join dp2 nm) (pre +:+ nm +:+ "/")
                (stripPrefix_join _ _ _ nm Hp1) (stripPrefix_join _ _ _ nm Hp2)
                Hall') as (Hf & Hd & Hn).
    apply (same_listing_fingerprint _ _ (pre +:+ nm +:+ "/") es1 es es2);
      auto using stripPrefix_join.
  - intros nm l dp1 dp2 pre _ _ _. repeat split; reflexivity.
  - intros nm dp1 dp2 pre _ _ _. repeat split; reflexivity.
  - intros dp1 dp2 pre _ _ _. repeat split; reflexivity.
  - intros e1 e2 es1 es2 _ IHe _ IHes dp1 dp2 pre Hp1 Hp2
      [He Hes]%Forall_cons.
    destruct (IHe dp1 dp2 pre Hp1 Hp2 He) as (Hf & Hd & Hn).
    destruct (IHes dp1 dp2 pre Hp1 Hp2 Hes) as (Hfs & Hds & Hns).
    unfold directFiles, childDirs in *. csimpl.
    rewrite Hf, Hd, Hn, Hfs, Hds, Hns. repeat split; reflexivity.
Qed.
End SameTree.

(** C4: two listings of the same tree, whatever the order in which each
    directory enumerates its entries, give the same fingerprint, provided
    the files at the same relative paths hold the same bytes (or fail to be
    read alike) and no directory lists a name twice.  The two trees may be
    one directory listed twice or two directories at different places. *)
Theorem fingerprint_ignores_listing_order (h : Host) (d1 d2 : Disk)
    (D1 D2 : string) (es1 es2 : list Dirent) :
  disk_readdir d1 D1 = Some es1 →
  disk_readdir d2 D2 = Some es2 →
  SameListing es1 es2 →
  NoDup (entryName <$> es1) →
  Forall uniqueNames es1 →
  (∀ r, disk_read d1 (D1 +:+ "/" +:+ r) = disk_read d2 (D2 +:+ "/" +:+ r)) →
  FolderStructure.structureHash (buildFolderStructure h d1 D1 D1)
  = FolderStructure.structureHash (buildFolderStructure h d2 D2 D2).
Proof.
  intros Hr1 Hr2 (es & Hperm & Hall) Hnd Huniq Hbytes.
  unfold buildFolderStructure. rewrite Hr1, Hr2.
  change (compositeFingerprint h d1 D1 D1 (Some es1)
          = compositeFingerprint h d2 D2 D2 (Some es2)).
  assert (Huniq' : Forall uniqueNames es) by (rewrite <- Hperm; exact Huniq).
  destruct (proj2 (same_data h d1 d2 D1 D2 Hbytes) es es2 Hall D1 D2 ""
              (stripPrefix_self _) (stripPrefix_self _) Huniq')
    as (Hf & Hd & Hn).
  apply (same_listing_fingerprint h d1 d2 D1 D2 D1 D2 "" es1 es es2);
    auto using stripPrefix_self.
Qed.

Lemma exampleBytes_agree (r : string) :
  disk_read exampleDisk ("/d" +:+ "/" +:+ r)
  = disk_read exampleDisk ("/e" +:+ "/" +:+ r).
Proof.
  change ("/d" +:+ "/" +:+ r) with (String "/" (String "d" (String "/" r))).
  change ("/e" +:+ "/" +:+ r) with (String "/" (String "e" (String "/" r))).
  cbn [disk_read exampleDisk]. unfold exampleBytes. simpl.
  destruct (String.eqb r "a"); [reflexivity|].
  destruct (String.eqb r "sub/x"); reflexivity.
Qed.

Lemma fingerprint_ignores_listing_order_witness :
  FolderStructure.structureHash (buildFolderStructure plainHost exampleDisk "/d" "/d")
  = FolderStructure.structureHash (buildFolderStructure plainHost exampleDisk "/e" "/e").
Proof.
  apply (fingerprint_ignores_listing_order plainHost exampleDisk exampleDisk
           "/d" "/e"
           [EntFile "a"; EntDir "sub" (Some [EntFile "x"; EntFile "y"])]
           [EntDir "sub" (Some [EntFile "y"; EntFile "x"]); EntFile "a"]).
  - reflexivity.
  - reflexivity.
  - exists [EntDir "sub" (Some [EntFile "x"; EntFile "y"]); EntFile "a"].
    split; [apply Permutation_swap|].
    constructor; [|constructor; constructor].
    apply (same_dir "sub" _ [EntFile "y"; EntFile "x"]);
      [apply Permutation_swap | repeat constructor].
  - apply (bool_decide_unpack _). vm_compute. exact I.
  - repeat constructor; apply (bool_decide_unpack _); vm_compute; exact I.
  - exact exampleBytes_agree.
Defined.

Lemma fingerprint_of_direct_entries_witness :
  ∃ fileList dirList,
    fileList ≡ₚ directFiles plainHost exampleDisk "/d" ""
                 [EntFile "a"; EntDir "sub" (Some [EntFile "x"; EntFile "y"])]
    ∧ StronglySorted (strLe fileEntryString) fileList
    ∧ dirList ≡ₚ childDirs plainHost exampleDisk "/d" "/d"
                  [EntFile "a"; EntDir "sub" (Some [EntFile "x"; EntFile "y"])]
    ∧ StronglySorted (strLe dirEntryString) dirList
    ∧ compositeFingerprint plainHost exampleDisk "/d" "/d"
        (Some [EntFile "a"; EntDir "sub" (Some [EntFile "x"; EntFile "y"])])
      = hexDigest plainHost (String.concat "" (fileLine <$> fileList)
                             +:+ String.concat "" (dirLine <$> dirList))
    ∧ (disk_readdir exampleDisk "/d"
       = Some [EntFile "a"; EntDir "sub" (Some [EntFile "x"; EntFile "y"])] →
       FolderStructure.structureHash
         (buildFolderStructure plainHost exampleDisk "/d" "/d")
       = hexDigest plainHost (String.concat "" (fileLine <$> fileList)
                              +:+ String.concat "" (dirLine <$> dirList))).
Proof.
  apply (fingerprint_of_direct_entries plainHost exampleDisk "/d" "/d" "").
  - reflexivity.
  - apply (bool_decide_unpack _). vm_compute. exact I.
Defined.

(** C3, as the specification words it, fails.  Under [/c1] the only file lies one
    level down: the specification has a line for it, the code has none.  Under
    [/c2] the files [a] and [a.txt] come in the order of "a,<hash>" and
    "a.txt,<hash>" in the code, and in the opposite order when the lines
    "file:a:<hash>" and "file:a.txt:<hash>" are sorted as text.  The texts
    differ under every digest function, and so do the digests as soon as
    the digest function tells the texts apart. *)
Lemma fingerprint_differs_from_specified :
  (∀ h, compositeText h exampleDisk "/c1" "/c1" (disk_readdir exampleDisk "/c1")
        ≠ claimedText h exampleDisk "/c1")
  ∧ (∀ h, compositeText h exampleDisk "/c2" "/c2" (disk_readdir exampleDisk "/c2")
          ≠ claimedText h exampleDisk "/c2")
  ∧ FolderStructure.structureHash
      (buildFolderStructure plainHost exampleDisk "/c1" "/c1")
    ≠ hexDigest plainHost (claimedText plainHost exampleDisk "/c1")
  ∧ FolderStructure.structureHash
      (buildFolderStructure plainHost exampleDisk "/c2" "/c2")
    ≠ hexDigest plainHost (claimedText plainHost exampleDisk "/c2").
Proof.
  split; [|split; [|split]].
  - intros h E. apply (f_equal (String.get 0)) in E.
    vm_compute in E. discriminate E.
  - intros h E. apply (f_equal (String.get 6)) in E.
    vm_compute in E. discriminate E.
  - vm_compute. discriminate.
  - vm_compute. discriminate.
Qed.

(** ** The configured ignore patterns *)

Lemma startAfter_false (pre : string) : startAfter pre false = false.
Proof. destruct pre; reflexivity. Qed.

Lemma searchFrom_iff (r : Regex) (b : bool) (s : string) :
  searchFrom r b s = true ↔
  ∃ pre suf, s = pre +:+ suf
             ∧ matchRe r (startAfter pre b) suf (fun _ _ => true) = true.
Proof.
  revert b. induction s as [|c s IH]; intros b; cbn [searchFrom].
  - rewrite orb_false_r. split.
    + intros H. exists "", "". split; [reflexivity | exact H].
    + intros (pre & suf & E & H). destruct pre; [|discriminate].
      rewrite string_app_nil in E. subst suf. exact H.
  - rewrite orb_true_iff, IH. split.
    + intros [H|(pre & suf & -> & H)].
      * exists "", (String c s). split; [reflexivity | exact H].
      * exists (String c pre), suf. split; [reflexivity|].
        rewrite startAfter_false in H. exact H.
    + intros (pre & suf & E & H). destruct pre as [|c' pre].
      * rewrite string_app_nil in E. subst suf. left. exact H.
      * rewrite string_app_cons in E. injection E as -> ->.
        right. exists pre, suf. split; [reflexivity|].
        rewrite startAfter_false. exact H.
Qed.

Lemma somePatternMatches_true (normalizedPath : string) (patterns : list string) :
  somePatternMatches normalizedPath patterns = Some true →
  ∃ pattern regex,
    pattern ∈ patterns ∧ RegExp (globSource pattern) = Some regex
    ∧ test regex normalizedPath = true.
Proof.
  induction patterns as [|pat rest IH]; simpl; [discriminate|].
  destruct (RegExp (globSource pat)) as [regex|] eqn:Hre; [|discriminate].
  destruct (test regex normalizedPath) eqn:Ht.
  - intros _. exists pat, regex. split; [left | split; assumption].
  - intros H. destruct (IH H) as (p & r & Hin & Hr & Hm).
    exists p, r. split; [right; exact Hin | split; assumption].
Qed.

Lemma somePatternMatches_any (normalizedPath : string) (patterns : list string)
    pattern regex :
  Forall (fun p => is_Some (RegExp (globSource p))) patterns →
  pattern ∈ patterns → RegExp (globSource pattern) = Some regex →
  test regex normalizedPath = true →
  somePatternMatches normalizedPath patterns = Some true.
Proof.
  induction patterns as [|pat rest IH]; intros Hall Hin Hre Ht.
  - inversion Hin.
  - apply Forall_cons in Hall as [[r0 Hr0] Hall]. simpl. rewrite Hr0.
    destruct (test r0 normalizedPath) eqn:Ht0; [reflexivity|].
    apply elem_of_cons in Hin as [->|Hin]; [congruence|].
    apply IH; assumption.
Qed.

Lemma dotLog_true (b : bool) (s : string) :
  dotLog (fun _ _ => true) b s = true ↔ ∃ post, s = ".log" +:+ post.
Proof.
  unfold dotLog. split.
  - destruct s as [|c1 [|c2 [|c3 [|c4 post]]]]; cbn [matchRe];
      rewrite ?andb_false_r; try discriminate.
    rewrite !andb_true_r, !andb_true_iff.
    intros (H1 & H2 & H3 & H4).
    apply Ascii.eqb_eq in H1, H2, H3, H4. subst. exists post. reflexivity.
  - intros [post ->]. reflexivity.
Qed.

Lemma star_any_dotLog (n : nat) (b : bool) (s : string) :
  starLoop (matchRe RAny) (dotLog (fun _ _ => true)) n b s = true →
  occursIn ".log" s.
Proof.
  revert b s. induction n as [|n IH]; intros b s; cbn [starLoop].
  - rewrite orb_false_r. intros [post ->]%dotLog_true. exists "", post.
    reflexivity.
  - rewrite orb_true_iff. intros [H|H].
    + apply dotLog_true in H as [post ->]. exists "", post. reflexivity.
    + destruct s as [|c s]; [discriminate|]. cbn [matchRe] in H.
      apply andb_true_iff in H as [_ H]. apply andb_true_iff in H as [_ H].
      destruct (IH _ _ H) as (pre & post & ->).
      exists (String c pre), post. reflexivity.
Qed.

Lemma starLoop_stop step k n b s :
  k b s = true → starLoop step k n b s = true.
Proof. intros H. destruct n; cbn [starLoop]; rewrite H; reflexivity. Qed.

Lemma log_pattern_regex :
  ∃ regex, RegExp (globSource "*.log") = Some regex
           ∧ ∀ b s, matchRe regex b s (fun _ _ => true)
                    = starLoop (matchRe RAny) (dotLog (fun _ _ => true))
                        (String.length s) b s.
Proof. eexists. split; [vm_compute; reflexivity|]. reflexivity. Qed.

Lemma log_pattern_test (s : string) :
  (∃ regex, RegExp (globSource "*.log") = Some regex ∧ test regex s = true)
  ↔ occursIn ".log" s.
Proof.
  destruct log_pattern_regex as (regex & Hre & Hm). split.
  - intros (r & Hr & Ht). rewrite Hre in Hr. injection Hr as <-.
    apply searchFrom_iff in Ht as (pre & suf & -> & H).
    rewrite Hm in H. apply star_any_dotLog in H as (mid & post & ->).
    exists (pre +:+ mid), post. rewrite string_app_assoc. reflexivity.
  - intros (pre & post & ->). exists regex. split; [exact Hre|].
    apply searchFrom_iff. exists pre, (".log" +:+ post).
    split; [reflexivity|]. rewrite Hm. apply starLoop_stop.
    apply dotLog_true. exists post. reflexivity.
Qed.


(** ** The walker and the ignore rules *)

Lemma Dirent_listing_ind (P : Dirent → Prop) :
  (∀ nm, P (EntDir nm None)) →
  (∀ nm es, Forall P es → P (EntDir nm (Some es))) →
  (∀ nm, P (EntFile nm)) →
  (∀ nm, P (EntLink nm None)) →
  (∀ nm es, Forall P es → P (EntLink nm (Some es))) →
  (∀ nm, P (EntOther nm)) →
  ∀ e, P e.
Proof.
  intros Hdir0 Hdir Hfile Hlink0 Hlink Hother.
  fix IH 1. intros [nm [es|]|nm|nm [es|]|nm].
  - apply Hdir.
    induction es as [|e r IHr]; constructor; [apply IH | exact IHr].
  - apply Hdir0.
  - apply Hfile.
  - apply Hlink.
    induction es as [|e r IHr]; constructor; [apply IH | exact IHr].
  - apply Hlink0.
  - apply Hother.
Qed.

Lemma Dirent_nested_ind (P : Dirent → Prop) :
  (∀ nm listing,
     (∀ es, listing = Some es → Forall P es) → P (EntDir nm listing)) →
  (∀ nm, P (EntFile nm)) →
  (∀ nm listing,
     (∀ es, listing = Some es → Forall P es) → P (EntLink nm listing)) →
  (∀ nm, P (EntOther nm)) →
  ∀ e, P e.
Proof.
  intros Hdir Hfile Hlink Hother.
  apply Dirent_listing_ind; auto.
  - intros nm. apply Hdir. discriminate.
  - intros nm es H. apply Hdir. intros es' [= <-]. exact H.
  - intros nm. apply Hlink. discriminate.
  - intros nm es H. apply Hlink. intros es' [= <-]. exact H.
Qed.

Lemma under_join (base nm p : string) : under (join base nm) p → under base p.
Proof.
  unfold under, join. intros [->|[r ->]]; right.
  - exists nm. reflexivity.
  - exists (nm +:+ "/" +:+ r). rewrite !string_app_assoc. reflexivity.
Qed.

Lemma descend_each (f : Dirent → list string) (es : list Dirent) :
  (fix each (es : list Dirent) : list string :=
     match es with
     | [] => []
     | e' :: r => f e' ++ each r
     end) es = flat_map f es.
Proof. induction es as [|e r IH]; [reflexivity|]. simpl. rewrite IH. reflexivity. Qed.

Lemma walkEntry_under rules o d (e : Dirent) :
  ∀ directory currentDepth p,
    p ∈ walkEntry rules o d directory currentDepth e →
    under (join directory (entryName e)) p.
Proof.
  induction e as [nm listing IH|nm|nm listing IH|nm] using Dirent_nested_ind;
    intros directory currentDepth p; cbn [walkEntry entryName entryIsDirectory];
    destruct (negb (ScanOptions.includeHidden o) && startsWith nm ".");
    try (intros H; inversion H; fail);
    match goal with
    | |- context [shouldIgnore ?r ?q ?b] => destruct (shouldIgnore r q b)
    end;
    try (intros H; inversion H; fail);
    intros [->|Hp]%elem_of_cons; try (left; reflexivity);
    try (inversion Hp; fail).
  - destruct (depthReached o (S currentDepth)); [inversion Hp|].
    destruct listing as [es|]; [|inversion Hp].
    rewrite descend_each in Hp. apply list_elem_of_In, in_flat_map in Hp.
    destruct Hp as (e' & Hin & Hp). apply list_elem_of_In in Hin, Hp.
    specialize (IH es eq_refl). rewrite Forall_forall in IH.
    apply (under_join _ (entryName e')). exact (IH e' Hin _ _ _ Hp).
  - destruct (ScanOptions.followSymlinks o); [|inversion Hp].
    destruct (disk_stat d (join directory nm)) as [stats|]; [|inversion Hp].
    destruct (st_isDirectory stats); [|inversion Hp].
    destruct (depthReached o (S currentDepth)); [inversion Hp|].
    destruct listing as [es|]; [|inversion Hp].
    rewrite descend_each in Hp. apply list_elem_of_In, in_flat_map in Hp.
    destruct Hp as (e' & Hin & Hp). apply list_elem_of_In in Hin, Hp.
    specialize (IH es eq_refl). rewrite Forall_forall in IH.
    apply (under_join _ (entryName e')). exact (IH e' Hin _ _ _ Hp).
Qed.

(** Two names without a separator that lead to a common path are one. *)
Lemma name_of_path (a b s t : string) :
  noSlash a = true → noSlash b = true →
  (s = "" ∨ ∃ r, s = "/" +:+ r) → (t = "" ∨ ∃ r, t = "/" +:+ r) →
  a +:+ s = b +:+ t → a = b.
Proof.
  intros Ha Hb Hs Ht. revert b Hb.
  induction a as [|x a IH]; intros [|y b] Hb;
    rewrite ?string_app_nil, ?string_app_cons.
  - reflexivity.
  - intros ->. simpl in Hb. apply andb_true_iff in Hb as [Hy _].
    destruct Hs as [Hs|[r Hs]]; [discriminate|].
    injection Hs as -> _. discriminate.
  - intros <-. simpl in Ha. apply andb_true_iff in Ha as [Hx _].
    destruct Ht as [Ht|[r Ht]]; [discriminate|].
    injection Ht as -> _. discriminate.
  - simpl in Ha, Hb.
    apply andb_true_iff in Ha as [_ Ha]. apply andb_true_iff in Hb as [_ Hb].
    intros [= -> H]. f_equal. apply (IH Ha _ Hb H).
Qed.

Lemma string_app_nil_r (a : string) : a +:+ "" = a.
Proof.
  induction a as [|x a IH]; [reflexivity|].
  rewrite string_app_cons, IH. reflexivity.
Qed.

Lemma under_suffix (base p : string) :
  under base p → ∃ s, (s = "" ∨ ∃ r, s = "/" +:+ r) ∧ p = base +:+ s.
Proof.
  intros [->|[r ->]].
  - exists "". split; [left; reflexivity|]. rewrite string_app_nil_r. reflexivity.
  - exists ("/" +:+ r). split; [right; exists r|]; reflexivity.
Qed.

Lemma under_same_name (base a b p : string) :
  noSlash a = true → noSlash b = true →
  under (join base a) p → under (join base b) p → a = b.
Proof.
  intros Ha Hb (s & Hs & ->)%under_suffix (t & Ht & E)%under_suffix.
  unfold join in E. rewrite !string_app_assoc in E.
  apply string_app_inv_head in E. rewrite !string_app_cons, !string_app_nil in E.
  injection E as E. exact (name_of_path a b s t Ha Hb Hs Ht E).
Qed.

Lemma build_rules_ignore_build (content : string) :
  content = buildRule ∨ content = buildRuleWithException →
  ∃ rules, fromContent content = Some rules
           ∧ shouldIgnore rules "build" true = true.
Proof.
  intros [->| ->]; eexists; (split; [vm_compute; reflexivity|]);
    vm_compute; reflexivity.
Qed.

(** C9, as the code has it: with the rule [build/] at the root, alone or
    followed by the exception [!build/keep.txt], the walker emits neither
    the directory [build] of the root nor any path below it.  The
    exception brings nothing back: the walker never lists a directory it
    has excluded. *)
Theorem build_directory_is_excluded (o : ScanOptions.t) (d : Disk)
    (content : string) (es : list Dirent) :
  content = buildRule ∨ content = buildRuleWithException →
  createCombinedParser d (ScanOptions.directory o) = fromContent content →
  disk_readdir d (ScanOptions.directory o) = Some es →
  Forall (fun e => noSlash (entryName e) = true) es →
  (∀ e, e ∈ es → entryName e = "build" → entryIsDirectory e = true) →
  ∃ paths,
    getFilePathsNative o d = Some paths
    ∧ ∀ p, p ∈ paths → ¬ under (join (ScanOptions.directory o) "build") p.
Proof.
  intros Hc Hparser Hread Hnames Hdir.
  destruct (build_rules_ignore_build content Hc) as (rules & Hrules & Hbuild).
  unfold getFilePathsNative. rewrite Hparser, Hrules, Hread.
  eexists. split; [reflexivity|].
  intros p Hp Hunder. unfold scanDirectory in Hp.
  destruct (depthReached o 0); [inversion Hp|].
  apply list_elem_of_In, in_flat_map in Hp. destruct Hp as (e & Hin & Hp).
  apply list_elem_of_In in Hin, Hp.
  pose proof (walkEntry_under _ _ _ _ _ _ _ Hp) as He.
  rewrite Forall_forall in Hnames.
  assert (Hname : entryName e = "build")
    by (eapply under_same_name; eauto).
  specialize (Hdir e Hin Hname).
  destruct e as [nm listing|nm|nm listing|nm]; try discriminate.
  cbn [entryName] in Hname. subst nm.
  cbn [walkEntry entryName entryIsDirectory] in Hp.
  rewrite (relative_join _ _ "" "build" (stripPrefix_self _)) in Hp.
  rewrite string_app_nil, Hbuild in Hp.
  change (startsWith "build" ".") with false in Hp.
  rewrite andb_false_r in Hp. inversion Hp.
Qed.

Lemma build_directory_is_excluded_witness :
  ∃ paths,
    getFilePathsNative projectOptions projectDisk = Some paths
    ∧ ∀ p, p ∈ paths → ¬ under (join "/r" "build") p.
Proof.
  apply (build_directory_is_excluded projectOptions projectDisk
           buildRuleWithException projectListing).
  - right. reflexivity.
  - vm_compute. reflexivity.
  - reflexivity.
  - repeat constructor.
  - intros e Hin Hname.
    repeat (apply elem_of_cons in Hin as [->|Hin]);
      try discriminate Hname; try reflexivity.
    inversion Hin.
Defined.

(** C9, as the specification words it, fails: the project has the rule [build/]
    and the exception [!build/keep.txt] in the ignore file of its root, the
    file [build/keep.txt] is there, and the walker does not emit it. *)
Lemma negated_rule_does_not_reinclude :
  createCombinedParser projectDisk "/r" = fromContent buildRuleWithException
  ∧ access projectDisk "/r/build/keep.txt" = true
  ∧ getFilePathsNative projectOptions projectDisk
    = Some ["/r/src"; "/r/src/main.ts"; "/r/src/data.bin";
            "/r/lib"; "/r/lib/data.bin"]
  ∧ ¬ In "/r/build/keep.txt"
        ["/r/src"; "/r/src/main.ts"; "/r/src/data.bin";
         "/r/lib"; "/r/lib/data.bin"].
Proof.
  split; [vm_compute; reflexivity|]. split; [reflexivity|].
  split; [vm_compute; reflexivity|].
  simpl. intros H. repeat (destruct H as [H|H]; [discriminate H|]). exact H.
Qed.

(** ** The scan *)

Lemma getFileMetadata_path d p m : getFileMetadata d p = Some m → path m = p.
Proof.
  unfold getFileMetadata. destruct (disk_stat d p); [|discriminate].
  intros [= <-]. reflexivity.
Qed.

(** A file the loop adds has metadata, is not a directory and, when it is
    not empty, has been hashed.  A directory it adds is one. *)
Lemma scanPaths_added h d patterns paths fs dirs total fs' dirs' total' :
  scanPaths h d patterns paths (fs, dirs, total) = Some (fs', dirs', total') →
  (∀ f, f ∈ fs' →
     f ∈ fs ∨
     ∃ m, shouldIgnoreFile (path f) patterns = Some false
          ∧ getFileMetadata d (path f) = Some m ∧ isDirectory m = false
          ∧ (0 < fsize m → is_Some (calculateFileHash h d (path f))))
  ∧ (∀ f, f ∈ dirs' →
     f ∈ dirs ∨
     ∃ m, shouldIgnoreFile (path f) patterns = Some false
          ∧ getFileMetadata d (path f) = Some m ∧ isDirectory m = true).
Proof.
  revert fs dirs total.
  induction paths as [|p rest IH]; intros fs dirs total; cbn [scanPaths].
  - intros [= <- <- <-]. split; intros f Hf; left; exact Hf.
  - destruct (shouldIgnoreFile p patterns) as [[|]|] eqn:Hig;
      [apply IH| |discriminate].
    destruct (getFileMetadata d p) as [m|] eqn:Hm; [|apply IH].
    pose proof (getFileMetadata_path _ _ _ Hm) as Hpath.
    destruct (isDirectory m) eqn:Hdir.
    { intros H. destruct (IH _ _ _ H) as [Hfs Hdirs]. split; [exact Hfs|].
      intros f Hf. destruct (Hdirs f Hf) as [Hin|Hnew]; [|right; exact Hnew].
      apply elem_of_app in Hin as [Hin|Hin]; [left; exact Hin|].
      apply list_elem_of_singleton in Hin. rewrite Hin. right.
      exists m. rewrite Hpath. repeat split; assumption. }
    destruct (Z.ltb_spec 0 (fsize m)) as [Hpos|Hzero].
    + destruct (calculateFileHash h d p) as [fh|] eqn:Hfh; [|apply IH].
      intros H. destruct (IH _ _ _ H) as [Hfs Hdirs]. split; [|exact Hdirs].
      intros f Hf. destruct (Hfs f Hf) as [Hin|Hnew]; [|right; exact Hnew].
      apply elem_of_app in Hin as [Hin|Hin]; [left; exact Hin|].
      apply list_elem_of_singleton in Hin. rewrite Hin. right.
      exists m. cbn [withHash path]. rewrite Hpath, Hfh.
      split; [exact Hig|]. split; [exact Hm|]. split; [exact Hdir|].
      intros _. eexists; reflexivity.
    + intros H. destruct (IH _ _ _ H) as [Hfs Hdirs]. split; [|exact Hdirs].
      intros f Hf. destruct (Hfs f Hf) as [Hin|Hnew]; [|right; exact Hnew].
      apply elem_of_app in Hin as [Hin|Hin]; [left; exact Hin|].
      apply list_elem_of_singleton in Hin. rewrite Hin. right.
      exists m. rewrite Hpath.
      split; [exact Hig|]. split; [exact Hm|]. split; [exact Hdir|]. lia.
Qed.

Lemma scan_result h o d n result :
  (scan h o d n).1 = Some result →
  ∃ paths total,
    getFilePathsNative o d = Some paths
    ∧ scanPaths h d (ScanOptions.ignorePatterns o) paths ([], [], 0)
      = Some (ScanResult.files result, ScanResult.directories result, total).
Proof.
  unfold scan, gbind, newDate, gret.
  destruct (getFilePathsNative o d) as [paths|]; [|discriminate].
  destruct (scanPaths h d (ScanOptions.ignorePatterns o) paths ([], [], 0))
    as [[[fs dirs] total]|] eqn:Hs; [|discriminate].
  cbn. intros [= <-]. exists paths, total. split; [reflexivity | exact Hs].
Qed.

Lemma group_members_from_files h mk key (fs : list FileMetadata) n g f :
  (∀ i ms, files (mk i ms) = ms) →
  g ∈ (emitGroups h mk (keyed key fs) n).1 → f ∈ files g → f ∈ fs.
Proof.
  intros Hmk Hg Hf.
  apply emitGroups_sound in Hg as (i & k & ms & Hin & _ & ->).
  rewrite Hmk in Hf. apply keyed_elem in Hin as [-> _].
  unfold membersOf in Hf. apply list_elem_of_filter in Hf as [_ Hf]. exact Hf.
Qed.

Lemma replaceChar_app (c : ascii) (by_ a b : string) :
  replaceChar c by_ (a +:+ b) = replaceChar c by_ a +:+ replaceChar c by_ b.
Proof.
  induction a as [|x a IH]; [reflexivity|].
  rewrite string_app_cons. cbn [replaceChar]. rewrite IH.
  destruct (Ascii.eqb x c); [rewrite string_app_assoc|]; reflexivity.
Qed.

Lemma globSource_cons (c : ascii) (pattern : string) :
  globSource (String c pattern) = globChar c +:+ globSource pattern.
Proof.
  unfold globSource, globChar. cbn [replaceChar].
  destruct (Ascii.eqb_spec c ".") as [->|Hdot].
  { rewrite !replaceChar_app. reflexivity. }
  cbn [replaceChar].
  destruct (Ascii.eqb_spec c "*") as [->|Hstar].
  { rewrite !replaceChar_app. reflexivity. }
  cbn [replaceChar].
  destruct (Ascii.eqb_spec c "?") as [->|Hq]; reflexivity.
Qed.

(** C10: the configured patterns are tried as regular expressions
    against the path with its backslashes turned into slashes: a dot of the
    pattern stands for itself, [*] for [.*] and [?] for [.]; the expression
    is not anchored, so a path is excluded as soon as the expression of
    some pattern matches at some position of the path.  The pattern
    [*.log] excludes exactly the paths in which the text .log occurs
    somewhere, a.login.txt among them.  A path the patterns exclude is in
    neither list of the scan's result. *)
Theorem ignore_pattern_matches_anywhere :
  globSource "" = ""
  ∧ (∀ c pattern,
       globSource (String c pattern) = globChar c +:+ globSource pattern)
  ∧ globSource "*.log" = ".*\.log"
  ∧ (∀ regex s,
       test regex s = true ↔
       ∃ pre suf, s = pre +:+ suf
                  ∧ matchRe regex (startAfter pre true) suf (fun _ _ => true) = true)
  ∧ (∀ filePath patterns,
       shouldIgnoreFile filePath patterns = Some true →
       ∃ pattern regex,
         pattern ∈ patterns ∧ RegExp (globSource pattern) = Some regex
         ∧ test regex (replaceChar "\" "/" filePath) = true)
  ∧ (∀ filePath patterns pattern regex,
       Forall (fun p => is_Some (RegExp (globSource p))) patterns →
       pattern ∈ patterns → RegExp (globSource pattern) = Some regex →
       test regex (replaceChar "\" "/" filePath) = true →
       shouldIgnoreFile filePath patterns = Some true)
  ∧ (∀ filePath,
       shouldIgnoreFile filePath ["*.log"] = Some true
       ↔ occursIn ".log" (replaceChar "\" "/" filePath))
  ∧ shouldIgnoreFile "a.login.txt" ["*.log"] = Some true
  ∧ shouldIgnoreFile "logs/a.txt" ["*.log"] = Some false
  ∧ (∀ h o d n result filePath f,
       (scan h o d n).1 = Some result →
       shouldIgnoreFile filePath (ScanOptions.ignorePatterns o) = Some true →
       f ∈ ScanResult.files result ++ ScanResult.directories result →
       path f ≠ filePath).
Proof.
  split; [reflexivity|]. split; [exact globSource_cons|].
  split; [reflexivity|].
  split; [intros regex s; apply searchFrom_iff|].
  split; [intros filePath patterns; apply somePatternMatches_true|].
  split; [intros filePath patterns pattern regex;
          apply somePatternMatches_any|].
  split; [|split; [reflexivity|split; [reflexivity|]]].
  2: { intros h o d n result filePath f Hscan Hig Hf Hp.
       destruct (scan_result _ _ _ _ _ Hscan) as (paths & total & _ & Hloop).
       destruct (scanPaths_added _ _ _ _ _ _ _ _ _ _ Hloop) as [Hfs Hdirs].
       apply elem_of_app in Hf as [Hf|Hf].
       - destruct (Hfs f Hf) as [Hin|(m & Hno & _)]; [inversion Hin|].
         rewrite Hp in Hno. congruence.
       - destruct (Hdirs f Hf) as [Hin|(m & Hno & _)]; [inversion Hin|].
         rewrite Hp in Hno. congruence. }
  intros filePath. rewrite <- log_pattern_test. unfold shouldIgnoreFile.
  split.
  - intros H. apply somePatternMatches_true in H as (p & r & Hin & Hr & Ht).
    apply list_elem_of_singleton in Hin. subst p. exists r. split; assumption.
  - intros (r & Hr & Ht).
    apply (somePatternMatches_any _ _ "*.log" r); [|left|assumption..].
    constructor; [|constructor]. rewrite Hr. eexists. reflexivity.
Qed.

(** C7, as the code has it: a file whose fingerprint cannot be computed
    during the scan lands in the [catch] of the loop and is passed over; it
    is in neither list of the scan's result and so in no name-based and in
    no content-based group. *)
Theorem unhashable_file_is_skipped (h : Host) (o : ScanOptions.t) (d : Disk)
    (n : nat) (p : string) (stats : Stats) (result : ScanResult.t) :
  disk_stat d p = Some stats →
  st_isDirectory stats = false →
  0 < st_size stats →
  disk_read d p = None →
  (scan h o d n).1 = Some result →
  (∀ f, f ∈ ScanResult.files result → path f ≠ p)
  ∧ (∀ f, f ∈ ScanResult.directories result → path f ≠ p)
  ∧ (∀ m g f,
       g ∈ (findNameBasedDuplicates h (ScanResult.files result) m).1
       ∨ g ∈ (findContentBasedDuplicates h (ScanResult.files result) m).1 →
       f ∈ files g → path f ≠ p).
Proof.
  intros Hstat Hdir Hsize Hread Hscan.
  destruct (scan_result _ _ _ _ _ Hscan) as (paths & total & _ & Hloop).
  destruct (scanPaths_added _ _ _ _ _ _ _ _ _ _ Hloop) as [Hfs Hdirs].
  assert (Hfiles : ∀ f, f ∈ ScanResult.files result → path f ≠ p).
  { intros f Hf Hp. destruct (Hfs f Hf) as [Hin|(m & _ & Hm & _ & Hhash)].
    - inversion Hin.
    - rewrite Hp in Hm, Hhash.
      unfold getFileMetadata in Hm. rewrite Hstat in Hm.
      injection Hm as <-. cbn [fsize] in Hhash.
      destruct (Hhash Hsize) as [fh Hfh].
      unfold calculateFileHash in Hfh. rewrite Hread in Hfh. discriminate. }
  split; [exact Hfiles|]. split.
  - intros f Hf Hp. destruct (Hdirs f Hf) as [Hin|(m & _ & Hm & Hd)].
    + inversion Hin.
    + rewrite Hp in Hm. unfold getFileMetadata in Hm. rewrite Hstat in Hm.
      injection Hm as <-. cbn [isDirectory] in Hd. congruence.
  - intros m g f [Hg|Hg] Hf; apply Hfiles.
    + unfold findNameBasedDuplicates, JsMap.entries in Hg.
      rewrite nameGroups_keyed in Hg.
      eapply group_members_from_files; [|exact Hg|exact Hf]. reflexivity.
    + unfold findContentBasedDuplicates, JsMap.entries in Hg.
      rewrite hashGroups_keyed in Hg.
      eapply group_members_from_files; [|exact Hg|exact Hf]. reflexivity.
Qed.

Lemma unhashable_file_is_skipped_witness :
  ∃ result,
    (scan plainHost projectOptions projectDisk 0%nat).1 = Some result
    ∧ (∀ f, f ∈ ScanResult.files result → path f ≠ "/r/lib/data.bin")
    ∧ (∀ f, f ∈ ScanResult.directories result → path f ≠ "/r/lib/data.bin")
    ∧ (∀ m g f,
         g ∈ (findNameBasedDuplicates plainHost (ScanResult.files result) m).1
         ∨ g ∈ (findContentBasedDuplicates plainHost (ScanResult.files result) m).1 →
         f ∈ files g → path f ≠ "/r/lib/data.bin").
Proof.
  eexists. split; [vm_compute; reflexivity|].
  apply (unhashable_file_is_skipped plainHost projectOptions projectDisk 0%nat
           "/r/lib/data.bin" (projectStats false)).
  - reflexivity.
  - reflexivity.
  - reflexivity.
  - reflexivity.
  - vm_compute. reflexivity.
Defined.

(** C7, as the specification words it, fails: [lib/data.bin] has metadata and
    cannot be read; the scan's file list holds the two readable files only,
    and the name pass, which would have paired it with [src/data.bin],
    finds no group. *)
Lemma failed_hash_drops_file :
  is_Some (getFileMetadata projectDisk "/r/lib/data.bin")
  ∧ calculateFileHash plainHost projectDisk "/r/lib/data.bin" = None
  ∧ ∃ result,
      (scan plainHost projectOptions projectDisk 0%nat).1 = Some result
      ∧ path <$> ScanResult.files result = ["/r/src/main.ts"; "/r/src/data.bin"]
      ∧ (findNameBasedDuplicates plainHost (ScanResult.files result) 0%nat).1 = [].
Proof.
  split; [eexists; reflexivity|]. split; [reflexivity|].
  eexists. split; [vm_compute; reflexivity|].
  split; vm_compute; reflexivity.
Qed.

(** ** The undo log *)

Lemma findIndex_Some (operationId : string) (ops : list UndoOperation.t) i :
  findIndex operationId ops = Some i →
  ∃ op, ops !! i = Some op ∧ UndoOperation.id op = operationId.
Proof.
  unfold findIndex. destruct (list_find _ ops) as [[j op]|] eqn:Hfind;
    [|discriminate].
  cbn. intros [= <-]. apply list_find_Some in Hfind as (Hl & Hid & _).
  exists op. split; assumption.
Qed.

Lemma findIndex_None (operationId : string) (ops : list UndoOperation.t) :
  operationId ∉ UndoOperation.id <$> ops → findIndex operationId ops = None.
Proof.
  intros Hfresh. unfold findIndex.
  destruct (list_find _ ops) as [[j op]|] eqn:Hfind; [|reflexivity].
  apply list_find_Some in Hfind as (Hl & Hid & _).
  exfalso. apply Hfresh. apply list_elem_of_fmap. exists op.
  split; [symmetry; exact Hid | eapply list_elem_of_lookup_2, Hl].
Qed.

Lemma findIndex_middle (operationId : string) (ops later : list UndoOperation.t)
    op :
  operationId ∉ UndoOperation.id <$> ops →
  UndoOperation.id op = operationId →
  findIndex operationId (ops ++ op :: later) = Some (length ops).
Proof.
  intros Hfresh Hid. unfold findIndex.
  assert (Hop : (ops ++ op :: later) !! length ops = Some op).
  { rewrite lookup_app_r, Nat.sub_diag by lia. reflexivity. }
  destruct (list_find _ (ops ++ op :: later)) as [[j op']|] eqn:Hfind.
  - cbn. f_equal.
    apply list_find_Some in Hfind as (Hl & Hid' & Hfirst).
    destruct (decide (j < length ops)%nat) as [Hlt|Hge].
    + rewrite lookup_app_l in Hl by exact Hlt.
      exfalso. apply Hfresh. apply list_elem_of_fmap. exists op'.
      split; [symmetry; exact Hid' | eapply list_elem_of_lookup_2, Hl].
    + destruct (decide (j = length ops)) as [->|Hne]; [reflexivity|].
      exfalso. apply (Hfirst (length ops) op Hop); [lia | exact Hid].
  - apply list_find_None in Hfind. rewrite Forall_forall in Hfind.
    exfalso. apply (Hfind op); [|exact Hid].
    eapply list_elem_of_lookup_2, Hop.
Qed.

Lemma delete_middle {A} (l later : list A) (x : A) :
  delete (length l) (l ++ x :: later) = l ++ later.
Proof.
  induction l as [|y l IH]; [reflexivity|]. simpl. f_equal. exact IH.
Qed.

Lemma truthy_Some (p : string) : p ≠ "" → truthy (Some p) = true.
Proof.
  intros Hp. simpl. destruct (String.eqb_spec p ""); [contradiction|reflexivity].
Qed.

(** C8: when the file an entry needs for its reversal is missing, the
    backup for a delete, the destination for a move or a rename, the
    reversal answers [false] and changes nothing: the files, the undo log
    in memory and on disk and the entry itself stay as they were.  The
    only trace is the error line handed to the logger. *)
Theorem missing_file_fails_without_change (u : UndoSystem) (w : World)
    (operation : UndoOperation.t) (index : nat) (p : string) :
  findIndex (UndoOperation.id operation) (operations u) = Some index →
  operations u !! index = Some operation →
  p ≠ "" →
  store w !! p = None →
  (UndoOperation.action operation = DELETE
   ∧ UndoOperation.backupPath operation = Some p)
  ∨ ((UndoOperation.action operation = MOVE
      ∨ UndoOperation.action operation = RENAME)
     ∧ UndoOperation.newPath operation = Some p) →
  ∃ w',
    undoOperation u (UndoOperation.id operation) w = (Resolved (false, u), w')
    ∧ store w' = store w
    ∧ history w' = history w
    ∧ ticks w' = ticks w
    ∧ logged w' = logged w ++ [(ERROR, "Failed to undo operation")].
Proof.
  intros Hfind Hlook Hp Hmissing Hcase.
  unfold undoOperation. rewrite Hfind, Hlook.
  assert (Hrev : reverse operation w = (Rejected, w)).
  { unfold reverse.
    destruct Hcase as [[-> ->]|[[-> | ->] ->]];
      rewrite (truthy_Some p Hp);
      unfold iobind, copyFile, rename; rewrite Hmissing; reflexivity. }
  unfold tryCatch, iobind at 1. rewrite Hrev.
  eexists. split; [reflexivity|]. cbn. repeat split; reflexivity.
Qed.

Lemma missing_file_fails_without_change_witness :
  ∃ w',
    undoOperation orphanUndo (UndoOperation.id orphanEntry) exampleWorld
    = (Resolved (false, orphanUndo), w')
    ∧ store w' = store exampleWorld
    ∧ history w' = history exampleWorld
    ∧ ticks w' = ticks exampleWorld
    ∧ logged w' = logged exampleWorld ++ [(ERROR, "Failed to undo operation")].
Proof.
  apply (missing_file_fails_without_change orphanUndo exampleWorld orphanEntry
           0%nat "/home/.duplicates-finder/backups/T7_b.txt").
  - reflexivity.
  - reflexivity.
  - discriminate.
  - reflexivity.
  - left. split; reflexivity.
Defined.

Lemma saveHistory_outcome (u : UndoSystem) (ops : list UndoOperation.t)
    (w : World) :
  ∃ w',
    saveHistory (undoHistoryPath u) ops w = (Resolved tt, w')
    ∧ store w' = store w
    ∧ ticks w' = ticks w
    ∧ unwritable w' = unwritable w
    ∧ (saveFails u w = false → history w' = Some ops ∧ logged w' = logged w)
    ∧ (saveFails u w = true →
       history w' = history w
       ∧ logged w' = logged w ++ [(ERROR, "Failed to save undo history")]).
Proof.
  unfold saveHistory, saveFails, tryCatch, iobind, mkdir, writeHistory, logLine.
  destruct (unwritable w (dirname (undoHistoryPath u))); cbn.
  - eexists. split; [reflexivity|]. cbn.
    repeat split; try reflexivity; discriminate.
  - destruct (unwritable w (undoHistoryPath u)); cbn;
      (eexists; split; [reflexivity|]); cbn;
      repeat split; try reflexivity; discriminate.
Qed.

Lemma recordOperation_delete (h : Host) (u : UndoSystem) (w : World)
    (originalPath bytes : string) (backup newPath : option string) :
  store w !! originalPath = Some bytes →
  unwritable w (nextBackupPath h u w originalPath) = false →
  ∃ t w1,
    recordOperation h u DELETE originalPath backup newPath w
    = (Resolved
         (nextOperationId h w,
          withOperations u
            (operations u ++
             [UndoOperation.mk (nextOperationId h w) t DELETE originalPath
                (Some (nextBackupPath h u w originalPath)) newPath])),
       w1)
    ∧ store w1 = <[nextBackupPath h u w originalPath := bytes]> (store w)
    ∧ (saveFails u w = false →
       history w1
       = Some (operations u ++
               [UndoOperation.mk (nextOperationId h w) t DELETE originalPath
                  (Some (nextBackupPath h u w originalPath)) newPath]))
    ∧ (saveFails u w = true → history w1 = history w)
    ∧ ticks w1 = S (S (S (S (ticks w))))
    ∧ unwritable w1 = unwritable w.
Proof.
  intros Hstore Hfree.
  unfold recordOperation, generateOperationId, createBackup.
  unfold iobind at 1 2 3 4 5 6 7. unfold now, randomSuffix, ioret. cbn.
  unfold iobind at 1, copyFile. cbn [store unwritable].
  unfold nextBackupPath in Hfree. rewrite Hstore, Hfree.
  unfold iobind at 1, logLine, withStore. cbn.
  unfold iobind at 1.
  match goal with
  | |- context [saveHistory _ ?ops ?w0] =>
      destruct (saveHistory_outcome u ops w0)
        as (w1 & Hsave & Hs & Hk & Hu & Hok & Hfail)
  end.
  rewrite Hsave. cbn. eexists _, _. split; [reflexivity|]. cbn.
  split; [exact Hs|].
  split; [intros Hf; exact (proj1 (Hok Hf))|].
  split; [intros Hf; exact (proj1 (Hfail Hf))|].
  split; [exact Hk|exact Hu].
Qed.

Lemma undo_unknown_id (u : UndoSystem) (w : World) (operationId : string) :
  operationId ∉ UndoOperation.id <$> operations u →
  undoOperation u operationId w
  = (Resolved (false, u),
     {| store := store w; history := history w;
        logged := logged w ++ [(WARN, "Undo operation not found")];
        ticks := ticks w; unwritable := unwritable w |}).
Proof.
  intros Hfresh. unfold undoOperation. rewrite (findIndex_None _ _ Hfresh).
  reflexivity.
Qed.

Lemma undo_delete_entry (u : UndoSystem) (w : World) (op : UndoOperation.t)
    (index : nat) (backup bytes : string) :
  findIndex (UndoOperation.id op) (operations u) = Some index →
  operations u !! index = Some op →
  UndoOperation.action op = DELETE →
  UndoOperation.backupPath op = Some backup →
  backup ≠ "" →
  store w !! backup = Some bytes →
  unwritable w (UndoOperation.originalPath op) = false →
  ∃ w',
    undoOperation u (UndoOperation.id op) w
    = (Resolved (true, withOperations u (delete index (operations u))), w')
    ∧ store w' = <[UndoOperation.originalPath op := bytes]> (store w)
    ∧ (saveFails u w = false →
       history w' = Some (delete index (operations u))
       ∧ logged w' = logged w ++ [(INFO, "File restored from backup")])
    ∧ (saveFails u w = true →
       history w' = history w
       ∧ logged w'
         = logged w ++ [(INFO, "File restored from backup");
                        (ERROR, "Failed to save undo history")]).
Proof.
  intros Hfind Hlook Hact Hbackup Hne Hstore Hfree.
  unfold undoOperation. rewrite Hfind, Hlook.
  unfold tryCatch, reverse. rewrite Hact, Hbackup, (truthy_Some _ Hne).
  unfold iobind at 1 2 3, copyFile. rewrite Hstore, Hfree.
  unfold iobind, logLine, ioret, withStore. cbn.
  match goal with
  | |- context [saveHistory _ ?ops ?w0] =>
      destruct (saveHistory_outcome u ops w0)
        as (w1 & Hsave & Hs & _ & _ & Hok & Hfail)
  end.
  rewrite Hsave. exists w1. split; [reflexivity|]. split; [exact Hs|].
  split; [exact Hok|].
  intros Hf. destruct (Hfail Hf) as [Hh Hl]. split; [exact Hh|].
  rewrite Hl. cbn. rewrite <- app_assoc. reflexivity.
Qed.

Lemma undo_refused_copy (u : UndoSystem) (w : World) (op : UndoOperation.t)
    (index : nat) (backup : string) :
  findIndex (UndoOperation.id op) (operations u) = Some index →
  operations u !! index = Some op →
  UndoOperation.action op = DELETE →
  UndoOperation.backupPath op = Some backup →
  backup ≠ "" →
  unwritable w (UndoOperation.originalPath op) = true →
  undoOperation u (UndoOperation.id op) w
  = (Resolved (false, u),
     {| store := store w; history := history w;
        logged := logged w ++ [(ERROR, "Failed to undo operation")];
        ticks := ticks w; unwritable := unwritable w |}).
Proof.
  intros Hfind Hlook Hact Hbackup Hne Hrefused.
  unfold undoOperation. rewrite Hfind, Hlook.
  unfold tryCatch, reverse. rewrite Hact, Hbackup, (truthy_Some _ Hne).
  unfold iobind at 1 2 3, copyFile. rewrite Hrefused.
  destruct (store w !! backup); reflexivity.
Qed.

Lemma join_not_empty (dir entry : string) : join dir entry ≠ "".
Proof.
  unfold join. destruct dir; [discriminate|].
  rewrite string_app_cons. discriminate.
Qed.

(** C1, as the code has it: recording a delete copies the file to a
    backup with the same bytes, when the backup can be written, and appends
    an entry.  Whatever is recorded after it, as long as that backup still
    holds those bytes, undoing the entry by its id goes one of two ways.
    When the original path cannot be written the undo answers [false] and
    changes nothing.  When it can, the undo puts the bytes back at the
    original path, removes the entry from the log in memory, leaves the
    backup file where it is, and writes the new log to the history file,
    or, when that file cannot be written, leaves it as it was and reports
    the failure to the logger; undoing the same id again answers [false]
    with the line "Undo operation not found" and changes neither the files
    nor the log. *)
Theorem undo_delete_restores_original (h : Host) (u : UndoSystem) (w : World)
    (originalPath bytes : string) :
  store w !! originalPath = Some bytes →
  unwritable w (nextBackupPath h u w originalPath) = false →
  nextOperationId h w ∉ UndoOperation.id <$> operations u →
  ∃ operationId backupPath op w1,
    recordOperation h u DELETE originalPath None None w
    = (Resolved (operationId, withOperations u (operations u ++ [op])), w1)
    ∧ UndoOperation.id op = operationId
    ∧ UndoOperation.backupPath op = Some backupPath
    ∧ store w1 !! backupPath = Some bytes
    ∧ ∀ later w2,
        operationId ∉ UndoOperation.id <$> later →
        store w2 !! backupPath = Some bytes →
        (unwritable w2 originalPath = true →
         ∃ w3,
           undoOperation (withOperations u (operations u ++ op :: later))
             operationId w2
           = (Resolved
                (false, withOperations u (operations u ++ op :: later)), w3)
           ∧ store w3 = store w2
           ∧ history w3 = history w2
           ∧ logged w3 = logged w2 ++ [(ERROR, "Failed to undo operation")])
        ∧ (unwritable w2 originalPath = false →
           ∃ w3,
             undoOperation (withOperations u (operations u ++ op :: later))
               operationId w2
             = (Resolved (true, withOperations u (operations u ++ later)), w3)
             ∧ store w3 !! originalPath = Some bytes
             ∧ store w3 !! backupPath = Some bytes
             ∧ (saveFails u w2 = false →
                history w3 = Some (operations u ++ later))
             ∧ (saveFails u w2 = true →
                history w3 = history w2
                ∧ logged w3
                  = logged w2 ++ [(INFO, "File restored from backup");
                                  (ERROR, "Failed to save undo history")])
             ∧ ∃ w4,
                 undoOperation (withOperations u (operations u ++ later))
                   operationId w3
                 = (Resolved
                      (false, withOperations u (operations u ++ later)), w4)
                 ∧ store w4 = store w3
                 ∧ history w4 = history w3
                 ∧ logged w4
                   = logged w3 ++ [(WARN, "Undo operation not found")]).
Proof.
  intros Hstore Hfree Hfresh.
  destruct (recordOperation_delete h u w originalPath bytes None None
              Hstore Hfree) as (t & w1 & Hrec & Hw1 & _).
  set (op := UndoOperation.mk (nextOperationId h w) t DELETE originalPath
               (Some (nextBackupPath h u w originalPath)) None) in *.
  exists (nextOperationId h w), (nextBackupPath h u w originalPath), op, w1.
  split; [exact Hrec|]. split; [reflexivity|]. split; [reflexivity|].
  split; [rewrite Hw1; apply lookup_insert_eq|].
  intros later w2 Hlater Hbackup.
  assert (Hfind : findIndex (UndoOperation.id op)
                    (operations u ++ op :: later)
                  = Some (length (operations u))).
  { apply findIndex_middle; [exact Hfresh | reflexivity]. }
  assert (Hlook : (operations u ++ op :: later) !! length (operations u)
                  = Some op).
  { rewrite lookup_app_r, Nat.sub_diag by lia. reflexivity. }
  split.
  { intros Hrefused. eexists. split.
    - apply (undo_refused_copy
               (withOperations u (operations u ++ op :: later)) w2 op
               (length (operations u)) (nextBackupPath h u w originalPath));
        [exact Hfind|exact Hlook|reflexivity|reflexivity
        |apply join_not_empty|exact Hrefused].
    - cbn. repeat split; reflexivity. }
  intros Hwritable.
  destruct (undo_delete_entry
              (withOperations u (operations u ++ op :: later)) w2 op
              (length (operations u)) (nextBackupPath h u w originalPath) bytes)
    as (w3 & Hundo & Hs3 & Hok & Hfail);
    [exact Hfind|exact Hlook|reflexivity|reflexivity
    |apply join_not_empty|exact Hbackup|exact Hwritable|].
  cbn [operations withOperations UndoOperation.id UndoOperation.originalPath op]
    in Hundo, Hs3, Hok, Hfail.
  rewrite delete_middle in Hundo, Hok.
  exists w3. split; [exact Hundo|].
  split; [rewrite Hs3; apply lookup_insert_eq|]. split.
  { rewrite Hs3.
    destruct (decide (originalPath = nextBackupPath h u w originalPath)) as [E|E].
    - rewrite <- E. apply lookup_insert_eq.
    - rewrite lookup_insert_ne by exact E. exact Hbackup. }
  split; [intros Hf; exact (proj1 (Hok Hf))|].
  split; [exact Hfail|].
  eexists. split.
  { apply undo_unknown_id. cbn [operations withOperations].
    rewrite fmap_app, not_elem_of_app. split; assumption. }
  cbn. repeat split; reflexivity.
Qed.

Lemma undo_delete_restores_original_witness :
  ∃ operationId backupPath op w1,
    recordOperation plainHost exampleUndo DELETE "/r/a.txt" None None exampleWorld
    = (Resolved (operationId,
                 withOperations exampleUndo (operations exampleUndo ++ [op])), w1)
    ∧ UndoOperation.id op = operationId
    ∧ UndoOperation.backupPath op = Some backupPath
    ∧ store w1 !! backupPath = Some "hello"
    ∧ ∀ later w2,
        operationId ∉ UndoOperation.id <$> later →
        store w2 !! backupPath = Some "hello" →
        (unwritable w2 "/r/a.txt" = true →
         ∃ w3,
           undoOperation
             (withOperations exampleUndo
                (operations exampleUndo ++ op :: later))
             operationId w2
           = (Resolved
                (false,
                 withOperations exampleUndo
                   (operations exampleUndo ++ op :: later)), w3)
           ∧ store w3 = store w2
           ∧ history w3 = history w2
           ∧ logged w3 = logged w2 ++ [(ERROR, "Failed to undo operation")])
        ∧ (unwritable w2 "/r/a.txt" = false →
           ∃ w3,
             undoOperation
               (withOperations exampleUndo
                  (operations exampleUndo ++ op :: later))
               operationId w2
             = (Resolved
                  (true,
                   withOperations exampleUndo (operations exampleUndo ++ later)),
                w3)
             ∧ store w3 !! "/r/a.txt" = Some "hello"
             ∧ store w3 !! backupPath = Some "hello"
             ∧ (saveFails exampleUndo w2 = false →
                history w3 = Some (operations exampleUndo ++ later))
             ∧ (saveFails exampleUndo w2 = true →
                history w3 = history w2
                ∧ logged w3
                  = logged w2 ++ [(INFO, "File restored from backup");
                                  (ERROR, "Failed to save undo history")])
             ∧ ∃ w4,
                 undoOperation
                   (withOperations exampleUndo (operations exampleUndo ++ later))
                   operationId w3
                 = (Resolved
                      (false,
                       withOperations exampleUndo
                         (operations exampleUndo ++ later)),
                    w4)
                 ∧ store w4 = store w3
                 ∧ history w4 = history w3
                 ∧ logged w4
                   = logged w3 ++ [(WARN, "Undo operation not found")]).
Proof.
  apply (undo_delete_restores_original plainHost exampleUndo exampleWorld
           "/r/a.txt" "hello").
  - reflexivity.
  - reflexivity.
  - apply not_elem_of_nil.
Defined.

(** C1, as the specification words it, fails: a delete of [/r/a.txt] is recorded,
    the original is removed, and the entry is undone.  The original is back
    with its bytes, and the backup file, which the specification has removed, is
    still there. *)
Lemma undo_leaves_backup_in_place :
  ∃ operationId u1 w1 w2 w3,
    recordOperation plainHost exampleUndo DELETE "/r/a.txt" None None exampleWorld
    = (Resolved (operationId, u1), w1)
    ∧ unlink "/r/a.txt" w1 = (Resolved tt, w2)
    ∧ store w2 !! "/r/a.txt" = None
    ∧ undoOperation u1 operationId w2 = (Resolved (true, exampleUndo), w3)
    ∧ store w3 !! "/r/a.txt" = Some "hello"
    ∧ UndoOperation.backupPath <$> operations u1
      = [Some "/home/.duplicates-finder/backups/T3-00-000Z_a.txt"]
    ∧ store w3 !! "/home/.duplicates-finder/backups/T3-00-000Z_a.txt"
      = Some "hello".
Proof.
  eexists _, _, _, _, _.
  split; [vm_compute; reflexivity|].
  split; [vm_compute; reflexivity|].
  split; [vm_compute; reflexivity|].
  split; [vm_compute; reflexivity|].
  split; [vm_compute; reflexivity|].
  split; vm_compute; reflexivity.
Qed.

(** ** Further observations *)

(** An entry that names no file to restore from (a move recorded without
    its destination, say) is dropped from the log by its reversal, which
    answers [true] without touching a file. *)
Lemma undo_without_path_drops_entry (u : UndoSystem) (w : World)
    (operation : UndoOperation.t) (index : nat) :
  findIndex (UndoOperation.id operation) (operations u) = Some index →
  operations u !! index = Some operation →
  UndoOperation.action operation ≠ KEEP →
  UndoOperation.backupPath operation = None →
  UndoOperation.newPath operation = None →
  ∃ w',
    undoOperation u (UndoOperation.id operation) w
    = (Resolved (true, withOperations u (delete index (operations u))), w')
    ∧ store w' = store w.
Proof.
  intros Hfind Hlook Hact Hb Hn.
  unfold undoOperation. rewrite Hfind, Hlook.
  unfold tryCatch, reverse. rewrite Hb, Hn.
  destruct (saveHistory_outcome u (delete index (operations u)) w)
    as (w1 & Hsave & Hs & _).
  destruct (UndoOperation.action operation); try contradiction;
    unfold iobind, ioret; rewrite Hsave; exists w1; split; auto.
Qed.

(** [dirname] on the history path and on the corner cases of
    [path.dirname]. *)
Example dirname_examples :
  dirname "/home/.duplicates-finder/undo-history.json"
  = "/home/.duplicates-finder"
  ∧ dirname "/a" = "/"
  ∧ dirname "a" = "."
  ∧ dirname "/a/b/" = "/a"
  ∧ dirname "a//b" = "a/"
  ∧ dirname "//a" = "//"
  ∧ dirname "" = ".".
Proof. repeat split. Qed.

(** On its own, [shouldIgnore] does not ignore a file below [build]: the
    rule [build/] is passed over for anything that is not a directory.
    Such a file is kept out of the walk only because [build] itself is. *)
Example shouldIgnore_file_below_build :
  ∃ rules,
    fromContent buildRule = Some rules
    ∧ shouldIgnore rules "build" true = true
    ∧ shouldIgnore rules "build/other.txt" false = false
    ∧ shouldIgnore rules "build/deep" true = true.
Proof. eexists. split; [vm_compute; reflexivity|]. repeat split. Qed.

(** In a gitignore pattern [**] ends up as [.[^/]*], the [*] of the [.*]
    it was first turned into being rewritten by the next replacement. *)
Example double_star_source :
  patternSource "a/**/b" = "(^|/)a/.[^/]*/b(/.*)?$".
Proof. reflexivity. Qed.

(** The detection on the two copies of one tree under [/d] and [/e]: the
    two files named [a] form a name group and a content group, and the two
    directories a folder group. *)
Example detection_on_two_copies :
  let a1 := {| path := "/d/a"; name := "a"; fsize := 1; modified := 0;
               created := 0; isDirectory := false; hash := Some "41";
               extension := None |} in
  let a2 := {| path := "/e/a"; name := "a"; fsize := 1; modified := 0;
               created := 0; isDirectory := false; hash := Some "41";
               extension := None |} in
  let d1 := {| path := "/d"; name := "d"; fsize := 4096; modified := 0;
               created := 0; isDirectory := true; hash := None;
               extension := None |} in
  let d2 := {| path := "/e"; name := "e"; fsize := 4096; modified := 0;
               created := 0; isDirectory := true; hash := None;
               extension := None |} in
  type <$> (detectDuplicates plainHost exampleDisk [a1; a2] [d1; d2] 0%nat).1
  = [NAME_BASED; CONTENT_BASED; FOLDER_BASED].
Proof. vm_compute. reflexivity. Qed.

(** * The rest of the sources *)

(** ** The statistics *)

Lemma DuplicateType_eqb_eq (a b : DuplicateType) :
  DuplicateType_eqb a b = true ↔ a = b.
Proof. destruct a, b; simpl; split; congruence. Qed.

Lemma calculateStats_from (groups : list DuplicateGroup) (s0 : DuplicateStats.t) :
  let s :=
    fold_left
      (fun stats group =>
         DuplicateStats.mk
           (DuplicateStats.totalGroups stats)
           (DuplicateStats.totalFiles stats + length (files group))%nat
           (DuplicateStats.totalSize stats + totalSize group)
           (DuplicateStats.potentialSavings stats + potentialSavings group)
           (bump (DuplicateStats.groupsByType stats) (type group)))
      groups s0 in
  DuplicateStats.totalGroups s = DuplicateStats.totalGroups s0
  ∧ DuplicateStats.totalFiles s
    = (DuplicateStats.totalFiles s0
       + sum_list_with (fun g => length (files g)) groups)%nat
  ∧ DuplicateStats.totalSize s
    = DuplicateStats.totalSize s0 + sumOf totalSize groups
  ∧ DuplicateStats.potentialSavings s
    = DuplicateStats.potentialSavings s0 + sumOf potentialSavings groups
  ∧ ∀ t, DuplicateStats.groupsByType s t
         = (DuplicateStats.groupsByType s0 t
            + length (List.filter (fun g => DuplicateType_eqb (type g) t) groups))%nat.
Proof.
  revert s0. induction groups as [|g rest IH]; intros s0; simpl.
  - repeat split; lia.
  - destruct (IH (DuplicateStats.mk
                    (DuplicateStats.totalGroups s0)
                    (DuplicateStats.totalFiles s0 + length (files g))%nat
                    (DuplicateStats.totalSize s0 + totalSize g)
                    (DuplicateStats.potentialSavings s0 + potentialSavings g)
                    (bump (DuplicateStats.groupsByType s0) (type g))))
      as (H1 & H2 & H3 & H4 & H5).
    simpl in *. rewrite H1, H2, H3, H4.
    repeat split; try lia.
    intros t. rewrite H5. unfold bump.
    destruct (type g), t; simpl; lia.
Qed.

Lemma savings_from (groups : list DuplicateGroup) (a : Z) :
  fold_left (fun sum group => sum + potentialSavings group) groups a
  = a + sumOf potentialSavings groups.
Proof.
  revert a. induction groups as [|g rest IH]; intros a; simpl; [lia|].
  rewrite IH. lia.
Qed.

Lemma sumOf_by_type (f : DuplicateGroup → Z) (groups : list DuplicateGroup) :
  sumOf f (List.filter (fun g => DuplicateType_eqb (type g) NAME_BASED) groups)
  + sumOf f (List.filter (fun g => DuplicateType_eqb (type g) CONTENT_BASED) groups)
  + sumOf f (List.filter (fun g => DuplicateType_eqb (type g) FOLDER_BASED) groups)
  = sumOf f groups.
Proof.
  induction groups as [|g rest IH]; simpl; [reflexivity|].
  destruct (type g); simpl; lia.
Qed.

Lemma count_by_type (groups : list DuplicateGroup) :
  (length (List.filter (fun g => DuplicateType_eqb (type g) NAME_BASED) groups)
   + length (List.filter (fun g => DuplicateType_eqb (type g) CONTENT_BASED) groups)
   + length (List.filter (fun g => DuplicateType_eqb (type g) FOLDER_BASED) groups)
   = length groups)%nat.
Proof.
  induction groups as [|g rest IH]; simpl; [reflexivity|].
  destruct (type g); simpl; lia.
Qed.

Lemma calculateStats_sums (groups : list DuplicateGroup) :
  DuplicateStats.totalGroups (calculateStats groups) = length groups
  ∧ DuplicateStats.totalFiles (calculateStats groups)
    = sum_list_with (fun g => length (files g)) groups
  ∧ DuplicateStats.totalSize (calculateStats groups) = sumOf totalSize groups
  ∧ DuplicateStats.potentialSavings (calculateStats groups)
    = sumOf potentialSavings groups
  ∧ (∀ t, DuplicateStats.groupsByType (calculateStats groups) t
          = length (List.filter (fun g => DuplicateType_eqb (type g) t) groups)).
Proof.
  unfold calculateStats.
  destruct (calculateStats_from groups
              (DuplicateStats.mk (length groups) 0 0 0 (fun _ => 0%nat)))
    as (H1 & H2 & H3 & H4 & H5).
  simpl in *. rewrite H1, H2, H3, H4.
  repeat split; try lia. intros t. rewrite H5. lia.
Qed.

(** X1: the statistics count every group once and add up what the groups
    carry: the number of groups, the number of members, the sizes and the
    savings; the three counts by type add up to the number of groups, and
    the savings the report gives by type add up to the total savings. *)
Theorem statistics_add_up (groups : list DuplicateGroup) :
  DuplicateStats.totalGroups (calculateStats groups) = length groups
  ∧ DuplicateStats.totalFiles (calculateStats groups)
    = sum_list_with (fun g => length (files g)) groups
  ∧ DuplicateStats.totalSize (calculateStats groups) = sumOf totalSize groups
  ∧ DuplicateStats.potentialSavings (calculateStats groups)
    = sumOf potentialSavings groups
  ∧ (DuplicateStats.groupsByType (calculateStats groups) NAME_BASED
     + DuplicateStats.groupsByType (calculateStats groups) CONTENT_BASED
     + DuplicateStats.groupsByType (calculateStats groups) FOLDER_BASED
     = DuplicateStats.totalGroups (calculateStats groups))%nat
  ∧ calculateSavingsByType groups NAME_BASED
    + calculateSavingsByType groups CONTENT_BASED
    + calculateSavingsByType groups FOLDER_BASED
    = DuplicateStats.potentialSavings (calculateStats groups).
Proof.
  destruct (calculateStats_sums groups) as (H1 & H2 & H3 & H4 & H5).
  rewrite H1, H2, H3, H4, !H5.
  repeat split; try lia.
  - apply count_by_type.
  - unfold calculateSavingsByType. rewrite !savings_from.
    pose proof (sumOf_by_type potentialSavings groups). lia.
Qed.

(** ** The size of a folder *)

Lemma sizeEntry_add d p e total :
  sizeEntry d p e total = total + sizeEntry d p e 0.
Proof.
  destruct e as [nm listing|nm|nm listing|nm]; simpl; try lia.
  destruct (disk_stat d (join p nm)); lia.
Qed.

Lemma sizeEntry_dir d p nm listing total :
  sizeEntry d p (EntDir nm listing) total =
  total + match listing with
          | Some es =>
              fold_left (fun t e => sizeEntry d (join p nm) e t) es 0
          | None => 0
          end.
Proof. destruct listing; reflexivity. Qed.

Lemma sizes_fold d p (es : list Dirent) (a : Z) :
  fold_left (fun t e => sizeEntry d p e t) es a
  = a + sumOf (fun e => sizeEntry d p e 0) es.
Proof.
  revert a. induction es as [|e r IH]; intros a; simpl; [lia|].
  rewrite IH, (sizeEntry_add d p e a). lia.
Qed.

Lemma sumOf_perm {A} (f : A → Z) (l1 l2 : list A) :
  l1 ≡ₚ l2 → sumOf f l1 = sumOf f l2.
Proof. induction 1; simpl; lia. Qed.

Lemma sumOf_nonneg {A} (f : A → Z) (l : list A) :
  Forall (fun a => 0 <= f a) l → 0 <= sumOf f l.
Proof. induction 1; simpl; lia. Qed.

Lemma sumOf_elem {A} (f : A → Z) (l : list A) (a : A) :
  Forall (fun a => 0 <= f a) l → a ∈ l → f a <= sumOf f l.
Proof.
  induction 1 as [|b r Hb Hr IH]; intros Hin; [inversion Hin|].
  pose proof (sumOf_nonneg f r Hr).
  apply elem_of_cons in Hin as [->|Hin]; simpl; [lia|].
  specialize (IH Hin). lia.
Qed.

Lemma sizeEntry_nonneg d :
  (∀ p st, disk_stat d p = Some st → 0 <= st_size st) →
  ∀ e p, 0 <= sizeEntry d p e 0.
Proof.
  intros Hstat e. induction e as [nm listing IH|nm|nm listing IH|nm]
    using Dirent_nested_ind; intros p.
  - rewrite sizeEntry_dir. destruct listing as [es|]; [|lia].
    rewrite sizes_fold. specialize (IH es eq_refl).
    assert (0 <= sumOf (fun e => sizeEntry d (join p nm) e 0) es); [|lia].
    apply sumOf_nonneg. eapply Forall_impl; [exact IH|].
    intros e He. apply He.
  - simpl. destruct (disk_stat d (join p nm)) as [st|] eqn:Hs; [|lia].
    specialize (Hstat _ _ Hs). lia.
  - simpl. lia.
  - simpl. lia.
Qed.

Lemma getFolderSize_nonneg d folderPath :
  (∀ p st, disk_stat d p = Some st → 0 <= st_size st) →
  0 <= getFolderSize d folderPath.
Proof.
  intros Hstat. unfold getFolderSize.
  destruct (disk_readdir d folderPath) as [es|]; [|lia].
  rewrite sizes_fold.
  assert (0 <= sumOf (fun e => sizeEntry d folderPath e 0) es); [|lia].
  apply sumOf_nonneg, Forall_forall. intros e _.
  apply sizeEntry_nonneg, Hstat.
Qed.

Lemma sumOf_app {A} (f : A → Z) (l1 l2 : list A) :
  sumOf f (l1 ++ l2) = sumOf f l1 + sumOf f l2.
Proof. induction l1 as [|a r IH]; simpl; [reflexivity|]. rewrite IH. lia. Qed.

Lemma sumOf_fmap {A B} (f : B → Z) (g : A → B) (l : list A) :
  sumOf f (g <$> l) = sumOf (fun a => f (g a)) l.
Proof.
  induction l as [|a r IH]; [reflexivity|].
  rewrite fmap_cons. simpl. rewrite IH. reflexivity.
Qed.

Lemma sumOf_flat_map {A B} (f : B → Z) (g : A → list B) (l : list A) :
  sumOf f (flat_map g l) = sumOf (fun a => sumOf f (g a)) l.
Proof.
  induction l as [|a r IH]; [reflexivity|].
  simpl. rewrite sumOf_app, IH. reflexivity.
Qed.

Lemma sumOf_agree {A} (f g : A → Z) (l : list A) :
  (∀ a, a ∈ l → f a = g a) → sumOf f l = sumOf g l.
Proof.
  induction l as [|a r IH]; intros H; [reflexivity|]. simpl.
  rewrite (H a) by left. rewrite IH; [reflexivity|].
  intros a' Ha'. apply H. right. exact Ha'.
Qed.

Lemma sizeEntry_files d (e : Dirent) :
  ∀ p, sizeEntry d p e 0
       = sumOf (fun r => sizeAt d (p +:+ "/" +:+ r)) (regularFiles e).
Proof.
  induction e as [nm listing IH|nm|nm listing IH|nm] using Dirent_nested_ind;
    intros p; try reflexivity.
  - rewrite sizeEntry_dir. destruct listing as [es|]; [|reflexivity].
    rewrite sizes_fold. cbn [regularFiles].
    rewrite sumOf_fmap, sumOf_flat_map. rewrite Z.add_0_l.
    apply sumOf_agree. intros e He.
    specialize (IH es eq_refl). rewrite Forall_forall in IH.
    rewrite (IH e He). apply sumOf_agree. intros r _.
    unfold join. rewrite !string_app_assoc. reflexivity.
  - cbn [sizeEntry regularFiles entryName]. unfold sizeAt, join. simpl.
    destruct (disk_stat d (p +:+ "/" +:+ nm)); lia.
Qed.

Lemma getFolderSize_files d folderPath (es : list Dirent) :
  disk_readdir d folderPath = Some es →
  getFolderSize d folderPath
  = sumOf (fun r => sizeAt d (folderPath +:+ "/" +:+ r))
      (flat_map regularFiles es).
Proof.
  intros Hes. unfold getFolderSize. rewrite Hes, sizes_fold, sumOf_flat_map.
  rewrite Z.add_0_l. apply sumOf_agree. intros e _. apply sizeEntry_files.
Qed.

Lemma regularFiles_same :
  (∀ e1 e2, SameEntry e1 e2 → regularFiles e1 ≡ₚ regularFiles e2)
  ∧ (∀ es1 es2, SameAll es1 es2 →
       flat_map regularFiles es1 ≡ₚ flat_map regularFiles es2).
Proof.
  apply Same_mutind.
  - reflexivity.
  - reflexivity.
  - intros nm es1 es es2 Hperm Hall IH. cbn [regularFiles].
    apply fmap_Permutation.
    rewrite (Permutation_flat_map regularFiles Hperm). exact IH.
  - reflexivity.
  - reflexivity.
  - reflexivity.
  - intros e1 e2 es1 es2 He IHe Hes IHes. simpl.
    apply Permutation_app; assumption.
Qed.

(** X2: the size of a folder is the sum of the sizes [stat] gives for
    the regular files at and below its entries, 0 for a file it fails on;
    directories themselves, links and special entries add nothing.  So two
    copies of a tree, whatever the order in which their directories are
    enumerated, have the same folder size when their regular files at the
    same place have the same size. *)
Theorem folder_size_of_two_copies (d1 d2 : Disk) (D1 D2 : string)
    (es1 es2 : list Dirent) :
  disk_readdir d1 D1 = Some es1 →
  disk_readdir d2 D2 = Some es2 →
  SameListing es1 es2 →
  (∀ r, r ∈ flat_map regularFiles es1 →
     st_size <$> disk_stat d1 (D1 +:+ "/" +:+ r)
     = st_size <$> disk_stat d2 (D2 +:+ "/" +:+ r)) →
  getFolderSize d1 D1
  = sumOf (fun r => sizeAt d1 (D1 +:+ "/" +:+ r)) (flat_map regularFiles es1)
  ∧ getFolderSize d1 D1 = getFolderSize d2 D2.
Proof.
  intros H1 H2 (es & Hperm & Hall) Hstat.
  split; [exact (getFolderSize_files d1 D1 es1 H1)|].
  rewrite (getFolderSize_files d1 D1 es1 H1), (getFolderSize_files d2 D2 es2 H2).
  assert (Hfiles : flat_map regularFiles es1 ≡ₚ flat_map regularFiles es2).
  { rewrite (Permutation_flat_map regularFiles Hperm).
    exact (proj2 regularFiles_same es es2 Hall). }
  rewrite <- (sumOf_perm _ _ _ Hfiles).
  apply sumOf_agree. intros r Hr. specialize (Hstat r Hr). unfold sizeAt.
  destruct (disk_stat d1 (D1 +:+ "/" +:+ r)), (disk_stat d2 (D2 +:+ "/" +:+ r));
    simpl in Hstat; congruence.
Qed.

(** ** The groups of the three passes *)

Lemma detectDuplicates_parts h d fs directories n :
  ∃ n1 n2,
    (detectDuplicates h d fs directories n).1
    = (findNameBasedDuplicates h fs n).1
      ++ (findContentBasedDuplicates h fs n1).1
      ++ (findFolderBasedDuplicates h d directories n2).1.
Proof.
  unfold detectDuplicates, gbind, gret.
  exists (findNameBasedDuplicates h fs n).2.
  exists (findContentBasedDuplicates h fs (findNameBasedDuplicates h fs n).2).2.
  destruct (findNameBasedDuplicates h fs n) as [names n1]. simpl.
  destruct (findContentBasedDuplicates h fs n1) as [contents n2]. simpl.
  destruct (findFolderBasedDuplicates h d directories n2) as [folders n3].
  reflexivity.
Qed.

Lemma detectDuplicates_Forall (P : DuplicateGroup → Prop) h d fs directories n :
  (∀ m, Forall P (findNameBasedDuplicates h fs m).1) →
  (∀ m, Forall P (findContentBasedDuplicates h fs m).1) →
  (∀ m, Forall P (findFolderBasedDuplicates h d directories m).1) →
  Forall P (detectDuplicates h d fs directories n).1.
Proof.
  intros Hn Hc Hf.
  destruct (detectDuplicates_parts h d fs directories n) as (n1 & n2 & ->).
  rewrite !Forall_app. auto.
Qed.

Lemma folderMembers_spec h d (grp : list FolderStructure.t) acc n :
  ∃ ms,
    (folderMembers h d grp acc n).1 = (acc.1 ++ ms, acc.2 + sizeSum ms)
    ∧ path <$> ms = FolderStructure.path <$> grp
    ∧ name <$> ms = FolderStructure.name <$> grp
    ∧ Forall (fun f => fsize f = getFolderSize d (path f)
                       ∧ isDirectory f = true ∧ hash f = None) ms.
Proof.
  revert acc n. induction grp as [|folder rest IH]; intros acc n; simpl.
  - exists []. unfold gret. simpl. rewrite app_nil_r.
    destruct acc as [a b]. simpl. repeat split; [f_equal; lia|constructor].
  - unfold gbind, newDate.
    match goal with
    | |- context [folderMembers h d rest ?a ?m] =>
        destruct (IH a m) as (ms & Heq & Hp & Hn & Hall); rewrite Heq
    end.
    simpl.
    eexists (_ :: ms). split; [|split; [|split]].
    + rewrite <- app_assoc. simpl. f_equal. simpl. lia.
    + rewrite !fmap_cons, Hp. reflexivity.
    + rewrite !fmap_cons, Hn. reflexivity.
    + constructor; [simpl; auto | exact Hall].
Qed.

Lemma folderGroups_sound h d groups n g :
  g ∈ (folderGroups h d groups n).1 →
  ∃ grp, grp ∈ groups
    ∧ path <$> files g = FolderStructure.path <$> grp
    ∧ name <$> files g = FolderStructure.name <$> grp
    ∧ Forall (fun f => fsize f = getFolderSize d (path f)
                       ∧ isDirectory f = true ∧ hash f = None) (files g)
    ∧ type g = FOLDER_BASED
    ∧ totalSize g = sizeSum (files g)
    ∧ potentialSavings g = sizeSum (files g) - Math_max (map fsize (files g)).
Proof.
  revert n. induction groups as [|grp rest IH]; intros n; simpl.
  - intros H; inversion H.
  - unfold gbind.
    destruct (folderMembers_spec h d grp ([], 0) n) as (ms & Heq & Hp & Hn & Hall).
    destruct (folderMembers h d grp ([], 0) n) as [[ms' total] n1].
    simpl in Heq. injection Heq as -> ->.
    destruct (1 <? length ms)%nat.
    + unfold uuidv4, gret.
      destruct (folderGroups h d rest (S n1)) as [out n2] eqn:He. simpl.
      intros [->|Hin]%elem_of_cons.
      * exists grp. simpl. split; [left|]. repeat split; auto.
      * specialize (IH (S n1)). rewrite He in IH.
        destruct (IH Hin) as (grp' & Hin' & Hrest).
        exists grp'. split; [right; exact Hin'|exact Hrest].
    + intros Hin. destruct (IH n1 Hin) as (grp' & Hin' & Hrest).
      exists grp'. split; [right; exact Hin'|exact Hrest].
Qed.

Lemma savings_max_bounds (fs : list FileMetadata) :
  Forall (fun f => 0 <= fsize f) fs → fs ≠ [] →
  0 <= sizeSum fs - Math_max (map fsize fs) <= sizeSum fs.
Proof.
  intros Hall Hne.
  destruct (Math_max_maxOf (map fsize fs)) as [Hin Hmax].
  { destruct fs; [contradiction|discriminate]. }
  apply list_elem_of_fmap in Hin as (f & Hf & Hin).
  pose proof (sumOf_elem fsize fs f Hall Hin) as Hle.
  rewrite Forall_forall in Hall. specialize (Hall f Hin).
  change (sumOf fsize fs) with (sizeSum fs) in Hle. lia.
Qed.

Lemma savings_first_bounds (fs : list FileMetadata) :
  Forall (fun f => 0 <= fsize f) fs →
  0 <= sizeSum fs - match fs with f0 :: _ => fsize f0 | [] => 0 end
    <= sizeSum fs.
Proof.
  intros Hall. destruct fs as [|f0 r]; simpl; [lia|].
  inversion Hall as [|? ? H0 Hr]; subst.
  pose proof (sumOf_nonneg fsize r Hr) as Hs.
  change (sumOf fsize r) with (sizeSum r) in Hs. lia.
Qed.

Lemma exampleStats_agree (r : string) :
  st_size <$> disk_stat sizedDisk ("/d" +:+ "/" +:+ r)
  = st_size <$> disk_stat sizedDisk ("/e" +:+ "/" +:+ r).
Proof.
  change ("/d" +:+ "/" +:+ r) with (String "/" (String "d" (String "/" r))).
  change ("/e" +:+ "/" +:+ r) with (String "/" (String "e" (String "/" r))).
  cbn [disk_stat sizedDisk]. unfold exampleStats. simpl.
  destruct (String.eqb r "a"); [reflexivity|].
  destruct (String.eqb r "sub/x"); [reflexivity|].
  destruct (String.eqb r "sub/y"); reflexivity.
Qed.

Lemma exampleStats_nonneg (p : string) (st : Stats) :
  disk_stat sizedDisk p = Some st → 0 <= st_size st.
Proof.
  cbn [disk_stat sizedDisk]. unfold exampleStats.
  repeat match goal with
         | |- context [String.eqb p ?s] => destruct (String.eqb p s)
         end; intros [= <-]; simpl; lia.
Qed.

Lemma folder_size_of_two_copies_witness :
  getFolderSize sizedDisk "/d"
  = sumOf (fun r => sizeAt sizedDisk ("/d" +:+ "/" +:+ r))
      (flat_map regularFiles
         [EntFile "a"; EntDir "sub" (Some [EntFile "x"; EntFile "y"])])
  ∧ getFolderSize sizedDisk "/d" = getFolderSize sizedDisk "/e".
Proof.
  apply (folder_size_of_two_copies sizedDisk sizedDisk "/d" "/e"
           [EntFile "a"; EntDir "sub" (Some [EntFile "x"; EntFile "y"])]
           [EntDir "sub" (Some [EntFile "y"; EntFile "x"]); EntFile "a"]).
  - reflexivity.
  - reflexivity.
  - exists [EntDir "sub" (Some [EntFile "x"; EntFile "y"]); EntFile "a"].
    split; [apply Permutation_swap|].
    constructor; [|constructor; constructor].
    apply (same_dir "sub" _ [EntFile "y"; EntFile "x"]);
      [apply Permutation_swap | repeat constructor].
  - intros r _. exact (exampleStats_agree r).
Defined.

Lemma two_members_sum (groups : list DuplicateGroup) :
  Forall (fun g => (2 <= length (files g))%nat) groups →
  (2 * length groups <= sum_list_with (fun g => length (files g)) groups)%nat.
Proof. induction 1; simpl; lia. Qed.

Lemma sumOf_between {A} (f g : A → Z) (l : list A) :
  Forall (fun a => 0 <= f a <= g a) l → 0 <= sumOf f l <= sumOf g l.
Proof. induction 1; simpl; lia. Qed.

Lemma keyed_members_nonneg h mk key (fs : list FileMetadata) n g :
  (∀ i ms, files (mk i ms) = ms) →
  Forall (fun f => 0 <= fsize f) fs →
  g ∈ (emitGroups h mk (keyed key fs) n).1 →
  Forall (fun f => 0 <= fsize f) (files g).
Proof.
  intros Hmk Hall Hg. apply Forall_forall. intros f Hf.
  rewrite Forall_forall in Hall. apply Hall.
  eapply group_members_from_files; eassumption.
Qed.

Lemma detected_two_members h d fs directories n :
  Forall (fun g => (2 <= length (files g))%nat)
         (detectDuplicates h d fs directories n).1.
Proof.
  apply detectDuplicates_Forall; intros m.
  - apply emitGroups_two. reflexivity.
  - apply emitGroups_two. reflexivity.
  - unfold findFolderBasedDuplicates.
    destruct (length directories =? 0)%nat; [constructor|].
    apply folderGroups_two.
Qed.

Lemma detected_savings h d fs directories n :
  Forall (fun f => 0 <= fsize f) fs →
  (∀ p st, disk_stat d p = Some st → 0 <= st_size st) →
  Forall (fun g => totalSize g = sizeSum (files g)
                   ∧ 0 <= potentialSavings g <= totalSize g)
         (detectDuplicates h d fs directories n).1.
Proof.
  intros Hfs Hstat. apply detectDuplicates_Forall; intros m;
    apply Forall_forall; intros g Hg.
  - unfold findNameBasedDuplicates, JsMap.entries in Hg.
    rewrite nameGroups_keyed in Hg.
    pose proof (keyed_members_nonneg h nameGroup _ fs m g
                  (fun _ _ => eq_refl) Hfs Hg) as Hnn.
    apply emitGroups_sound in Hg as (i & k & ms & _ & Hlen & ->).
    simpl in *. rewrite sumSizes_sizeSum. split; [reflexivity|].
    apply savings_max_bounds; [exact Hnn|].
    intros ->. simpl in Hlen. lia.
  - unfold findContentBasedDuplicates, JsMap.entries in Hg.
    rewrite hashGroups_keyed in Hg.
    pose proof (keyed_members_nonneg h contentGroup _ fs m g
                  (fun _ _ => eq_refl) Hfs Hg) as Hnn.
    apply emitGroups_sound in Hg as (i & k & ms & _ & Hlen & ->).
    simpl in *. rewrite sumSizes_sizeSum. split; [reflexivity|].
    apply savings_first_bounds. exact Hnn.
  - unfold findFolderBasedDuplicates in Hg.
    destruct (length directories =? 0)%nat; [inversion Hg|].
    match type of Hg with
    | _ ∈ (folderGroups _ _ ?groups _).1 =>
        pose proof (folderGroups_two h d groups m) as Htwo
    end.
    rewrite Forall_forall in Htwo. specialize (Htwo g Hg).
    apply folderGroups_sound in Hg
      as (grp & _ & _ & _ & Hall & _ & Htot & Hsav).
    rewrite Htot, Hsav. split; [reflexivity|].
    apply savings_max_bounds.
    + eapply Forall_impl; [exact Hall|]. intros f (Hf & _ & _).
      simpl. rewrite Hf. apply getFolderSize_nonneg, Hstat.
    + intros Hnil. rewrite Hnil in Htwo. simpl in Htwo. lia.
Qed.

(** X3: when no size is negative, in every group the detection emits the
    total size is the sum of the member sizes and the potential savings lie
    between 0 and the total size; so do the totals of the statistics, which
    also count at least two members for every group. *)
Theorem savings_within_total (h : Host) (d : Disk)
    (fs directories : list FileMetadata) (n : nat) :
  Forall (fun f => 0 <= fsize f) fs →
  (∀ p st, disk_stat d p = Some st → 0 <= st_size st) →
  Forall (fun g => totalSize g = sizeSum (files g)
                   ∧ 0 <= potentialSavings g <= totalSize g)
         (detectDuplicates h d fs directories n).1
  ∧ (2 * DuplicateStats.totalGroups
           (calculateStats (detectDuplicates h d fs directories n).1)
     <= DuplicateStats.totalFiles
          (calculateStats (detectDuplicates h d fs directories n).1))%nat
  ∧ 0 <= DuplicateStats.potentialSavings
           (calculateStats (detectDuplicates h d fs directories n).1)
      <= DuplicateStats.totalSize
           (calculateStats (detectDuplicates h d fs directories n).1).
Proof.
  intros Hfs Hstat.
  pose proof (detected_savings h d fs directories n Hfs Hstat) as Hsav.
  pose proof (detected_two_members h d fs directories n) as Htwo.
  destruct (calculateStats_sums (detectDuplicates h d fs directories n).1)
    as (H1 & H2 & H3 & H4 & _).
  rewrite H1, H2, H3, H4.
  split; [exact Hsav|]. split; [apply two_members_sum, Htwo|].
  apply sumOf_between. eapply Forall_impl; [exact Hsav|].
  intros g [_ Hg]. exact Hg.
Qed.

Lemma savings_within_total_witness :
  Forall (fun g => totalSize g = sizeSum (files g)
                   ∧ 0 <= potentialSavings g <= totalSize g)
         (detectDuplicates plainHost sizedDisk [copyA1; copyA2]
            [folderD; folderE] 0%nat).1
  ∧ (2 * DuplicateStats.totalGroups
           (calculateStats (detectDuplicates plainHost sizedDisk
                              [copyA1; copyA2] [folderD; folderE] 0%nat).1)
     <= DuplicateStats.totalFiles
          (calculateStats (detectDuplicates plainHost sizedDisk
                             [copyA1; copyA2] [folderD; folderE] 0%nat).1))%nat
  ∧ 0 <= DuplicateStats.potentialSavings
           (calculateStats (detectDuplicates plainHost sizedDisk
                              [copyA1; copyA2] [folderD; folderE] 0%nat).1)
      <= DuplicateStats.totalSize
           (calculateStats (detectDuplicates plainHost sizedDisk
                              [copyA1; copyA2] [folderD; folderE] 0%nat).1).
Proof.
  apply (savings_within_total plainHost sizedDisk [copyA1; copyA2]
           [folderD; folderE] 0%nat).
  - repeat constructor; simpl; lia.
  - exact exampleStats_nonneg.
Defined.

(** ** The identifiers of the groups *)

Lemma drawnIds_nil h n : drawnIds h [] n n.
Proof. exists []. repeat split; [constructor|constructor|lia]. Qed.

Lemma drawnIds_cons h g out n n' :
  id g = host_uuid h n → drawnIds h out (S n) n' → drawnIds h (g :: out) n n'.
Proof.
  intros Hg (ks & Hids & Hsorted & Hall & Hle).
  exists (n :: ks). rewrite !fmap_cons, Hg, Hids.
  split; [reflexivity|]. split; [|split; [|lia]].
  - constructor; [exact Hsorted|].
    eapply Forall_impl; [exact Hall|]. intros k Hk. simpl in Hk. lia.
  - constructor; [lia|].
    eapply Forall_impl; [exact Hall|]. intros k Hk. simpl in *. lia.
Qed.

Lemma drawnIds_later h out n m n' :
  (n <= m)%nat → drawnIds h out m n' → drawnIds h out n n'.
Proof.
  intros Hnm (ks & Hids & Hsorted & Hall & Hle).
  exists ks. repeat split; try assumption; [|lia].
  eapply Forall_impl; [exact Hall|]. intros k Hk. simpl in *. lia.
Qed.

Lemma drawnIds_app h out1 out2 n n1 n2 :
  drawnIds h out1 n n1 → drawnIds h out2 n1 n2 →
  drawnIds h (out1 ++ out2) n n2.
Proof.
  intros (ks1 & Hids1 & Hs1 & Hall1 & Hle1) (ks2 & Hids2 & Hs2 & Hall2 & Hle2).
  exists (ks1 ++ ks2). rewrite !fmap_app, Hids1, Hids2.
  split; [reflexivity|]. split; [|split; [|lia]].
  - apply StronglySorted_app. split; [|split; assumption].
    intros x1 x2 H1 H2. rewrite Forall_forall in Hall1, Hall2.
    specialize (Hall1 x1 H1). specialize (Hall2 x2 H2). simpl in *. lia.
  - apply Forall_app. split.
    + eapply Forall_impl; [exact Hall1|]. intros k Hk. simpl in *. lia.
    + eapply Forall_impl; [exact Hall2|]. intros k Hk. simpl in *. lia.
Qed.

Lemma emitGroups_ids h mk groups n :
  (∀ i fs, id (mk i fs) = i) →
  drawnIds h (emitGroups h mk groups n).1 n (emitGroups h mk groups n).2.
Proof.
  intros Hmk. revert n. induction groups as [|[k fs] rest IH]; intros n; simpl.
  - apply drawnIds_nil.
  - destruct (1 <? length fs)%nat; [|apply IH].
    unfold gbind, uuidv4, gret. specialize (IH (S n)).
    destruct (emitGroups h mk rest (S n)) as [out n']. simpl in *.
    apply drawnIds_cons; [apply Hmk|exact IH].
Qed.

Lemma folderMembers_calls h d grp acc n :
  (n <= (folderMembers h d grp acc n).2)%nat.
Proof.
  revert acc n. induction grp as [|folder rest IH]; intros acc n; simpl.
  - unfold gret. simpl. lia.
  - unfold gbind, newDate.
    match goal with
    | |- context [folderMembers h d rest ?a ?m] => specialize (IH a m)
    end.
    lia.
Qed.

Lemma folderGroups_ids h d groups n :
  drawnIds h (folderGroups h d groups n).1 n (folderGroups h d groups n).2.
Proof.
  revert n. induction groups as [|grp rest IH]; intros n; simpl.
  - apply drawnIds_nil.
  - unfold gbind.
    pose proof (folderMembers_calls h d grp ([], 0) n) as Hcalls.
    destruct (folderMembers h d grp ([], 0) n) as [[ms total] n1].
    simpl in Hcalls.
    destruct (1 <? length ms)%nat.
    + unfold uuidv4, gret. specialize (IH (S n1)).
      destruct (folderGroups h d rest (S n1)) as [out n2]. simpl in *.
      apply (drawnIds_later h _ n n1 n2 Hcalls).
      apply drawnIds_cons; [reflexivity|exact IH].
    + apply (drawnIds_later h _ n n1 _ Hcalls). apply IH.
Qed.

Lemma detectDuplicates_ids h d fs directories n :
  drawnIds h (detectDuplicates h d fs directories n).1 n
    (detectDuplicates h d fs directories n).2.
Proof.
  unfold detectDuplicates, gbind, gret.
  pose proof (emitGroups_ids h nameGroup (JsMap.entries (nameGroups fs)) n
                (fun _ _ => eq_refl)) as Hname.
  unfold findNameBasedDuplicates.
  destruct (emitGroups h nameGroup (JsMap.entries (nameGroups fs)) n)
    as [names n1].
  pose proof (emitGroups_ids h contentGroup (JsMap.entries (hashGroups fs)) n1
                (fun _ _ => eq_refl)) as Hcontent.
  unfold findContentBasedDuplicates.
  destruct (emitGroups h contentGroup (JsMap.entries (hashGroups fs)) n1)
    as [contents n2].
  assert (Hfolder : drawnIds h (findFolderBasedDuplicates h d directories n2).1
                      n2 (findFolderBasedDuplicates h d directories n2).2).
  { unfold findFolderBasedDuplicates.
    destruct (length directories =? 0)%nat; [apply drawnIds_nil|].
    apply folderGroups_ids. }
  destruct (findFolderBasedDuplicates h d directories n2) as [folders n3].
  simpl in *.
  eapply drawnIds_app; [exact Hname|].
  eapply drawnIds_app; [exact Hcontent|exact Hfolder].
Qed.

Lemma sorted_lt_NoDup (ks : list nat) : StronglySorted lt ks → NoDup ks.
Proof.
  induction 1 as [|k ks Hs IH Hall]; constructor; [|exact IH].
  intros Hin. rewrite Forall_forall in Hall. specialize (Hall k Hin). lia.
Qed.

(** X4: when the host never gives the same identifier twice, no two
    groups of one detection share their id, across the three passes. *)
Theorem group_ids_are_distinct (h : Host) (d : Disk)
    (fs directories : list FileMetadata) (n : nat) :
  (∀ a b, host_uuid h a = host_uuid h b → a = b) →
  NoDup (id <$> (detectDuplicates h d fs directories n).1).
Proof.
  intros Hinj.
  destruct (detectDuplicates_ids h d fs directories n)
    as (ks & -> & Hsorted & _ & _).
  apply NoDup_fmap_2_strong; [|apply sorted_lt_NoDup, Hsorted].
  intros a b _ _. apply Hinj.
Qed.

Lemma string_of_replicate_length (c : ascii) (n : nat) :
  String.length (string_of_list_ascii (replicate n c)) = n.
Proof. induction n as [|n IH]; simpl; [reflexivity|]. rewrite IH. reflexivity. Qed.

Lemma plainHost_uuid_inj (a b : nat) :
  host_uuid plainHost a = host_uuid plainHost b → a = b.
Proof.
  simpl. intros H.
  apply (f_equal String.length) in H.
  rewrite !string_of_replicate_length in H. exact H.
Qed.

Lemma group_ids_are_distinct_witness :
  NoDup (id <$> (detectDuplicates plainHost sizedDisk [copyA1; copyA2]
                   [folderD; folderE] 0%nat).1).
Proof.
  apply (group_ids_are_distinct plainHost sizedDisk [copyA1; copyA2]
           [folderD; folderE] 0%nat).
  exact plainHost_uuid_inj.
Defined.

(** ** One group for each key *)

Lemma emitGroups_keys h mk (groups : JsMap.t (list FileMetadata)) n :
  (∀ i ms, files (mk i ms) = ms) →
  ∃ kept,
    kept `sublist_of` groups
    ∧ files <$> (emitGroups h mk groups n).1 = snd <$> kept.
Proof.
  intros Hmk. revert n. induction groups as [|[k ms] rest IH]; intros n; simpl.
  - exists []. split; [constructor|reflexivity].
  - destruct (1 <? length ms)%nat.
    + unfold gbind, uuidv4, gret. destruct (IH (S n)) as (kept & Hsub & Heq).
      destruct (emitGroups h mk rest (S n)) as [out n']. cbn [fst] in *.
      exists ((k, ms) :: kept). split; [constructor; exact Hsub|].
      rewrite !fmap_cons, Hmk, Heq. reflexivity.
    + destruct (IH n) as (kept & Hsub & Heq).
      exists kept. split; [constructor; exact Hsub|exact Heq].
Qed.

Lemma keyed_groups_apart h mk key (fs : list FileMetadata) n i j g1 g2 f1 f2 :
  (∀ i ms, files (mk i ms) = ms) →
  (emitGroups h mk (keyed key fs) n).1 !! i = Some g1 →
  (emitGroups h mk (keyed key fs) n).1 !! j = Some g2 →
  i ≠ j → f1 ∈ files g1 → f2 ∈ files g2 →
  ∃ k1 k2, key f1 = Some k1 ∧ key f2 = Some k2 ∧ k1 ≠ k2.
Proof.
  intros Hmk Hi Hj Hij Hf1 Hf2.
  destruct (emitGroups_keys h mk (keyed key fs) n Hmk) as (kept & Hsub & Heq).
  assert (Hnd : NoDup kept.*1).
  { eapply sublist_NoDup; [apply (keyed_NoDup key fs)|].
    apply fmap_sublist, Hsub. }
  assert (Hget : ∀ i g, (emitGroups h mk (keyed key fs) n).1 !! i = Some g →
                 ∃ k, kept !! i = Some (k, files g)).
  { intros i' g Hg.
    assert (H : (files <$> (emitGroups h mk (keyed key fs) n).1) !! i'
                = Some (files g)) by (rewrite list_lookup_fmap, Hg; reflexivity).
    rewrite Heq, list_lookup_fmap in H.
    destruct (kept !! i') as [[k v]|]; [|discriminate].
    simpl in H. injection H as ->. exists k. reflexivity. }
  destruct (Hget i g1 Hi) as [k1 H1]. destruct (Hget j g2 Hj) as [k2 H2].
  assert (Hm : ∀ i k g f, kept !! i = Some (k, files g) → f ∈ files g →
               key f = Some k).
  { intros i' k g f Hk Hf.
    assert (Hin : (k, files g) ∈ keyed key fs).
    { eapply elem_of_sublist; [|exact Hsub].
      eapply list_elem_of_lookup_2, Hk. }
    apply keyed_elem in Hin as [Hv _]. rewrite Hv in Hf.
    unfold membersOf in Hf. apply list_elem_of_filter in Hf as [Hf _]. exact Hf. }
  exists k1, k2. split; [eapply Hm; eassumption|]. split; [eapply Hm; eassumption|].
  intros ->. apply Hij.
  eapply (NoDup_lookup kept.*1 i j k2 Hnd).
  - rewrite list_lookup_fmap, H1. reflexivity.
  - rewrite list_lookup_fmap, H2. reflexivity.
Qed.

(** X5: the groups of one pass are apart.  Members of two different
    name-based groups never have the same name, and members of two
    different content-based groups never have the same hash: no file is in
    two groups of the same pass. *)
Theorem groups_of_a_pass_are_apart (h : Host) (fs : list FileMetadata)
    (n i j : nat) (g1 g2 : DuplicateGroup) (f1 f2 : FileMetadata) :
  i ≠ j → f1 ∈ files g1 → f2 ∈ files g2 →
  ((findNameBasedDuplicates h fs n).1 !! i = Some g1 →
   (findNameBasedDuplicates h fs n).1 !! j = Some g2 →
   name f1 ≠ name f2)
  ∧ ((findContentBasedDuplicates h fs n).1 !! i = Some g1 →
     (findContentBasedDuplicates h fs n).1 !! j = Some g2 →
     hash f1 ≠ hash f2).
Proof.
  intros Hij Hf1 Hf2. split.
  - unfold findNameBasedDuplicates, JsMap.entries. rewrite nameGroups_keyed.
    intros Hi Hj.
    destruct (keyed_groups_apart h nameGroup _ fs n i j g1 g2 f1 f2
                (fun _ _ => eq_refl) Hi Hj Hij Hf1 Hf2)
      as (k1 & k2 & H1 & H2 & Hne).
    congruence.
  - unfold findContentBasedDuplicates, JsMap.entries. rewrite hashGroups_keyed.
    intros Hi Hj.
    destruct (keyed_groups_apart h contentGroup _ fs n i j g1 g2 f1 f2
                (fun _ _ => eq_refl) Hi Hj Hij Hf1 Hf2)
      as (k1 & k2 & H1 & H2 & Hne).
    unfold hashKey in H1, H2.
    destruct (truthy (hash f1)); [|discriminate].
    destruct (truthy (hash f2)); [|discriminate].
    congruence.
Qed.

Lemma groups_of_a_pass_are_apart_witness :
  (findNameBasedDuplicates plainHost [copyA1; folderD; copyA2; folderE; folderD]
     0%nat).1 !! 0%nat
  = Some (nameGroup "" [copyA1; copyA2])
  ∧ (findNameBasedDuplicates plainHost
       [copyA1; folderD; copyA2; folderE; folderD] 0%nat).1 !! 1%nat
    = Some (nameGroup "u" [folderD; folderD])
  ∧ name copyA1 ≠ name folderD.
Proof.
  split; [reflexivity|]. split; [reflexivity|].
  refine (proj1 (groups_of_a_pass_are_apart plainHost
                   [copyA1; folderD; copyA2; folderE; folderD] 0 0 1
                   (nameGroup "" [copyA1; copyA2])
                   (nameGroup "u" [folderD; folderD]) copyA1 folderD
                   _ _ _) eq_refl eq_refl).
  - lia.
  - simpl. left.
  - simpl. left.
Defined.

(** ** The folder pass *)

Lemma emitGroups_type h mk groups n (t : DuplicateType) :
  (∀ i fs, type (mk i fs) = t) →
  Forall (fun g => type g = t) (emitGroups h mk groups n).1.
Proof.
  intros Hmk. apply Forall_forall. intros g Hg.
  apply emitGroups_sound in Hg as (i & k & ms & _ & _ & ->). apply Hmk.
Qed.

Lemma emitGroups_count h mk groups n :
  (∀ i fs, id (mk i fs) = i) →
  (emitGroups h mk groups n).2
  = (n + length (emitGroups h mk groups n).1)%nat
  ∧ id <$> (emitGroups h mk groups n).1
    = host_uuid h <$> seq n (length (emitGroups h mk groups n).1).
Proof.
  intros Hmk. revert n. induction groups as [|[k fs] rest IH]; intros n; simpl.
  - split; [lia|reflexivity].
  - destruct (1 <? length fs)%nat; [|apply IH].
    unfold gbind, uuidv4, gret. specialize (IH (S n)).
    destruct (emitGroups h mk rest (S n)) as [out n']. simpl in *.
    destruct IH as [-> Hids]. split; [lia|].
    rewrite Hmk. f_equal. exact Hids.
Qed.

(** X6: the detection is the three passes one after the other: its
    groups are the name-based groups of the files, then their
    content-based groups, then the folder-based groups of the directories.
    The name-based groups carry the identifiers the host gives from call
    [n] on, one after the other; the content-based groups those it gives
    from the call after the last name-based group; and the folder pass
    starts drawing where the content pass ended. *)
Theorem detection_runs_the_three_passes (h : Host) (d : Disk)
    (fs directories : list FileMetadata) (n : nat) :
  ∃ names contents folders,
    names = (findNameBasedDuplicates h fs n).1
    ∧ contents = (findContentBasedDuplicates h fs (n + length names)%nat).1
    ∧ folders
      = (findFolderBasedDuplicates h d directories
           (n + length names + length contents)%nat).1
    ∧ (detectDuplicates h d fs directories n).1
      = names ++ contents ++ folders
    ∧ id <$> names = host_uuid h <$> seq n (length names)
    ∧ id <$> contents
      = host_uuid h <$> seq (n + length names)%nat (length contents)
    ∧ drawnIds h folders (n + length names + length contents)%nat
        (detectDuplicates h d fs directories n).2
    ∧ Forall (fun g => type g = NAME_BASED) names
    ∧ Forall (fun g => type g = CONTENT_BASED) contents
    ∧ Forall (fun g => type g = FOLDER_BASED) folders.
Proof.
  eexists _, _, _. split; [reflexivity|]. split; [reflexivity|].
  split; [reflexivity|].
  destruct (emitGroups_count h nameGroup (JsMap.entries (nameGroups fs)) n
              (fun _ _ => eq_refl)) as [Hn1 Hids1].
  fold (findNameBasedDuplicates h fs n) in Hn1, Hids1.
  destruct (emitGroups_count h contentGroup (JsMap.entries (hashGroups fs))
              (n + length (findNameBasedDuplicates h fs n).1)%nat
              (fun _ _ => eq_refl)) as [Hn2 Hids2].
  fold (findContentBasedDuplicates h fs
          (n + length (findNameBasedDuplicates h fs n).1)%nat) in Hn2, Hids2.
  set (names := (findNameBasedDuplicates h fs n).1) in *.
  set (contents := (findContentBasedDuplicates h fs (n + length names)%nat).1) in *.
  assert (Hrun : detectDuplicates h d fs directories n
                 = (names ++ contents
                    ++ (findFolderBasedDuplicates h d directories
                          (n + length names + length contents)%nat).1,
                    (findFolderBasedDuplicates h d directories
                       (n + length names + length contents)%nat).2)).
  { unfold detectDuplicates, gbind, gret. unfold contents, names in *.
    destruct (findNameBasedDuplicates h fs n) as [ns n1]. simpl in *. subst n1.
    destruct (findContentBasedDuplicates h fs (n + length ns)%nat) as [cs n2].
    simpl in *. subst n2.
    destruct (findFolderBasedDuplicates h d directories
                (n + length ns + length cs)%nat) as [folders n3].
    reflexivity. }
  rewrite Hrun. cbn [fst snd].
  split; [reflexivity|]. split; [exact Hids1|]. split; [exact Hids2|].
  split; [|split; [|split]].
  - unfold findFolderBasedDuplicates.
    destruct (length directories =? 0)%nat; [apply drawnIds_nil|].
    apply folderGroups_ids.
  - apply emitGroups_type. reflexivity.
  - apply emitGroups_type. reflexivity.
  - apply Forall_forall. intros g Hg. unfold findFolderBasedDuplicates in Hg.
    destruct (length directories =? 0)%nat; [inversion Hg|].
    apply folderGroups_sound in Hg as (_ & _ & _ & _ & _ & Ht & _). exact Ht.
Qed.

Lemma findDuplicateFolders_keyed (structures : list FolderStructure.t) :
  findDuplicateFolders structures
  = filter (fun group => (1 < length group)%nat)
      (keyed (fun s => Some (FolderStructure.structureHash s)) structures).*2.
Proof. reflexivity. Qed.

Lemma findDuplicateFolders_elem (structures grp : list FolderStructure.t) :
  grp ∈ findDuplicateFolders structures ↔
  ∃ fp, grp = filter (fun s => FolderStructure.structureHash s = fp) structures
        ∧ (2 <= length grp)%nat.
Proof.
  rewrite findDuplicateFolders_keyed, list_elem_of_filter, list_elem_of_fmap.
  split.
  - intros [Hlen ([k v] & -> & Hin)]. simpl in *.
    apply keyed_elem in Hin as [Hv _]. exists k. split; [|lia].
    rewrite Hv. unfold membersOf. apply list_filter_iff.
    intros s. split; congruence.
  - intros (fp & Hgrp & Hlen). split; [lia|].
    exists (fp, grp). split; [reflexivity|].
    apply keyed_elem. split.
    + rewrite Hgrp. unfold membersOf. apply list_filter_iff.
      intros s. split; congruence.
    + intros ->. simpl in Hlen. lia.
Qed.

Lemma filter_structures h d (fp : string) (directories : list FileMetadata) :
  FolderStructure.path
    <$> filter (fun s => FolderStructure.structureHash s = fp)
          (map (fun dir => buildFolderStructure h d (path dir) (path dir))
               directories)
  = path <$> filter (fun dir => folderFingerprint h d dir = fp) directories.
Proof.
  induction directories as [|dir rest IH]; [reflexivity|].
  simpl. rewrite !filter_cons. unfold folderFingerprint at 1.
  destruct (decide (FolderStructure.structureHash
                      (buildFolderStructure h d (path dir) (path dir)) = fp)).
  - rewrite !fmap_cons, IH. reflexivity.
  - exact IH.
Qed.

Lemma folderGroups_complete h d groups n grp :
  grp ∈ groups → (2 <= length grp)%nat →
  ∃ g, g ∈ (folderGroups h d groups n).1
       ∧ path <$> files g = FolderStructure.path <$> grp.
Proof.
  intros Hin Hlen. revert n.
  induction groups as [|grp' rest IH]; intros n; [inversion Hin|].
  simpl. unfold gbind.
  destruct (folderMembers_spec h d grp' ([], 0) n) as (ms & Heq & Hp & _ & _).
  destruct (folderMembers h d grp' ([], 0) n) as [[ms' total] n1].
  simpl in Heq. injection Heq as -> ->.
  apply elem_of_cons in Hin as [<-|Hin].
  - assert (Hl : length ms = length grp).
    { rewrite <- (length_fmap path ms), Hp, length_fmap. reflexivity. }
    destruct (Nat.ltb_spec 1 (length ms)) as [_|Hlt]; [|lia].
    unfold uuidv4, gret.
    destruct (folderGroups h d rest (S n1)) as [out n2]. simpl.
    eexists. split; [left|]. simpl. exact Hp.
  - destruct (1 <? length ms)%nat.
    + unfold uuidv4, gret. destruct (IH Hin (S n1)) as (g & Hg & Hgp).
      destruct (folderGroups h d rest (S n1)) as [out n2]. simpl in *.
      exists g. split; [right; exact Hg|exact Hgp].
    + destruct (IH Hin n1) as (g & Hg & Hgp).
      exists g. split; [exact Hg|exact Hgp].
Qed.

(** X7: the folder pass.  Every group it emits holds, in their order,
    the directories that have one fingerprint, two or more of them, each
    with its folder size as size, the sizes adding up to the total and the
    largest of them left out of the savings; and all the directories that
    share a fingerprint with another are in such a group. *)
Theorem folder_based_grouping (h : Host) (d : Disk)
    (directories : list FileMetadata) (n : nat) :
  (∀ g, g ∈ (findFolderBasedDuplicates h d directories n).1 →
     ∃ fp mx,
       path <$> files g
       = path <$> filter (fun dir => folderFingerprint h d dir = fp) directories
       ∧ (2 <= length (files g))%nat
       ∧ type g = FOLDER_BASED
       ∧ Forall (fun f => fsize f = getFolderSize d (path f)
                          ∧ isDirectory f = true ∧ hash f = None) (files g)
       ∧ totalSize g = sizeSum (files g)
       ∧ maxOf mx (fsize <$> files g)
       ∧ potentialSavings g = sizeSum (files g) - mx)
  ∧ (∀ fp,
       (2 <= length (filter (fun dir => folderFingerprint h d dir = fp)
                       directories))%nat →
       ∃ g, g ∈ (findFolderBasedDuplicates h d directories n).1
            ∧ path <$> files g
              = path <$> filter (fun dir => folderFingerprint h d dir = fp)
                           directories).
Proof.
  unfold findFolderBasedDuplicates. split.
  - intros g Hg.
    destruct (length directories =? 0)%nat; [inversion Hg|].
    match type of Hg with
    | _ ∈ (folderGroups _ _ ?groups _).1 =>
        pose proof (folderGroups_two h d groups n) as Htwo
    end.
    rewrite Forall_forall in Htwo. specialize (Htwo g Hg).
    apply folderGroups_sound in Hg
      as (grp & Hgrp & Hp & _ & Hall & Ht & Htot & Hsav).
    apply findDuplicateFolders_elem in Hgrp as (fp & -> & _).
    exists fp, (Math_max (fsize <$> files g)).
    rewrite filter_structures in Hp.
    repeat split; try assumption.
    + apply Math_max_maxOf. intros H%fmap_nil_inv.
      rewrite H in Htwo. simpl in Htwo. lia.
    + apply Math_max_maxOf. intros H%fmap_nil_inv.
      rewrite H in Htwo. simpl in Htwo. lia.
  - intros fp Hlen.
    destruct (Nat.eqb_spec (length directories) 0) as [H0|_].
    { destruct directories; [|discriminate].
      rewrite filter_nil in Hlen. simpl in Hlen. lia. }
    set (structures :=
           map (fun dir => buildFolderStructure h d (path dir) (path dir))
               directories).
    destruct (folderGroups_complete h d (findDuplicateFolders structures) n
                (filter (fun s => FolderStructure.structureHash s = fp)
                        structures)) as (g & Hg & Hp).
    + apply findDuplicateFolders_elem. exists fp. split; [reflexivity|].
      rewrite <- (length_fmap FolderStructure.path).
      unfold structures. rewrite filter_structures, length_fmap. exact Hlen.
    + rewrite <- (length_fmap FolderStructure.path).
      unfold structures. rewrite filter_structures, length_fmap. exact Hlen.
    + exists g. split; [exact Hg|].
      rewrite Hp. apply filter_structures.
Qed.

Lemma visit_nothing h d directoryPath basePath (es : list Dirent) maps :
  Forall (fun e => isFileOrDir e = false) es →
  fold_left (fun maps e => visitEntry h d directoryPath basePath e maps) es maps
  = maps.
Proof.
  intros Hall. revert maps. induction Hall as [|e r He _ IH]; intros maps;
    [reflexivity|].
  simpl. destruct e; try discriminate He; apply IH.
Qed.

Lemma size_nothing d folderPath (es : list Dirent) total :
  Forall (fun e => isFileOrDir e = false) es →
  fold_left (fun total e => sizeEntry d folderPath e total) es total = total.
Proof.
  intros Hall. revert total. induction Hall as [|e r He _ IH]; intros total;
    [reflexivity|].
  simpl. destruct e; try discriminate He; apply IH.
Qed.

Lemma barren_structure h d p :
  barren d p →
  buildFolderStructure h d p p = folderRecord h p ([], [])
  ∧ getFolderSize d p = 0.
Proof.
  unfold barren, buildFolderStructure, getFolderSize, visitListing.
  destruct (disk_readdir d p) as [es|]; [|split; reflexivity].
  intros Hall. rewrite visit_nothing, size_nothing by exact Hall.
  split; reflexivity.
Qed.

(** X8: a directory that cannot be listed and a directory in which
    there is neither a regular file nor a directory get the same
    fingerprint, the digest of the empty text; any two such directories are
    reported as one folder-based group of size 0. *)
Theorem barren_directories_are_duplicates (h : Host) (d : Disk)
    (a b : FileMetadata) (n : nat) :
  barren d (path a) → barren d (path b) →
  folderFingerprint h d a = hexDigest h ""
  ∧ folderFingerprint h d b = hexDigest h ""
  ∧ ∃ g, (findFolderBasedDuplicates h d [a; b] n).1 = [g]
         ∧ path <$> files g = [path a; path b]
         ∧ totalSize g = 0
         ∧ potentialSavings g = 0.
Proof.
  intros Ha Hb.
  destruct (barren_structure h d (path a) Ha) as [Hsa Hza].
  destruct (barren_structure h d (path b) Hb) as [Hsb Hzb].
  unfold folderFingerprint. rewrite Hsa, Hsb.
  split; [reflexivity|]. split; [reflexivity|].
  unfold findFolderBasedDuplicates. cbn [length Nat.eqb map].
  rewrite Hsa, Hsb.
  unfold findDuplicateFolders, pushInto, JsMap.has. simpl.
  repeat (rewrite String.eqb_refl; simpl).
  eexists. split; [reflexivity|]. simpl.
  rewrite Hza, Hzb. repeat split; reflexivity.
Qed.

Lemma barren_directories_are_duplicates_witness :
  folderFingerprint plainHost exampleDisk
    {| path := "/nowhere"; name := "nowhere"; fsize := 0; modified := 0;
       created := 0; isDirectory := true; hash := None; extension := None |}
  = hexDigest plainHost ""
  ∧ folderFingerprint plainHost exampleDisk
      {| path := "/void"; name := "void"; fsize := 0; modified := 0;
         created := 0; isDirectory := true; hash := None; extension := None |}
    = hexDigest plainHost ""
  ∧ ∃ g, (findFolderBasedDuplicates plainHost exampleDisk
            [{| path := "/nowhere"; name := "nowhere"; fsize := 0;
                modified := 0; created := 0; isDirectory := true;
                hash := None; extension := None |};
             {| path := "/void"; name := "void"; fsize := 0; modified := 0;
                created := 0; isDirectory := true; hash := None;
                extension := None |}] 0%nat).1 = [g]
         ∧ path <$> files g = ["/nowhere"; "/void"]
         ∧ totalSize g = 0
         ∧ potentialSavings g = 0.
Proof.
  apply (barren_directories_are_duplicates plainHost exampleDisk
           {| path := "/nowhere"; name := "nowhere"; fsize := 0; modified := 0;
              created := 0; isDirectory := true; hash := None;
              extension := None |}
           {| path := "/void"; name := "void"; fsize := 0; modified := 0;
              created := 0; isDirectory := true; hash := None;
              extension := None |} 0%nat).
  - exact I.
  - exact I.
Defined.

(** ** More of the undo log *)

Lemma reverse_outcome (operation : UndoOperation.t) (w : World) :
  (∃ w', reverse operation w = (Resolved true, w')
         ∧ history w' = history w ∧ ticks w' = ticks w
         ∧ unwritable w' = unwritable w
         ∧ UndoOperation.action operation ≠ KEEP)
  ∨ (∃ w', reverse operation w = (Resolved false, w')
           ∧ store w' = store w ∧ history w' = history w
           ∧ ticks w' = ticks w
           ∧ UndoOperation.action operation = KEEP)
  ∨ reverse operation w = (Rejected, w).
Proof.
  unfold reverse.
  destruct (UndoOperation.action operation) eqn:Hact.
  - right. left. eexists. split; [reflexivity|]. simpl. auto.
  - destruct (UndoOperation.backupPath operation) as [p|];
      [|left; eexists; split; [reflexivity|]; simpl; repeat split; congruence].
    destruct (truthy (Some p));
      [|left; eexists; split; [reflexivity|]; simpl; repeat split; congruence].
    unfold iobind, copyFile.
    destruct (store w !! p); [|right; right; reflexivity].
    destruct (unwritable w (UndoOperation.originalPath operation));
      [right; right; reflexivity|].
    left; eexists; split; [reflexivity|]; simpl; repeat split; congruence.
  - destruct (UndoOperation.newPath operation) as [p|];
      [|left; eexists; split; [reflexivity|]; simpl; repeat split; congruence].
    destruct (truthy (Some p));
      [|left; eexists; split; [reflexivity|]; simpl; repeat split; congruence].
    unfold iobind, rename.
    destruct (store w !! p); [|right; right; reflexivity].
    destruct (unwritable w p || unwritable w (UndoOperation.originalPath operation));
      [right; right; reflexivity|].
    left; eexists; split; [reflexivity|]; simpl; repeat split; congruence.
  - destruct (UndoOperation.newPath operation) as [p|];
      [|left; eexists; split; [reflexivity|]; simpl; repeat split; congruence].
    destruct (truthy (Some p));
      [|left; eexists; split; [reflexivity|]; simpl; repeat split; congruence].
    unfold iobind, rename.
    destruct (store w !! p); [|right; right; reflexivity].
    destruct (unwritable w p || unwritable w (UndoOperation.originalPath operation));
      [right; right; reflexivity|].
    left; eexists; split; [reflexivity|]; simpl; repeat split; congruence.
Qed.

Lemma saveFails_same (u : UndoSystem) (w w' : World) :
  unwritable w' = unwritable w → saveFails u w' = saveFails u w.
Proof. intros H. unfold saveFails. rewrite H. reflexivity. Qed.

Lemma undo_is_all_or_nothing_core (u : UndoSystem) (operationId : string)
    (w : World) :
  ∃ ok u' w',
    undoOperation u operationId w = (Resolved (ok, u'), w')
    ∧ ticks w' = ticks w
    ∧ (ok = false →
       u' = u ∧ store w' = store w ∧ history w' = history w)
    ∧ (ok = true →
       ∃ index operation,
         findIndex operationId (operations u) = Some index
         ∧ operations u !! index = Some operation
         ∧ UndoOperation.id operation = operationId
         ∧ UndoOperation.action operation ≠ KEEP
         ∧ u' = withOperations u (delete index (operations u))
         ∧ (saveFails u w = false → history w' = Some (operations u'))
         ∧ (saveFails u w = true →
            history w' = history w
            ∧ last (logged w') = Some (ERROR, "Failed to save undo history"))).
Proof.
  unfold undoOperation.
  destruct (findIndex operationId (operations u)) as [index|] eqn:Hfind.
  - destruct (findIndex_Some _ _ _ Hfind) as (op & Hlook & Hid).
    rewrite Hlook. unfold tryCatch, iobind.
    destruct (reverse_outcome op w)
      as [(w' & -> & Hh & Ht & Hu & Hact)|[(w' & -> & Hs & Hh & Ht & Hact)| ->]].
    + destruct (saveHistory_outcome u (delete index (operations u)) w')
        as (w1 & -> & Hs1 & Ht1 & Hu1 & Hok & Hfail).
      rewrite (saveFails_same u w w' Hu) in Hok, Hfail.
      eexists true, _, _. split; [reflexivity|]. simpl.
      split; [congruence|]. split; [discriminate|].
      intros _. exists index, op.
      split; [reflexivity|]. split; [exact Hlook|]. split; [exact Hid|].
      split; [exact Hact|]. split; [reflexivity|]. split.
      * intros Hf. exact (proj1 (Hok Hf)).
      * intros Hf. destruct (Hfail Hf) as [Hh1 Hl1]. split; [congruence|].
        rewrite Hl1. apply last_snoc.
    + eexists false, _, _. split; [reflexivity|]. simpl.
      split; [exact Ht|]. split; [auto|discriminate].
    + eexists false, _, _. split; [reflexivity|]. simpl.
      split; [reflexivity|]. split; [auto|discriminate].
  - eexists false, _, _. split; [reflexivity|]. simpl.
    split; [reflexivity|]. split; [auto|discriminate].
Qed.


Lemma recordOperation_outcome (h : Host) (u : UndoSystem) (w : World)
    (action : DuplicateAction) (originalPath : string)
    (backupPath newPath : option string) :
  (action ≠ DELETE →
   ∃ t w',
     recordOperation h u action originalPath backupPath newPath w
     = (Resolved
          (nextOperationId h w,
           withOperations u
             (operations u ++
              [UndoOperation.mk (nextOperationId h w) t action originalPath
                 backupPath newPath])),
        w')
     ∧ store w' = store w
     ∧ unwritable w' = unwritable w
     ∧ (saveFails u w = false →
        history w'
        = Some (operations u ++
                [UndoOperation.mk (nextOperationId h w) t action originalPath
                   backupPath newPath])
        ∧ logged w' = logged w ++ [(INFO, "Undo operation recorded")])
     ∧ (saveFails u w = true →
        history w' = history w
        ∧ logged w'
          = logged w ++ [(ERROR, "Failed to save undo history");
                         (INFO, "Undo operation recorded")]))
  ∧ (action = DELETE →
     store w !! originalPath = None
     ∨ unwritable w (nextBackupPath h u w originalPath) = true →
     ∃ w',
       recordOperation h u action originalPath backupPath newPath w
       = (Rejected, w')
       ∧ store w' = store w
       ∧ history w' = history w
       ∧ logged w' = logged w).
Proof.
  split.
  - intros Hact.
    unfold recordOperation, generateOperationId.
    unfold iobind at 1 2 3 4 5. unfold now, randomSuffix, ioret.
    destruct action; try contradiction; cbn; unfold iobind at 1;
      (match goal with
       | |- context [saveHistory _ ?ops ?w0] =>
           destruct (saveHistory_outcome u ops w0)
             as (w1 & Hsave & Hs & _ & Hu & Hok & Hfail)
       end;
       rewrite Hsave; unfold iobind, logLine; cbn;
       eexists _, _; (split; [reflexivity|]); cbn;
       split; [exact Hs|]; split; [exact Hu|]; split;
       [intros Hf; destruct (Hok Hf) as [-> ->]; split; reflexivity
       |intros Hf; destruct (Hfail Hf) as [-> ->]; split; [reflexivity|];
        rewrite <- app_assoc; reflexivity]).
  - intros -> Hcase.
    unfold recordOperation, generateOperationId, createBackup.
    unfold iobind at 1 2 3 4 5 6 7. unfold now, randomSuffix, ioret. cbn.
    unfold iobind at 1, copyFile. cbn [store unwritable].
    unfold nextBackupPath in Hcase.
    destruct Hcase as [Hmissing|Hrefused].
    + rewrite Hmissing. eexists. split; [reflexivity|].
      repeat split; reflexivity.
    + rewrite Hrefused.
      destruct (store w !! originalPath);
        (eexists; split; [reflexivity|]; repeat split; reflexivity).
Qed.

(** X10: recording.  An operation other than a delete is recorded
    without touching any file: the log in memory grows at its end by one
    entry that carries the given paths, and the history file holds the new
    log, or, when it cannot be written, what it held before, with the line
    "Failed to save undo history" handed to the logger.  A delete of a file
    that is not there or whose backup cannot be written rejects, and leaves
    the files, the persisted log and the logger's lines as they were. *)
Theorem record_appends_or_rejects (h : Host) (u : UndoSystem) (w : World)
    (action : DuplicateAction) (originalPath : string)
    (backupPath newPath : option string) :
  (action ≠ DELETE →
   ∃ t w',
     recordOperation h u action originalPath backupPath newPath w
     = (Resolved
          (nextOperationId h w,
           withOperations u
             (operations u ++
              [UndoOperation.mk (nextOperationId h w) t action originalPath
                 backupPath newPath])),
        w')
     ∧ store w' = store w
     ∧ unwritable w' = unwritable w
     ∧ (saveFails u w = false →
        history w'
        = Some (operations u ++
                [UndoOperation.mk (nextOperationId h w) t action originalPath
                   backupPath newPath])
        ∧ logged w' = logged w ++ [(INFO, "Undo operation recorded")])
     ∧ (saveFails u w = true →
        history w' = history w
        ∧ logged w'
          = logged w ++ [(ERROR, "Failed to save undo history");
                         (INFO, "Undo operation recorded")]))
  ∧ (action = DELETE →
     store w !! originalPath = None
     ∨ unwritable w (nextBackupPath h u w originalPath) = true →
     ∃ w',
       recordOperation h u action originalPath backupPath newPath w
       = (Rejected, w')
       ∧ store w' = store w
       ∧ history w' = history w
       ∧ logged w' = logged w).
Proof. apply recordOperation_outcome. Qed.

Lemma withOperations_same (u : UndoSystem) :
  withOperations u (operations u) = u.
Proof. destruct u; reflexivity. Qed.

(** X11: a move or a rename that was carried out and recorded is taken
    back by its undo, when both paths can be written: the file is at its
    original path again, nothing is left at the new path, every other file
    is as it was, and the entry has left the log in memory.  The history
    file then holds the log as it was in memory before the recording, or,
    when it cannot be written, what it held all along; either way a history
    file that agreed with the log in memory is as it was. *)
Theorem move_is_taken_back (h : Host) (u : UndoSystem) (w : World)
    (action : DuplicateAction) (originalPath new bytes : string) :
  action = MOVE ∨ action = RENAME →
  store w !! originalPath = Some bytes →
  store w !! new = None →
  new ≠ "" →
  unwritable w originalPath = false →
  unwritable w new = false →
  nextOperationId h w ∉ UndoOperation.id <$> operations u →
  ∃ w1 operationId u2 w2 w3,
    rename originalPath new w = (Resolved tt, w1)
    ∧ store w1 !! originalPath = None
    ∧ store w1 !! new = Some bytes
    ∧ recordOperation h u action originalPath None (Some new) w1
      = (Resolved (operationId, u2), w2)
    ∧ undoOperation u2 operationId w2 = (Resolved (true, u), w3)
    ∧ store w3 = store w
    ∧ (saveFails u w = false → history w3 = Some (operations u))
    ∧ (saveFails u w = true → history w3 = history w)
    ∧ (history w = Some (operations u) → history w3 = history w).
Proof.
  intros Hact Horig Hnew Hne Hfree1 Hfree2 Hfresh.
  assert (Hneq : originalPath ≠ new) by congruence.
  set (w1 := withStore w (<[new := bytes]> (delete originalPath (store w)))).
  assert (Hrename : rename originalPath new w = (Resolved tt, w1)).
  { unfold rename. rewrite Horig, Hfree1, Hfree2. reflexivity. }
  destruct (recordOperation_outcome h u w1 action originalPath None (Some new))
    as [Hrec _].
  destruct Hrec as (t & w2 & Hrec & Hs2 & Hu2 & Hok2 & Hfail2).
  { destruct Hact as [-> | ->]; discriminate. }
  change (nextOperationId h w1) with (nextOperationId h w) in *.
  change (saveFails u w1) with (saveFails u w) in *.
  change (history w1) with (history w) in *.
  change (unwritable w1) with (unwritable w) in *.
  set (op := UndoOperation.mk (nextOperationId h w) t action originalPath
               None (Some new)) in *.
  assert (Hfind : findIndex (nextOperationId h w) (operations u ++ [op])
                  = Some (length (operations u))).
  { apply findIndex_middle; [exact Hfresh|reflexivity]. }
  assert (Hlook : (operations u ++ [op]) !! length (operations u) = Some op).
  { rewrite lookup_app_r by lia. rewrite Nat.sub_diag. reflexivity. }
  assert (Hstore2 : store w2 !! new = Some bytes).
  { rewrite Hs2. unfold w1. simpl. apply lookup_insert_eq. }
  assert (Hback : <[originalPath := bytes]> (delete new (store w2)) = store w).
  { rewrite Hs2. unfold w1. simpl.
    rewrite delete_insert_id
      by (rewrite lookup_delete_ne by congruence; exact Hnew).
    rewrite insert_delete_eq. apply insert_id, Horig. }
  set (line := match action with
               | RENAME => "File renamed back to original name"
               | _ => "File moved back to original location"
               end).
  set (w2' := {| store := store w; history := history w2;
                 logged := logged w2 ++ [(INFO, line)];
                 ticks := ticks w2; unwritable := unwritable w2 |}).
  assert (Hreverse : reverse op w2 = (Resolved true, w2')).
  { unfold reverse, op.
    cbn [UndoOperation.action UndoOperation.newPath UndoOperation.originalPath].
    rewrite (truthy_Some _ Hne).
    destruct Hact as [-> | ->]; unfold iobind, rename;
      rewrite Hstore2, Hu2, Hfree1, Hfree2; cbn; unfold w2', withStore;
      rewrite Hback; reflexivity. }
  destruct (saveHistory_outcome u (operations u) w2')
    as (w3 & Hsave & Hs3 & _ & _ & Hok3 & Hfail3).
  assert (Hf3 : saveFails u w2' = saveFails u w).
  { apply saveFails_same. exact Hu2. }
  rewrite Hf3 in Hok3, Hfail3.
  exists w1, (nextOperationId h w), (withOperations u (operations u ++ [op])),
    w2, w3.
  split; [exact Hrename|]. split; [|split; [|split; [exact Hrec|]]].
  - unfold w1. simpl. rewrite lookup_insert_ne by congruence.
    apply lookup_delete_eq.
  - unfold w1. simpl. apply lookup_insert_eq.
  - assert (Hundo : undoOperation (withOperations u (operations u ++ [op]))
                      (nextOperationId h w) w2
                    = (Resolved (true, u), w3)).
    { unfold undoOperation. cbn [operations withOperations undoHistoryPath].
      rewrite Hfind, Hlook. unfold tryCatch, iobind. rewrite Hreverse.
      rewrite (delete_middle (operations u) [] op), app_nil_r.
      rewrite Hsave.
      change (withOperations (withOperations u (operations u ++ [op]))
                (operations u))
        with (withOperations u (operations u)).
      rewrite withOperations_same. reflexivity. }
    split; [exact Hundo|]. split; [exact Hs3|].
    assert (Hcases : saveFails u w = false ∨ saveFails u w = true)
      by (destruct (saveFails u w); auto).
    split; [intros Hf; exact (proj1 (Hok3 Hf))|]. split.
    + intros Hf. rewrite (proj1 (Hfail3 Hf)). cbn.
      exact (proj1 (Hfail2 Hf)).
    + intros Hsync. destruct Hcases as [Hf|Hf].
      * rewrite (proj1 (Hok3 Hf)). symmetry. exact Hsync.
      * rewrite (proj1 (Hfail3 Hf)). cbn. exact (proj1 (Hfail2 Hf)).
Qed.

Lemma move_is_taken_back_witness :
  ∃ w1 operationId u2 w2 w3,
    rename "/r/a.txt" "/r/b.txt" exampleWorld = (Resolved tt, w1)
    ∧ store w1 !! "/r/a.txt" = None
    ∧ store w1 !! "/r/b.txt" = Some "hello"
    ∧ recordOperation plainHost exampleUndo RENAME "/r/a.txt" None
        (Some "/r/b.txt") w1
      = (Resolved (operationId, u2), w2)
    ∧ undoOperation u2 operationId w2 = (Resolved (true, exampleUndo), w3)
    ∧ store w3 = store exampleWorld
    ∧ (saveFails exampleUndo exampleWorld = false →
       history w3 = Some (operations exampleUndo))
    ∧ (saveFails exampleUndo exampleWorld = true →
       history w3 = history exampleWorld)
    ∧ (history exampleWorld = Some (operations exampleUndo) →
       history w3 = history exampleWorld).
Proof.
  apply (move_is_taken_back plainHost exampleUndo exampleWorld RENAME
           "/r/a.txt" "/r/b.txt" "hello").
  - right. reflexivity.
  - reflexivity.
  - reflexivity.
  - discriminate.
  - reflexivity.
  - reflexivity.
  - simpl. apply not_elem_of_nil.
Defined.

Lemma removeBackups_outcome (ops : list UndoOperation.t) (w : World) :
  ∃ w',
    removeBackups ops w = (Resolved tt, w')
    ∧ store w'
      = fold_left (fun s p => delete p s)
          (List.filter (fun p => negb (unwritable w p)) (backupsOf ops))
          (store w)
    ∧ history w' = history w
    ∧ ticks w' = ticks w
    ∧ unwritable w' = unwritable w.
Proof.
  revert w. induction ops as [|op rest IH]; intros w.
  - exists w. repeat split; reflexivity.
  - cbn [removeBackups]. unfold backupsOf. cbn [omap list_omap].
    fold (backupsOf rest). unfold iobind at 1.
    destruct (truthy (UndoOperation.backupPath op)) eqn:Ht.
    + destruct (UndoOperation.backupPath op) as [p|]; [|discriminate Ht].
      cbn [List.filter].
      assert (Hkept : ∀ w0 : World,
                 store w0 = store w → history w0 = history w →
                 ticks w0 = ticks w → unwritable w0 = unwritable w →
                 ∃ w', removeBackups rest w0 = (Resolved tt, w')
                   ∧ store w'
                     = fold_left (fun s p => delete p s)
                         (List.filter (fun p => negb (unwritable w p))
                            (backupsOf rest))
                         (store w)
                   ∧ history w' = history w
                   ∧ ticks w' = ticks w
                   ∧ unwritable w' = unwritable w).
      { intros w0 Hs0 Hh0 Hk0 Hu0.
        destruct (IH w0) as (w' & Hrun & Hs & Hh & Hk & Hu).
        exists w'. rewrite Hu0, Hs0 in Hs.
        repeat split; congruence. }
      unfold tryCatch, unlink.
      destruct (store w !! p) eqn:Hp.
      * destruct (unwritable w p) eqn:Hrefused; cbn [negb].
        -- cbn. apply Hkept; reflexivity.
        -- destruct (IH (withStore w (delete p (store w))))
             as (w' & Hrun & Hs & Hh & Hk & Hu).
           exists w'. rewrite Hrun. repeat split; assumption.
      * cbn.
        destruct (Hkept {| store := store w; history := history w;
                           logged := logged w ++
                             [(WARN, "Failed to delete backup file")];
                           ticks := ticks w; unwritable := unwritable w |})
          as (w' & Hrun & Hs & Hh & Hk & Hu); try reflexivity.
        exists w'. rewrite Hrun. split; [reflexivity|].
        split; [|repeat split; assumption].
        rewrite Hs. destruct (unwritable w p); cbn; [reflexivity|].
        rewrite (delete_id _ _ Hp). reflexivity.
    + cbn. destruct (IH w) as (w' & Hrun & Hs & Hh & Hk & Hu).
      exists w'. rewrite Hrun. repeat split; assumption.
Qed.


Lemma clear_history_outcome (u : UndoSystem) (w : World) :
  ∃ w',
    clearHistory u w = (Resolved (withOperations u []), w')
    ∧ ticks w' = ticks w
    ∧ (saveFails u w = false → history w' = Some [])
    ∧ (saveFails u w = true → history w' = history w)
    ∧ store w'
      = fold_left (fun s p => delete p s)
          (List.filter (fun p => negb (unwritable w p))
             (backupsOf (operations u)))
          (store w).
Proof.
  unfold clearHistory. unfold iobind at 1.
  destruct (removeBackups_outcome (operations u) w)
    as (w1 & -> & Hs & Hh & Hk & Hu).
  unfold iobind at 1.
  destruct (saveHistory_outcome u [] w1)
    as (w2 & -> & Hs2 & Hk2 & _ & Hok & Hfail).
  rewrite (saveFails_same u w w1 Hu) in Hok, Hfail.
  cbn. eexists. split; [reflexivity|]. cbn.
  split; [congruence|]. split; [intros Hf; exact (proj1 (Hok Hf))|].
  split; [intros Hf; rewrite (proj1 (Hfail Hf)); exact Hh|].
  congruence.
Qed.


(** ** The most recent operations *)

Lemma sortInsertBy_perm {A} (compare : A → A → Z) x (l : list A) :
  sortInsertBy compare x l ≡ₚ x :: l.
Proof.
  induction l as [|y r IH]; simpl; [reflexivity|].
  destruct (compare x y <=? 0); [reflexivity|].
  rewrite IH. apply Permutation_swap.
Qed.

Lemma jsSortBy_perm {A} (compare : A → A → Z) (l : list A) :
  jsSortBy compare l ≡ₚ l.
Proof.
  induction l as [|x r IH]; simpl; [reflexivity|].
  rewrite sortInsertBy_perm, IH. reflexivity.
Qed.

Lemma newest_first_insert (x : UndoOperation.t) (l : list UndoOperation.t) :
  StronglySorted newerFirst l →
  StronglySorted newerFirst
    (sortInsertBy
       (fun a b => UndoOperation.timestamp b - UndoOperation.timestamp a) x l).
Proof.
  induction 1 as [|y r Hs IH Hall]; simpl.
  - repeat constructor.
  - destruct (Z.leb_spec (UndoOperation.timestamp y - UndoOperation.timestamp x) 0)
      as [Hle|Hgt].
    + constructor; [constructor; assumption|].
      constructor; [unfold newerFirst; lia|].
      eapply Forall_impl; [exact Hall|].
      intros z Hz. unfold newerFirst in *. lia.
    + constructor; [exact IH|].
      rewrite (sortInsertBy_perm _ x r). constructor; [|exact Hall].
      unfold newerFirst. lia.
Qed.

Lemma newest_first_sorted (l : list UndoOperation.t) :
  StronglySorted newerFirst
    (jsSortBy
       (fun a b => UndoOperation.timestamp b - UndoOperation.timestamp a) l).
Proof.
  induction l as [|x r IH]; simpl; [constructor|].
  apply newest_first_insert, IH.
Qed.

(** X13: the most recent operations.  The call reorders the log in
    memory, newest first, without losing an entry; what it returns are the
    first [limit] entries of the reordered log, so that no entry left out
    is newer than an entry returned. *)
Theorem recent_operations_are_the_newest (u : UndoSystem) (limit : Z) :
  0 <= limit →
  operations (getRecentOperations u limit).2 ≡ₚ operations u
  ∧ StronglySorted newerFirst (operations (getRecentOperations u limit).2)
  ∧ (getRecentOperations u limit).1
    = take (Z.to_nat limit) (operations (getRecentOperations u limit).2)
  ∧ length (getRecentOperations u limit).1
    = Nat.min (Z.to_nat limit) (length (operations u))
  ∧ (∀ a b, a ∈ (getRecentOperations u limit).1 →
       b ∈ drop (Z.to_nat limit) (operations (getRecentOperations u limit).2) →
       UndoOperation.timestamp b <= UndoOperation.timestamp a).
Proof.
  intros Hlimit. unfold getRecentOperations. cbn [fst snd operations withOperations].
  set (sorted := jsSortBy _ (operations u)).
  assert (Hperm : sorted ≡ₚ operations u) by apply jsSortBy_perm.
  assert (Hsorted : StronglySorted newerFirst sorted) by apply newest_first_sorted.
  assert (Hslice : slice0 limit sorted = take (Z.to_nat limit) sorted).
  { unfold slice0. destruct (Z.ltb_spec limit 0); [lia|reflexivity]. }
  rewrite Hslice.
  split; [exact Hperm|]. split; [exact Hsorted|]. split; [reflexivity|].
  split.
  - rewrite length_take, (Permutation_length Hperm). reflexivity.
  - intros a b Ha Hb.
    rewrite <- (take_drop (Z.to_nat limit) sorted) in Hsorted.
    apply StronglySorted_app in Hsorted as (Hcross & _ & _).
    exact (Hcross a b Ha Hb).
Qed.

Lemma recent_operations_are_the_newest_witness :
  operations (getRecentOperations
                (withOperations exampleUndo
                   [UndoOperation.mk "a" 5 KEEP "/x" None None;
                    UndoOperation.mk "b" 9 KEEP "/y" None None;
                    UndoOperation.mk "c" 7 KEEP "/z" None None]) 2).2
  ≡ₚ [UndoOperation.mk "a" 5 KEEP "/x" None None;
      UndoOperation.mk "b" 9 KEEP "/y" None None;
      UndoOperation.mk "c" 7 KEEP "/z" None None]
  ∧ (getRecentOperations
       (withOperations exampleUndo
          [UndoOperation.mk "a" 5 KEEP "/x" None None;
           UndoOperation.mk "b" 9 KEEP "/y" None None;
           UndoOperation.mk "c" 7 KEEP "/z" None None]) 2).1
    = [UndoOperation.mk "b" 9 KEEP "/y" None None;
       UndoOperation.mk "c" 7 KEEP "/z" None None].
Proof.
  split; [|reflexivity].
  apply (recent_operations_are_the_newest
           (withOperations exampleUndo
              [UndoOperation.mk "a" 5 KEEP "/x" None None;
               UndoOperation.mk "b" 9 KEEP "/y" None None;
               UndoOperation.mk "c" 7 KEEP "/z" None None]) 2).
  lia.
Defined.

Lemma recordOperation_history (h : Host) (u u' : UndoSystem) (w w' : World)
    (action : DuplicateAction) (originalPath i : string)
    (backupPath newPath : option string) :
  recordOperation h u action originalPath backupPath newPath w
  = (Resolved (i, u'), w') →
  (saveFails u w = false → history w' = Some (operations u'))
  ∧ (saveFails u w = true → history w' = history w).
Proof.
  intros Hrun.
  destruct (recordOperation_outcome h u w action originalPath backupPath newPath)
    as [Hother Hdelete].
  assert (Hdec : action = DELETE ∨ action ≠ DELETE)
    by (destruct action; auto; right; discriminate).
  destruct Hdec as [->|Hact].
  - destruct (store w !! originalPath) as [bytes|] eqn:Hstore.
    + destruct (unwritable w (nextBackupPath h u w originalPath)) eqn:Hfree.
      * destruct (Hdelete eq_refl (or_intror eq_refl)) as (w1 & Hrej & _).
        rewrite Hrej in Hrun. discriminate.
      * destruct (recordOperation_delete h u w originalPath bytes backupPath
                    newPath Hstore Hfree) as (t & w1 & Hrec & _ & Hok & Hfail & _).
        rewrite Hrec in Hrun. injection Hrun as <- <- <-.
        split; assumption.
    + destruct (Hdelete eq_refl (or_introl eq_refl)) as (w1 & Hrej & _).
      rewrite Hrej in Hrun. discriminate.
  - destruct (Hother Hact) as (t & w1 & Hrec & _ & _ & Hok & Hfail).
    rewrite Hrec in Hrun. injection Hrun as <- <- <-.
    split; intros Hf; [exact (proj1 (Hok Hf))|exact (proj1 (Hfail Hf))].
Qed.

(** X14: the history file and the log in memory.  After an operation
    has been recorded, after an undo that succeeded and after the history
    has been cleared, the history file holds the log in memory when it can
    be written, and what it held before when it cannot; an undo that
    fails leaves both alone.  Initialising an undo system whose backup
    directory can be made reads back exactly the persisted log, or starts
    with an empty log when there is none; when the directory cannot be
    made the history is not read, the object stays as it was and the
    failure is handed to the logger. *)
Theorem log_is_persisted (h : Host) (u u' u0 : UndoSystem) (w w' : World) :
  (∀ action originalPath backupPath newPath i,
     recordOperation h u action originalPath backupPath newPath w
     = (Resolved (i, u'), w') →
     (saveFails u w = false → inSync u' w')
     ∧ (saveFails u w = true → history w' = history w))
  ∧ (∀ operationId,
       undoOperation u operationId w = (Resolved (true, u'), w') →
       (saveFails u w = false → inSync u' w')
       ∧ (saveFails u w = true → history w' = history w))
  ∧ (∀ operationId,
       undoOperation u operationId w = (Resolved (false, u'), w') →
       u' = u ∧ history w' = history w)
  ∧ (clearHistory u w = (Resolved u', w') →
     (saveFails u w = false → inSync u' w')
     ∧ (saveFails u w = true → history w' = history w))
  ∧ (unwritable w (backupDirectory u0) = false → inSync u w →
     ∃ w1, initialize u0 w = (Resolved (withOperations u0 (operations u)), w1)
           ∧ inSync (withOperations u0 (operations u)) w1
           ∧ store w1 = store w)
  ∧ (unwritable w (backupDirectory u0) = false → history w = None →
     ∃ w1, initialize u0 w = (Resolved (withOperations u0 []), w1)
           ∧ store w1 = store w
           ∧ history w1 = None)
  ∧ (unwritable w (backupDirectory u0) = true →
     ∃ w1, initialize u0 w = (Resolved u0, w1)
           ∧ store w1 = store w
           ∧ history w1 = history w
           ∧ logged w1
             = logged w ++ [(ERROR, "Failed to initialize undo system")]).
Proof.
  unfold inSync. split; [|split; [|split; [|split; [|split; [|split]]]]].
  - intros action originalPath backupPath newPath i.
    apply recordOperation_history.
  - intros operationId Hrun.
    destruct (undo_is_all_or_nothing_core u operationId w)
      as (ok & u1 & w1 & Heq & _ & _ & Htrue).
    rewrite Hrun in Heq. injection Heq as <- <- <-.
    destruct (Htrue eq_refl) as (_ & _ & _ & _ & _ & _ & _ & Hok & Hfail).
    split; [exact Hok|]. intros Hf. exact (proj1 (Hfail Hf)).
  - intros operationId Hrun.
    destruct (undo_is_all_or_nothing_core u operationId w)
      as (ok & u1 & w1 & Heq & _ & Hfalse & _).
    rewrite Hrun in Heq. injection Heq as <- <- <-.
    destruct (Hfalse eq_refl) as (-> & _ & ->). split; reflexivity.
  - destruct (clear_history_outcome u w) as (w1 & Heq & _ & Hok & Hfail & _).
    rewrite Heq. intros [= <- <-]. split; assumption.
  - intros Hfree Hsync.
    unfold initialize, tryCatch, iobind, mkdir, loadHistory.
    rewrite Hfree, Hsync.
    cbn. eexists. split; [reflexivity|]. split; [exact Hsync|reflexivity].
  - intros Hfree Hnone.
    unfold initialize, tryCatch, iobind, mkdir, loadHistory.
    rewrite Hfree, Hnone.
    cbn. eexists. split; [reflexivity|]. split; [reflexivity|exact Hnone].
  - intros Hrefused.
    unfold initialize, tryCatch, iobind, mkdir. rewrite Hrefused.
    cbn. eexists. split; [reflexivity|]. repeat split; reflexivity.
Qed.

(** ** The ignore rules *)

Lemma shouldIgnore_from (rules : list GitignoreRule.t) (filePath : string)
    (isDir acc : bool) :
  fold_left
    (fun isIgnored rule =>
       if GitignoreRule.isDirectory rule && negb isDir then isIgnored
       else if test (GitignoreRule.regex rule) (replaceChar "\" "/" filePath)
            then negb (GitignoreRule.isNegation rule)
            else isIgnored)
    rules acc
  = if existsb (fun rule => ruleDecides rule filePath isDir) rules
    then shouldIgnore rules filePath isDir
    else acc.
Proof.
  unfold shouldIgnore.
  set (step := fun (isIgnored : bool) (rule : GitignoreRule.t) =>
         if GitignoreRule.isDirectory rule && negb isDir then isIgnored
         else if test (GitignoreRule.regex rule) (replaceChar "\" "/" filePath)
              then negb (GitignoreRule.isNegation rule)
              else isIgnored).
  revert acc.
  induction rules as [|r rs IH]; intros acc; [reflexivity|].
  cbn [fold_left existsb].
  rewrite (IH (step acc r)), (IH (step false r)).
  destruct (existsb (fun rule => ruleDecides rule filePath isDir) rs);
    [rewrite orb_true_r; reflexivity|].
  rewrite orb_false_r. unfold ruleDecides, step.
  destruct (GitignoreRule.isDirectory r && negb isDir); [reflexivity|].
  cbn [negb andb].
  destruct (test (GitignoreRule.regex r) (replaceChar "\" "/" filePath));
    reflexivity.
Qed.

(** X15: the last rule that applies decides.  The verdict of a list of
    rules followed by further rules is the verdict of the further rules
    when one of them applies to the path and matches it, and the verdict of
    the first list otherwise; without any rule that applies and matches,
    nothing is ignored; and a list of directory-only rules never ignores
    what is not a directory. *)
Theorem last_matching_rule_decides (rules later : list GitignoreRule.t)
    (filePath : string) (isDir : bool) :
  shouldIgnore (rules ++ later) filePath isDir
  = (if existsb (fun rule => ruleDecides rule filePath isDir) later
     then shouldIgnore later filePath isDir
     else shouldIgnore rules filePath isDir)
  ∧ (∀ rule,
       shouldIgnore (rules ++ [rule]) filePath isDir
       = if ruleDecides rule filePath isDir
         then negb (GitignoreRule.isNegation rule)
         else shouldIgnore rules filePath isDir)
  ∧ (existsb (fun rule => ruleDecides rule filePath isDir) rules = false →
     shouldIgnore rules filePath isDir = false)
  ∧ (Forall (fun rule => GitignoreRule.isDirectory rule = true) rules →
     shouldIgnore rules filePath false = false).
Proof.
  assert (Happ : ∀ later',
            shouldIgnore (rules ++ later') filePath isDir
            = if existsb (fun rule => ruleDecides rule filePath isDir) later'
              then shouldIgnore later' filePath isDir
              else shouldIgnore rules filePath isDir).
  { intros later'. unfold shouldIgnore at 1. rewrite fold_left_app.
    apply shouldIgnore_from. }
  split; [apply Happ|]. split; [|split].
  - intros rule. rewrite Happ. cbn [existsb]. rewrite orb_false_r.
    unfold ruleDecides, shouldIgnore. cbn [fold_left].
    destruct (GitignoreRule.isDirectory rule && negb isDir); [reflexivity|].
    cbn [negb andb].
    destruct (test (GitignoreRule.regex rule) (replaceChar "\" "/" filePath));
      reflexivity.
  - intros Hnone. unfold shouldIgnore.
    rewrite shouldIgnore_from, Hnone. reflexivity.
  - intros Hall. unfold shouldIgnore.
    rewrite shouldIgnore_from.
    replace (existsb (fun rule => ruleDecides rule filePath false) rules)
      with false; [reflexivity|].
    symmetry. clear Happ. induction Hall as [|r rs Hr _ IH]; [reflexivity|].
    cbn [existsb]. rewrite IH. unfold ruleDecides. rewrite Hr. reflexivity.
Qed.

Lemma splitOn_cons (sep : ascii) (s : string) :
  ∃ w ws, splitOn sep s = w :: ws.
Proof.
  induction s as [|c r (w & ws & IH)]; simpl; [eauto|].
  destruct (Ascii.eqb c sep); [eauto|]. rewrite IH. eauto.
Qed.

Lemma splitOn_app (sep : ascii) (a b : string) :
  splitOn sep (a +:+ String sep b) = splitOn sep a ++ splitOn sep b.
Proof.
  induction a as [|c r IH].
  - rewrite string_app_nil. simpl. rewrite Ascii.eqb_refl. reflexivity.
  - rewrite string_app_cons. simpl. rewrite IH.
    destruct (Ascii.eqb c sep); [reflexivity|].
    destruct (splitOn_cons sep r) as (w & ws & ->). reflexivity.
Qed.

Lemma splitOn_whole (sep : ascii) (s : string) :
  (∀ c, In c (list_ascii_of_string s) → c ≠ sep) → splitOn sep s = [s].
Proof.
  induction s as [|c r IH]; intros Hno; [reflexivity|].
  simpl. destruct (Ascii.eqb_spec c sep) as [->|_].
  - exfalso. apply (Hno sep); [left; reflexivity|reflexivity].
  - rewrite IH; [reflexivity|]. intros c' Hc'. apply Hno. right. exact Hc'.
Qed.

Lemma noNewline_whole (s : string) :
  noNewline s = true → splitOn "010" s = [s].
Proof.
  induction s as [|c r IH]; [reflexivity|]. simpl.
  destruct (Ascii.eqb c "010"); [discriminate|].
  intros Hr. rewrite (IH Hr). reflexivity.
Qed.

Lemma rulesOfLines_app (l1 l2 : list string) :
  rulesOfLines (l1 ++ l2) = bothRules (rulesOfLines l1) (rulesOfLines l2).
Proof.
  induction l1 as [|line rest IH]; simpl.
  - destruct (rulesOfLines l2); reflexivity.
  - destruct (String.eqb (trim line) "" || startsWith (trim line) "#");
      [exact IH|].
    rewrite IH.
    destruct (parseRule (trim line)) as [rule|];
      destruct (rulesOfLines rest) as [rs|];
      destruct (rulesOfLines l2) as [rs'|]; reflexivity.
Qed.

Lemma bothRules_nil_r (a : option (list GitignoreRule.t)) :
  bothRules a (Some []) = a.
Proof. destruct a as [rs|]; [|reflexivity]. simpl. rewrite app_nil_r. reflexivity. Qed.

(** X16: ignore files compose.  The rules of a content followed, on a
    new line, by another content are the rules of the first followed by
    the rules of the second, which is what combining two readable ignore
    files gives; a further line that is blank or a comment adds no rule;
    and an ignore file that cannot be read contributes no rule. *)
Theorem ignore_files_compose (d : Disk) (a b : string) :
  fromContent (a +:+ String "010" b)
  = bothRules (fromContent a) (fromContent b)
  ∧ (∀ line,
       noNewline line = true →
       trim line = "" ∨ startsWith (trim line) "#" = true →
       fromContent (a +:+ String "010" line) = fromContent a)
  ∧ (∀ f1 f2,
       disk_read d f1 = Some a → disk_read d f2 = Some b →
       combineRules d [f1; f2] = fromContent (a +:+ String "010" b))
  ∧ (∀ f1 f2,
       disk_read d f1 = None → disk_read d f2 = Some b →
       combineRules d [f1; f2] = fromContent b).
Proof.
  assert (Happ : ∀ b', fromContent (a +:+ String "010" b')
                       = bothRules (fromContent a) (fromContent b')).
  { intros b'. unfold fromContent. rewrite splitOn_app. apply rulesOfLines_app. }
  split; [apply Happ|]. split; [|split].
  - intros line Hline Hskip. rewrite Happ.
    replace (fromContent line) with (Some (@nil GitignoreRule.t));
      [apply bothRules_nil_r|].
    unfold fromContent. rewrite (noNewline_whole line Hline). simpl.
    destruct Hskip as [-> | ->]; [reflexivity|].
    rewrite orb_true_r. reflexivity.
  - intros f1 f2 H1 H2. rewrite Happ. simpl. unfold fromFile. rewrite H1, H2.
    destruct (fromContent a) as [rs|]; destruct (fromContent b) as [rs'|];
      simpl; try reflexivity. rewrite app_nil_r. reflexivity.
  - intros f1 f2 H1 H2. simpl. unfold fromFile. rewrite H1, H2.
    destruct (fromContent b) as [rs'|]; simpl; [|reflexivity].
    rewrite app_nil_r. reflexivity.
Qed.

(** ** The rule of a plain name *)

Lemma quantified_safe (a : Regex) (s : string) :
  safeStart s = true → quantified a s = Some (a, s).
Proof.
  destruct s as [|c r]; [reflexivity|].
  destruct c as [[] [] [] [] [] [] [] []]; try discriminate; reflexivity.
Qed.

Lemma parse_plainChar (c : ascii) (fuel : nat) (rest : string) (acc : Regex) :
  literalChar c = true → c ≠ "."%char →
  parseDisjunction (S fuel) (String c rest) acc
  = match quantified (RChar c) rest with
    | Some (q, rest') => parseDisjunction fuel rest' (RSeq acc q)
    | None => None
    end.
Proof.
  destruct c as [[] [] [] [] [] [] [] []]; try discriminate;
    try (intros _ H; exfalso; apply H; reflexivity); reflexivity.
Qed.

Lemma escape_plainChar (c : ascii) (r : string) :
  literalChar c = true →
  escapeSpecial (String c r)
  = if Ascii.eqb c "." then String "\" (String "." (escapeSpecial r))
    else String c (escapeSpecial r).
Proof.
  destruct c as [[] [] [] [] [] [] [] []]; try discriminate; reflexivity.
Qed.

Lemma safeStart_escape (p tail : string) :
  literalText p = true → safeStart tail = true →
  safeStart (escapeSpecial p +:+ tail) = true.
Proof.
  destruct p as [|c r]; [intros _ H; rewrite string_app_nil; exact H|].
  cbn [literalText]. intros [Hc _]%andb_prop _.
  rewrite (escape_plainChar c r Hc).
  destruct c as [[] [] [] [] [] [] [] []]; try discriminate; reflexivity.
Qed.

Lemma parse_plainName (p : string) :
  literalText p = true →
  ∀ n acc tail,
    safeStart tail = true →
    parseDisjunction (n + String.length p) (escapeSpecial p +:+ tail) acc
    = parseDisjunction n tail (litSeq acc p).
Proof.
  induction p as [|c r IH]; intros Hp n acc tail Htail.
  - rewrite Nat.add_0_r. reflexivity.
  - simpl in Hp. apply andb_prop in Hp as [Hc Hr].
    rewrite (escape_plainChar c r Hc).
    replace (n + String.length (String c r))%nat
      with (S (n + String.length r)) by (simpl; lia).
    destruct (Ascii.eqb_spec c ".") as [->|Hdot].
    + rewrite !string_app_cons.
      change (parseDisjunction (S (n + String.length r))
                (String "\" (String "." (escapeSpecial r +:+ tail))) acc)
        with (match quantified (RChar ".") (escapeSpecial r +:+ tail) with
              | Some (q, rest') =>
                  parseDisjunction (n + String.length r) rest' (RSeq acc q)
              | None => None
              end).
      rewrite quantified_safe by (apply safeStart_escape; assumption).
      apply (IH Hr n (RSeq acc (RChar ".")) tail Htail).
    + rewrite string_app_cons, (parse_plainChar c _ _ _ Hc Hdot).
      rewrite quantified_safe by (apply safeStart_escape; assumption).
      apply (IH Hr n (RSeq acc (RChar c)) tail Htail).
Qed.

Lemma escape_length (p : string) :
  (String.length p <= String.length (escapeSpecial p))%nat.
Proof.
  induction p as [|c r IH]; simpl; [lia|].
  destruct (_ || _); simpl; lia.
Qed.

Lemma passes_cons (c : ascii) (s : string) :
  Ascii.eqb c "?" = false → Ascii.eqb c "*" = false →
  passes s → passes (String c s).
Proof.
  unfold passes. intros Hq Hs Hp. cbn [replaceChar]. rewrite Hq.
  assert (Hstar : ∀ t, replaceStarStar ".*" (String c t)
                       = String c (replaceStarStar ".*" t)).
  { intros t. destruct c as [[] [] [] [] [] [] [] []];
      try discriminate; reflexivity. }
  rewrite Hstar. cbn [replaceChar]. rewrite Hs, Hp. reflexivity.
Qed.

Lemma escape_passes (p : string) : literalText p = true → passes (escapeSpecial p).
Proof.
  induction p as [|c r IH]; [reflexivity|].
  cbn [literalText]. intros [Hc Hr]%andb_prop.
  rewrite (escape_plainChar c r Hc).
  destruct (Ascii.eqb_spec c ".") as [->|_].
  - apply passes_cons; [reflexivity|reflexivity|].
    apply passes_cons; [reflexivity|reflexivity|exact (IH Hr)].
  - apply passes_cons; [| |exact (IH Hr)];
      destruct c as [[] [] [] [] [] [] [] []]; try discriminate; reflexivity.
Qed.

Lemma plainName_no_slash_start (p : string) :
  plainName p = true → startsWith p "/" = false ∧ startsWith p "!" = false.
Proof.
  destruct p as [|c r]; [split; reflexivity|].
  cbn [plainName]. intros [Hc _]%andb_prop.
  destruct c as [[] [] [] [] [] [] [] []]; try discriminate; split; reflexivity.
Qed.

Lemma plainName_literal (p : string) : plainName p = true → literalText p = true.
Proof.
  induction p as [|c r IH]; [reflexivity|]. cbn [plainName literalText].
  intros [Hc Hr]%andb_prop. unfold literalChar. rewrite Hc, (IH Hr). reflexivity.
Qed.

Lemma patternSource_plain (p : string) :
  plainName p = true →
  patternSource p = "(^|/)" +:+ escapeSpecial p +:+ "(/.*)?$".
Proof.
  intros Hp. unfold patternSource.
  destruct (plainName_no_slash_start p Hp) as [-> _].
  pose proof (escape_passes p (plainName_literal p Hp)) as Hpass. unfold passes in Hpass.
  rewrite Hpass. apply string_app_assoc.
Qed.

Lemma parse_group (f : nat) (c : ascii) (rest : string) (acc : Regex) :
  c ≠ "?"%char →
  parseDisjunction (S f) (String "(" (String c rest)) acc
  = match parseDisjunction f (String c rest) REmpty with
    | Some (r, String ")" rest') =>
        match quantified r rest' with
        | Some (q, rest'') => parseDisjunction f rest'' (RSeq acc q)
        | None => None
        end
    | _ => None
    end.
Proof.
  intros Hc.
  destruct c as [[] [] [] [] [] [] [] []];
    try (exfalso; apply Hc; reflexivity); reflexivity.
Qed.

Lemma parse_segmentStart (f : nat) (Y : string) :
  (4 <= f)%nat →
  parseDisjunction f (String "^" (String "|" (String "/" (String ")" Y)))) REmpty
  = Some (segmentStart, String ")" Y).
Proof.
  destruct f as [|[|[|[|g]]]]; try lia. intros _. reflexivity.
Qed.

Lemma parse_segmentEnd (n : nat) (acc : Regex) :
  (5 <= n)%nat →
  parseDisjunction n "(/.*)?$" acc
  = Some (RSeq (RSeq acc segmentEnd) REol, "").
Proof.
  destruct n as [|[|[|[|[|g]]]]]; try lia. intros _. reflexivity.
Qed.

Lemma patternToRegex_plain (p : string) :
  plainName p = true → patternToRegex p = Some (literalRegex p).
Proof.
  intros Hp. unfold patternToRegex, RegExp.
  rewrite (patternSource_plain p Hp).
  pose proof (escape_length p) as Hlen.
  assert (Hfuel : String.length ("(^|/)" +:+ escapeSpecial p +:+ "(/.*)?$")
                  = ((12 + (String.length (escapeSpecial p) - String.length p))
                     + String.length p)%nat).
  { rewrite !string_length_app. simpl. lia. }
  rewrite Hfuel. clear Hfuel.
  repeat (rewrite string_app_cons || rewrite string_app_nil).
  rewrite parse_group by discriminate.
  rewrite parse_segmentStart by lia.
  rewrite quantified_safe
    by (apply safeStart_escape; [exact (plainName_literal p Hp)|reflexivity]).
  rewrite (parse_plainName p (plainName_literal p Hp)) by reflexivity.
  rewrite parse_segmentEnd by lia.
  reflexivity.
Qed.

Lemma litSeq_match (body : string) :
  ∀ acc b s k, matchRe (litSeq acc body) b s k = matchRe acc b s (lit body k).
Proof.
  induction body as [|c r IH]; intros acc b s k; [reflexivity|].
  cbn [litSeq]. rewrite IH. reflexivity.
Qed.

Lemma lit_true (body : string) (k : bool → string → bool) (b : bool) (s : string) :
  lit body k b s = true ↔
  ∃ rest, s = body +:+ rest ∧ k (startAfter body b) rest = true.
Proof.
  revert b s. induction body as [|c r IH]; intros b s.
  - cbn [lit startAfter]. split.
    + intros Hk. exists s. rewrite string_app_nil. auto.
    + intros (rest & -> & Hk). rewrite string_app_nil. exact Hk.
  - cbn [lit startAfter]. destruct s as [|c' s'].
    + split; [discriminate|]. intros (rest & Heq & _).
      rewrite string_app_cons in Heq. discriminate.
    + rewrite andb_true_iff, IH. split.
      * intros [Hc (rest & -> & Hk)]. apply Ascii.eqb_eq in Hc as ->.
        exists rest. rewrite string_app_cons. split; [reflexivity|].
        destruct r; exact Hk.
      * intros (rest & Heq & Hk). rewrite string_app_cons in Heq.
        injection Heq as -> ->. split; [apply Ascii.eqb_refl|].
        exists rest. split; [reflexivity|]. destruct r; exact Hk.
Qed.

Lemma star_any_to_end (s : string) :
  ∀ n b, (String.length s <= n)%nat →
    starLoop (matchRe RAny)
      (fun b' s' => matchRe REol b' s' (fun _ _ => true)) n b s
    = noLineTerminator s.
Proof.
  induction s as [|c r IH]; intros n b Hn.
  - destruct n; reflexivity.
  - destruct n as [|n']; [simpl in Hn; lia|].
    cbn [starLoop matchRe noLineTerminator orb].
    rewrite IH by (simpl in Hn; lia).
    replace (String.length r <? String.length (String c r))%nat with true
      by (symmetry; apply Nat.ltb_lt; simpl; lia).
    reflexivity.
Qed.

Lemma segmentEnd_match (b : bool) (s : string) :
  matchRe segmentEnd b s (fun b' s' => matchRe REol b' s' (fun _ _ => true))
  = true
  ↔ s = "" ∨ ∃ s', s = "/" +:+ s' ∧ noLineTerminator s' = true.
Proof.
  unfold segmentEnd. cbn [matchRe].
  destruct s as [|c r].
  - split; [left; reflexivity|reflexivity].
  - rewrite orb_false_r, andb_true_iff, star_any_to_end by lia. split.
    + intros [Hc Hr]. apply Ascii.eqb_eq in Hc as <-.
      right. exists r. split; [reflexivity|exact Hr].
    + intros [H|(s' & Heq & Hr)]; [discriminate|].
      rewrite string_app_cons, string_app_nil in Heq.
      injection Heq as -> ->. split; [reflexivity|exact Hr].
Qed.

Lemma literalRegex_match (p : string) (b : bool) (s : string) :
  matchRe (literalRegex p) b s (fun _ _ => true) = true ↔
  (b = true ∧ ∃ post, s = p +:+ post
     ∧ (post = "" ∨ ∃ s', post = "/" +:+ s' ∧ noLineTerminator s' = true))
  ∨ (∃ post, s = "/" +:+ p +:+ post
       ∧ (post = "" ∨ ∃ s', post = "/" +:+ s' ∧ noLineTerminator s' = true)).
Proof.
  pose (K := lit p (fun b1 s1 =>
                      matchRe segmentEnd b1 s1
                        (fun b2 s2 => matchRe REol b2 s2 (fun _ _ => true)))).
  assert (Hshape :
    matchRe (literalRegex p) b s (fun _ _ => true)
    = (b && K b s)
      || match s with
         | String c' s' => Ascii.eqb "/" c' && K false s'
         | EmptyString => false
         end).
  { unfold literalRegex.
    change (matchRe (RSeq (RSeq (litSeq (RSeq REmpty segmentStart) p)
                             segmentEnd) REol) b s (fun _ _ => true))
      with (matchRe (litSeq (RSeq REmpty segmentStart) p) b s
              (fun b1 s1 =>
                 matchRe segmentEnd b1 s1
                   (fun b2 s2 => matchRe REol b2 s2 (fun _ _ => true)))).
    rewrite litSeq_match. reflexivity. }
  rewrite Hshape. clear Hshape.
  assert (HK : ∀ b' s', K b' s' = true ↔
                ∃ post, s' = p +:+ post
                  ∧ (post = "" ∨ ∃ t, post = "/" +:+ t
                                      ∧ noLineTerminator t = true)).
  { intros b' s'. unfold K. rewrite lit_true.
    split; intros (post & Heq & Hpost); exists post; (split; [exact Heq|]);
      apply (segmentEnd_match (startAfter p b') post); exact Hpost. }
  rewrite orb_true_iff, andb_true_iff, HK.
  assert (Hsecond :
    match s with
    | String c' s' => Ascii.eqb "/" c' && K false s'
    | EmptyString => false
    end = true
    ↔ ∃ post, s = "/" +:+ p +:+ post
        ∧ (post = "" ∨ ∃ t, post = "/" +:+ t ∧ noLineTerminator t = true)).
  { destruct s as [|c r].
    - split; [discriminate|]. intros (post & Heq & _).
      rewrite string_app_cons in Heq. discriminate.
    - rewrite andb_true_iff, HK. split.
      + intros [Hc (post & -> & Hpost)]. apply Ascii.eqb_eq in Hc as <-.
        exists post. split; [reflexivity|exact Hpost].
      + intros (post & Heq & Hpost).
        rewrite string_app_cons, string_app_nil in Heq.
        injection Heq as -> ->. split; [reflexivity|].
        exists post. split; [reflexivity|exact Hpost]. }
  rewrite Hsecond. reflexivity.
Qed.

Lemma startAfter_true (pre : string) : startAfter pre true = true ↔ pre = "".
Proof. destruct pre; simpl; split; congruence. Qed.

Lemma literalRegex_test (p s : string) :
  test (literalRegex p) s = true ↔ atSegment p s.
Proof.
  unfold test. rewrite searchFrom_iff. unfold atSegment. split.
  - intros (pre & suf & -> & Hm).
    apply literalRegex_match in Hm as [[Hb (post & -> & Hpost)]|(post & -> & Hpost)].
    + apply startAfter_true in Hb as ->.
      exists "", post. rewrite !string_app_nil. auto.
    + exists (pre +:+ "/"), post. split; [|split; [right; eauto|exact Hpost]].
      rewrite !string_app_assoc. reflexivity.
  - intros (pre & post & -> & [->|(pre' & ->)] & Hpost).
    + exists "", (p +:+ post). split; [reflexivity|].
      apply literalRegex_match. left. split; [reflexivity|]. eauto.
    + exists pre', ("/" +:+ p +:+ post).
      split; [rewrite !string_app_assoc; reflexivity|].
      apply literalRegex_match. right. eauto.
Qed.

Lemma plainName_ends (p : string) :
  plainName p = true →
  endsWith p "/" = false
  ∧ endsWith (p +:+ "/") "/" = true
  ∧ dropLast (p +:+ "/") = p
  ∧ startsWith (p +:+ "/") "!" = false.
Proof.
  induction p as [|c r IH]; [repeat split; reflexivity|].
  cbn [plainName]. intros [Hc Hr]%andb_prop.
  destruct (IH Hr) as (H1 & H2 & H3 & _).
  rewrite string_app_cons. cbn [endsWith dropLast].
  destruct r as [|c' r'].
  - rewrite string_app_nil.
    destruct c as [[] [] [] [] [] [] [] []]; try discriminate;
      repeat split; reflexivity.
  - rewrite string_app_cons in *. rewrite H1, H2, H3. repeat split.
    destruct c as [[] [] [] [] [] [] [] []]; try discriminate; reflexivity.
Qed.

Lemma parseRule_plain (p : string) :
  plainName p = true →
  parseRule p = Some (GitignoreRule.mk p false false (literalRegex p)).
Proof.
  intros Hp. unfold parseRule.
  destruct (plainName_no_slash_start p Hp) as [_ ->].
  destruct (plainName_ends p Hp) as (-> & _).
  rewrite (patternToRegex_plain p Hp). reflexivity.
Qed.

(** X17: the rule of a plain name.  A pattern made of letters, digits,
    [-], [_] and [.] is inside the fragment, and its expression matches a
    path exactly when the name occurs in it as whole segments: at the
    start of the path or after a separator, and up to the end of the path
    or to a separator (with no line break after it).  The patterns [!name]
    and [name/] give the same expression, as a negation and as a
    directory-only rule. *)
Theorem plain_name_matches_whole_segments (p : string) :
  plainName p = true →
  ∃ regex,
    patternToRegex p = Some regex
    ∧ (∀ s, test regex s = true ↔ atSegment p s)
    ∧ parseRule p = Some (GitignoreRule.mk p false false regex)
    ∧ parseRule ("!" +:+ p) = Some (GitignoreRule.mk p true false regex)
    ∧ parseRule (p +:+ "/") = Some (GitignoreRule.mk p false true regex)
    ∧ (∀ filePath isDir,
         shouldIgnore [GitignoreRule.mk p false false regex] filePath isDir
         = true
         ↔ atSegment p (replaceChar "\" "/" filePath)).
Proof.
  intros Hp. exists (literalRegex p).
  pose proof (patternToRegex_plain p Hp) as Hre.
  destruct (plainName_no_slash_start p Hp) as [_ Hbang].
  destruct (plainName_ends p Hp) as (Hend & Hend' & Hdrop & Hbang').
  split; [exact Hre|]. split; [apply literalRegex_test|].
  split; [|split; [|split]].
  - unfold parseRule. rewrite Hbang, Hend, Hre. reflexivity.
  - unfold parseRule. rewrite string_app_cons, string_app_nil.
    replace (startsWith (String "!" p) "!") with true
      by (destruct p; reflexivity).
    cbn [dropFirst]. rewrite Hend, Hre. reflexivity.
  - unfold parseRule. rewrite Hbang', Hend', Hdrop, Hre. reflexivity.
  - intros filePath isDir. unfold shouldIgnore. cbn.
    rewrite <- literalRegex_test.
    destruct (test (literalRegex p) (replaceChar "\" "/" filePath));
      split; congruence.
Qed.

Lemma plain_name_matches_whole_segments_witness :
  ∃ regex,
    patternToRegex "node_modules" = Some regex
    ∧ (∀ s, test regex s = true ↔ atSegment "node_modules" s)
    ∧ parseRule "node_modules"
      = Some (GitignoreRule.mk "node_modules" false false regex)
    ∧ parseRule ("!" +:+ "node_modules")
      = Some (GitignoreRule.mk "node_modules" true false regex)
    ∧ parseRule ("node_modules" +:+ "/")
      = Some (GitignoreRule.mk "node_modules" false true regex)
    ∧ (∀ filePath isDir,
         shouldIgnore [GitignoreRule.mk "node_modules" false false regex]
           filePath isDir = true
         ↔ atSegment "node_modules" (replaceChar "\" "/" filePath)).
Proof.
  apply (plain_name_matches_whole_segments "node_modules"). reflexivity.
Defined.

(** ** The walk *)

Lemma walkEntry_eq rules o d directory currentDepth (e : Dirent) :
  walkEntry rules o d directory currentDepth e
  = if passedOver rules o directory e then []
    else join directory (entryName e)
         :: flat_map (walkEntry rules o d (join directory (entryName e))
                        (S currentDepth))
              (descent o d (join directory (entryName e)) currentDepth e).
Proof.
  unfold passedOver.
  destruct e as [nm listing|nm|nm listing|nm];
    cbn [walkEntry entryName entryIsDirectory descent];
    destruct (negb (ScanOptions.includeHidden o) && startsWith nm ".");
    cbn [orb]; try reflexivity;
    match goal with
    | |- context [shouldIgnore ?r ?q ?b] => destruct (shouldIgnore r q b)
    end; try reflexivity.
  - destruct (depthReached o (S currentDepth)); [reflexivity|].
    destruct listing as [es|]; [|reflexivity].
    rewrite descend_each. reflexivity.
  - destruct (ScanOptions.followSymlinks o); [|reflexivity].
    destruct (disk_stat d (join directory nm)) as [stats|]; [|reflexivity].
    destruct (st_isDirectory stats); [|reflexivity].
    destruct (depthReached o (S currentDepth)); [reflexivity|].
    destruct listing as [es|]; [|reflexivity].
    rewrite descend_each. reflexivity.
Qed.

Lemma descent_listed o d fullPath currentDepth (e e' : Dirent) :
  e' ∈ descent o d fullPath currentDepth e →
  depthReached o (S currentDepth) = false
  ∧ ∃ es, listingOf e = Some es ∧ e' ∈ es.
Proof.
  destruct e as [nm listing|nm|nm listing|nm]; cbn [descent listingOf];
    try (intros H; inversion H; fail).
  - destruct (depthReached o (S currentDepth)); [intros H; inversion H|].
    destruct listing as [es|]; [|intros H; inversion H]. eauto.
  - destruct (ScanOptions.followSymlinks o); [|intros H; inversion H].
    destruct (disk_stat d fullPath) as [stats|]; [|intros H; inversion H].
    destruct (st_isDirectory stats); [|intros H; inversion H].
    destruct (depthReached o (S currentDepth)); [intros H; inversion H|].
    destruct listing as [es|]; [|intros H; inversion H]. eauto.
Qed.

Lemma walk_ind (P : Dirent → Prop) :
  (∀ e, (∀ es e', listingOf e = Some es → e' ∈ es → P e') → P e) →
  ∀ e, P e.
Proof.
  intros Hstep e.
  induction e as [nm listing IH|nm|nm listing IH|nm] using Dirent_nested_ind;
    apply Hstep; cbn [listingOf]; intros es e' Hl Hin; try discriminate;
    specialize (IH es Hl); rewrite Forall_forall in IH; exact (IH e' Hin).
Qed.

Lemma walkEntry_elem rules o d directory currentDepth (e : Dirent) p :
  p ∈ walkEntry rules o d directory currentDepth e ↔
  passedOver rules o directory e = false
  ∧ (p = join directory (entryName e)
     ∨ ∃ e', e' ∈ descent o d (join directory (entryName e)) currentDepth e
             ∧ p ∈ walkEntry rules o d (join directory (entryName e))
                     (S currentDepth) e').
Proof.
  rewrite walkEntry_eq.
  destruct (passedOver rules o directory e).
  - split; [intros H; inversion H|intros [H _]; discriminate].
  - rewrite elem_of_cons. split.
    + intros [->|Hin]; (split; [reflexivity|]); [left; reflexivity|].
      right. apply list_elem_of_In, in_flat_map in Hin as (e' & He' & Hp).
      exists e'. split; apply list_elem_of_In; assumption.
    + intros [_ [->|(e' & He' & Hp)]]; [left; reflexivity|].
      right. apply list_elem_of_In, in_flat_map.
      exists e'. split; apply list_elem_of_In; assumption.
Qed.

Lemma flat_map_agree {A B} (f g : A → list B) (l : list A) :
  (∀ a, a ∈ l → f a = g a) → flat_map f l = flat_map g l.
Proof.
  induction l as [|a r IH]; intros H; [reflexivity|]. simpl.
  rewrite (H a) by left. rewrite IH; [reflexivity|].
  intros a' Ha'. apply H. right. exact Ha'.
Qed.

Lemma walkEntry_agree rules (o1 o2 : ScanOptions.t) d :
  ScanOptions.directory o1 = ScanOptions.directory o2 →
  ScanOptions.includeHidden o1 = ScanOptions.includeHidden o2 →
  ScanOptions.followSymlinks o1 = ScanOptions.followSymlinks o2 →
  (∀ c, depthReached o1 c = depthReached o2 c) →
  ∀ e directory currentDepth,
    walkEntry rules o1 d directory currentDepth e
    = walkEntry rules o2 d directory currentDepth e.
Proof.
  intros Hdir Hhid Hsym Hdepth e.
  induction e as [e IH] using walk_ind. intros directory currentDepth.
  rewrite !walkEntry_eq.
  assert (Hpass : passedOver rules o1 directory e = passedOver rules o2 directory e).
  { unfold passedOver. rewrite Hdir, Hhid. reflexivity. }
  assert (Hdesc : descent o1 d (join directory (entryName e)) currentDepth e
                  = descent o2 d (join directory (entryName e)) currentDepth e).
  { unfold descent. rewrite Hsym, Hdepth. reflexivity. }
  rewrite Hpass, Hdesc. destruct (passedOver rules o2 directory e); [reflexivity|].
  f_equal. apply flat_map_agree. intros e' He'.
  apply descent_listed in He' as (_ & es & Hl & Hin).
  apply (IH es e' Hl Hin).
Qed.

(** X18: a depth limit of 0 does not limit.  Scanning with [maxDepth]
    set to 0 gives what scanning without [maxDepth] gives, the walk going
    as deep as the tree. *)
Theorem depth_zero_is_no_limit (h : Host) (o : ScanOptions.t) (d : Disk)
    (n : nat) :
  getFilePathsNative (withMaxDepth o (Some 0)) d
  = getFilePathsNative (withMaxDepth o None) d
  ∧ scan h (withMaxDepth o (Some 0)) d n = scan h (withMaxDepth o None) d n.
Proof.
  assert (Hpaths : getFilePathsNative (withMaxDepth o (Some 0)) d
                   = getFilePathsNative (withMaxDepth o None) d).
  { unfold getFilePathsNative, withMaxDepth. cbn [ScanOptions.directory].
    destruct (createCombinedParser d (ScanOptions.directory o)) as [rules|];
      [|reflexivity].
    f_equal. unfold scanDirectory. cbn [depthReached ScanOptions.maxDepth].
    change (negb (0 =? 0) && (0 <=? Z.of_nat 0)) with false. cbn iota.
    destruct (disk_readdir d (ScanOptions.directory o)) as [es|]; [|reflexivity].
    apply flat_map_ext. intros e.
    apply walkEntry_agree; reflexivity. }
  split; [exact Hpaths|].
  unfold scan. rewrite Hpaths. reflexivity.
Qed.

Lemma walkEntry_shape rules o d (e : Dirent) :
  ∀ directory currentDepth p,
    p ∈ walkEntry rules o d directory currentDepth e →
    ∃ below,
      p = pathFrom directory (entryName <$> e :: below)
      ∧ keptChain rules o d directory currentDepth (e :: below).
Proof.
  induction e as [e IH] using walk_ind. intros directory currentDepth p.
  rewrite walkEntry_elem. intros [Hpass [->|(e' & He' & Hp)]].
  - exists []. split; [reflexivity|]. cbn [keptChain]. auto.
  - pose proof He' as Hdesc.
    apply descent_listed in He' as (_ & es & Hl & Hin).
    destruct (IH es e' Hl Hin (join directory (entryName e)) (S currentDepth) p
                Hp) as (below & -> & Hchain).
    exists (e' :: below). split; [reflexivity|].
    cbn [keptChain]. split; [exact Hpass|]. split; [exact Hdesc|exact Hchain].
Qed.

Lemma walkEntry_reached rules o d (below : list Dirent) :
  ∀ (e : Dirent) directory currentDepth,
    keptChain rules o d directory currentDepth (e :: below) →
    pathFrom directory (entryName <$> e :: below)
    ∈ walkEntry rules o d directory currentDepth e.
Proof.
  induction below as [|e' rest IH]; intros e directory currentDepth;
    cbn [keptChain]; intros (Hpass & Hnext & Hrest);
    apply walkEntry_elem; (split; [exact Hpass|]).
  - left. reflexivity.
  - right. exists e'. split; [exact Hnext|].
    exact (IH e' _ _ Hrest).
Qed.

Lemma keptChain_visible rules o d directory currentDepth
    (entries : list Dirent) :
  ScanOptions.includeHidden o = false →
  keptChain rules o d directory currentDepth entries →
  Forall (fun e => startsWith (entryName e) "." = false) entries.
Proof.
  intros Hhid. revert directory currentDepth.
  induction entries as [|e rest IH]; intros directory currentDepth;
    [constructor|].
  cbn [keptChain]. intros (Hpass & _ & Hrest).
  constructor; [|exact (IH _ _ Hrest)].
  unfold passedOver in Hpass. rewrite Hhid in Hpass.
  apply orb_false_elim in Hpass as [Hpass _]. exact Hpass.
Qed.

Lemma depthReached_limit o (c : nat) (m : Z) :
  depthReached o c = false →
  ScanOptions.maxDepth o = Some m → m ≠ 0 → Z.of_nat c < m.
Proof.
  unfold depthReached. intros Hreach Hmax Hm. rewrite Hmax in Hreach.
  destruct (Z.eqb_spec m 0) as [|_]; [contradiction|].
  cbn [negb andb] in Hreach. apply Z.leb_gt in Hreach. exact Hreach.
Qed.

Lemma keptChain_depth rules o d (below : list Dirent) :
  ∀ (e : Dirent) directory currentDepth (m : Z),
    depthReached o currentDepth = false →
    keptChain rules o d directory currentDepth (e :: below) →
    ScanOptions.maxDepth o = Some m → m ≠ 0 →
    Z.of_nat (currentDepth + length (e :: below)) <= m.
Proof.
  induction below as [|e' rest IH]; intros e directory currentDepth m Hreach;
    cbn [keptChain]; intros (_ & Hnext & Hrest) Hm Hne.
  - pose proof (depthReached_limit o currentDepth m Hreach Hm Hne).
    simpl. lia.
  - apply descent_listed in Hnext as (Hreach' & _).
    specialize (IH e' _ _ m Hreach' Hrest Hm Hne).
    simpl in *. lia.
Qed.

Lemma listed_chain (o : ScanOptions.t) (d : Disk) (paths : list string) :
  getFilePathsNative o d = Some paths →
  ∃ rules,
    createCombinedParser d (ScanOptions.directory o) = Some rules
    ∧ (∀ p,
         p ∈ paths ↔
         ∃ es e below,
           depthReached o 0 = false
           ∧ disk_readdir d (ScanOptions.directory o) = Some es
           ∧ e ∈ es
           ∧ p = pathFrom (ScanOptions.directory o) (entryName <$> e :: below)
           ∧ keptChain rules o d (ScanOptions.directory o) 0 (e :: below))
    ∧ (∀ e below,
         depthReached o 0 = false →
         keptChain rules o d (ScanOptions.directory o) 0 (e :: below) →
         (ScanOptions.includeHidden o = false →
          Forall (fun e => startsWith (entryName e) "." = false) (e :: below))
         ∧ (∀ m, ScanOptions.maxDepth o = Some m → m ≠ 0 →
              Z.of_nat (length (e :: below)) <= m)).
Proof.
  unfold getFilePathsNative.
  destruct (createCombinedParser d (ScanOptions.directory o)) as [rules|];
    [|discriminate].
  intros [= <-]. exists rules. split; [reflexivity|]. split.
  - intros p. unfold scanDirectory. split.
    + destruct (depthReached o 0); [intros H; inversion H|].
      destruct (disk_readdir d (ScanOptions.directory o)) as [es|];
        [|intros H; inversion H].
      intros Hp. apply list_elem_of_In, in_flat_map in Hp as (e & He & Hp).
      apply list_elem_of_In in He, Hp.
      destruct (walkEntry_shape rules o d e (ScanOptions.directory o) 0%nat p Hp)
        as (below & -> & Hchain).
      exists es, e, below.
      split; [reflexivity|]. split; [reflexivity|]. split; [exact He|].
      split; [reflexivity|exact Hchain].
    + intros (es & e & below & -> & -> & He & -> & Hchain).
      apply list_elem_of_In, in_flat_map. exists e.
      split; [apply list_elem_of_In, He|].
      apply list_elem_of_In, walkEntry_reached, Hchain.
  - intros e below Hreach Hchain. split.
    + intros Hhid. exact (keptChain_visible _ _ _ _ _ _ Hhid Hchain).
    + intros m Hm Hne.
      exact (keptChain_depth rules o d below e _ 0%nat m Hreach Hchain Hm Hne).
Qed.

(** X19: what the walk lists.  A path is listed exactly when it is
    reached from the root through a chain of at least one entry, the first
    listed in the root and each next one among the entries the walk goes
    on with below the one before it (the listing of a directory, or of a
    link when links are followed and the link leads to a directory, and
    only while the depth limit is not reached), no entry of the chain being
    passed over, that is, hidden while hidden entries are left out, or
    excluded by the combined ignore rules under its path relative to the
    root.  In such a chain no entry is hidden when hidden entries are left
    out, and under a depth limit other than 0 the chain is no longer than
    the limit.  So nothing is listed at or below an entry that is
    excluded. *)
Theorem listed_paths_respect_the_options (o : ScanOptions.t) (d : Disk)
    (paths : list string) :
  getFilePathsNative o d = Some paths →
  ∃ rules,
    createCombinedParser d (ScanOptions.directory o) = Some rules
    ∧ (∀ p,
         p ∈ paths ↔
         ∃ es e below,
           depthReached o 0 = false
           ∧ disk_readdir d (ScanOptions.directory o) = Some es
           ∧ e ∈ es
           ∧ p = pathFrom (ScanOptions.directory o) (entryName <$> e :: below)
           ∧ keptChain rules o d (ScanOptions.directory o) 0 (e :: below))
    ∧ (∀ e below,
         depthReached o 0 = false →
         keptChain rules o d (ScanOptions.directory o) 0 (e :: below) →
         (ScanOptions.includeHidden o = false →
          Forall (fun e => startsWith (entryName e) "." = false) (e :: below))
         ∧ (∀ m, ScanOptions.maxDepth o = Some m → m ≠ 0 →
              Z.of_nat (length (e :: below)) <= m)).
Proof. apply listed_chain. Qed.

Lemma listed_paths_respect_the_options_witness :
  ∃ rules,
    createCombinedParser projectDisk (ScanOptions.directory projectOptions)
    = Some rules
    ∧ (∀ p,
         p ∈ ["/r/src"; "/r/src/main.ts"; "/r/src/data.bin";
              "/r/lib"; "/r/lib/data.bin"] ↔
         ∃ es e below,
           depthReached projectOptions 0 = false
           ∧ disk_readdir projectDisk (ScanOptions.directory projectOptions)
             = Some es
           ∧ e ∈ es
           ∧ p = pathFrom (ScanOptions.directory projectOptions)
                   (entryName <$> e :: below)
           ∧ keptChain rules projectOptions projectDisk
               (ScanOptions.directory projectOptions) 0 (e :: below))
    ∧ (∀ e below,
         depthReached projectOptions 0 = false →
         keptChain rules projectOptions projectDisk
           (ScanOptions.directory projectOptions) 0 (e :: below) →
         (ScanOptions.includeHidden projectOptions = false →
          Forall (fun e => startsWith (entryName e) "." = false) (e :: below))
         ∧ (∀ m, ScanOptions.maxDepth projectOptions = Some m → m ≠ 0 →
              Z.of_nat (length (e :: below)) <= m)).
Proof.
  apply (listed_paths_respect_the_options projectOptions projectDisk
           ["/r/src"; "/r/src/main.ts"; "/r/src/data.bin";
            "/r/lib"; "/r/lib/data.bin"]).
  vm_compute. reflexivity.
Defined.

Lemma relative_root_entry (root nm : string) : relative root (join root nm) = nm.
Proof.
  rewrite (relative_join root root "" nm); [apply string_app_nil|].
  apply stripPrefix_self.
Qed.

(** X20: nothing at the top is lost, unless the depth limit is
    negative.  An entry of the root directory that is not hidden, or
    hidden while hidden entries are included, and that the ignore rules do
    not exclude under its own name, is listed with its path when there is
    no depth limit or the limit is 0 or more; under a negative limit
    nothing at all is listed. *)
Theorem root_entries_are_listed (o : ScanOptions.t) (d : Disk)
    (rules : list GitignoreRule.t) (es : list Dirent) (e : Dirent) :
  createCombinedParser d (ScanOptions.directory o) = Some rules →
  disk_readdir d (ScanOptions.directory o) = Some es →
  e ∈ es →
  ScanOptions.includeHidden o = true ∨ startsWith (entryName e) "." = false →
  shouldIgnore rules (entryName e) (entryIsDirectory e) = false →
  ((∀ m, ScanOptions.maxDepth o = Some m → 0 <= m) →
   ∃ paths,
     getFilePathsNative o d = Some paths
     ∧ join (ScanOptions.directory o) (entryName e) ∈ paths)
  ∧ (∀ m, ScanOptions.maxDepth o = Some m → m < 0 →
       getFilePathsNative o d = Some []).
Proof.
  intros Hrules Hlist Hin Hvisible Hkept.
  unfold getFilePathsNative. rewrite Hrules. unfold scanDirectory. split.
  - intros Hlimit. eexists. split; [reflexivity|].
    assert (Hdepth : depthReached o 0 = false).
    { unfold depthReached.
      destruct (ScanOptions.maxDepth o) as [m|]; [|reflexivity].
      specialize (Hlimit m eq_refl).
      destruct (Z.eqb_spec m 0) as [|Hne]; [reflexivity|].
      cbn [negb andb]. apply Z.leb_gt. simpl. lia. }
    rewrite Hdepth, Hlist. apply list_elem_of_In, in_flat_map.
    exists e. split; [apply list_elem_of_In; exact Hin|].
    apply list_elem_of_In, walkEntry_elem. split; [|left; reflexivity].
    unfold passedOver. rewrite relative_root_entry, Hkept, orb_false_r.
    destruct Hvisible as [-> | ->]; [reflexivity|apply andb_false_r].
  - intros m Hm Hneg.
    assert (Hdepth : depthReached o 0 = true).
    { unfold depthReached. rewrite Hm.
      destruct (Z.eqb_spec m 0) as [|_]; [lia|].
      cbn [negb andb]. apply Z.leb_le. simpl. lia. }
    rewrite Hdepth. reflexivity.
Qed.

Lemma root_entries_are_listed_witness :
  ((∀ m, ScanOptions.maxDepth projectOptions = Some m → 0 <= m) →
   ∃ paths,
     getFilePathsNative projectOptions projectDisk = Some paths
     ∧ join "/r" "src" ∈ paths)
  ∧ (∀ m, ScanOptions.maxDepth projectOptions = Some m → m < 0 →
       getFilePathsNative projectOptions projectDisk = Some []).
Proof.
  apply (root_entries_are_listed projectOptions projectDisk
           (default [] (createCombinedParser projectDisk "/r"))
           projectListing
           (EntDir "src" (Some [EntFile "main.ts"; EntFile "data.bin"]))).
  - vm_compute. reflexivity.
  - reflexivity.
  - right. right. left.
  - right. reflexivity.
  - vm_compute. reflexivity.
Defined.

(** A negative depth limit, as [parseInt] gives it for [--max-depth -1],
    is reached at the root: nothing is listed. *)
Example negative_depth_lists_nothing :
  getFilePathsNative (withMaxDepth projectOptions (Some (-1))) projectDisk
  = Some [].
Proof. vm_compute. reflexivity. Qed.

(** ** What a scan records *)

Lemma scanPaths_records h d patterns paths fs dirs total fs' dirs' total' :
  scanPaths h d patterns paths (fs, dirs, total) = Some (fs', dirs', total') →
  Forall (scannedFile h d) fs → Forall (scannedDirectory d) dirs →
  total = sizeSum fs →
  Forall (scannedFile h d) fs' ∧ Forall (scannedDirectory d) dirs'
  ∧ total' = sizeSum fs'
  ∧ ∃ keptFiles keptDirs,
      keptFiles `sublist_of` paths ∧ keptDirs `sublist_of` paths
      ∧ path <$> fs' = (path <$> fs) ++ keptFiles
      ∧ path <$> dirs' = (path <$> dirs) ++ keptDirs.
Proof.
  revert fs dirs total.
  induction paths as [|p rest IH]; intros fs dirs total Hrun Hfs Hdirs Htotal.
  - simpl in Hrun. injection Hrun as <- <- <-.
    repeat split; try assumption.
    exists [], []. rewrite !app_nil_r. repeat split; constructor.
  - assert (Hskip : scanPaths h d patterns rest (fs, dirs, total)
                    = Some (fs', dirs', total') →
              Forall (scannedFile h d) fs' ∧ Forall (scannedDirectory d) dirs'
              ∧ total' = sizeSum fs'
              ∧ ∃ keptFiles keptDirs,
                  keptFiles `sublist_of` p :: rest
                  ∧ keptDirs `sublist_of` p :: rest
                  ∧ path <$> fs' = (path <$> fs) ++ keptFiles
                  ∧ path <$> dirs' = (path <$> dirs) ++ keptDirs).
    { intros Hrest.
      destruct (IH _ _ _ Hrest Hfs Hdirs Htotal)
        as (H1 & H2 & H3 & kf & kd & Hkf & Hkd & Hpf & Hpd).
      repeat split; try assumption.
      exists kf, kd. repeat split; try assumption; constructor; assumption. }
    cbn [scanPaths] in Hrun.
    destruct (shouldIgnoreFile p patterns) as [[|]|]; [auto| |discriminate].
    destruct (getFileMetadata d p) as [m|] eqn:Hm; [|auto].
    pose proof (getFileMetadata_path _ _ _ Hm) as Hpath.
    destruct (isDirectory m) eqn:Hdir.
    + destruct (IH _ _ _ Hrun Hfs) as (H1 & H2 & H3 & kf & kd & Hkf & Hkd & Hpf & Hpd).
      * apply Forall_app. split; [exact Hdirs|]. constructor; [|constructor].
        split; [rewrite Hpath; exact Hm|exact Hdir].
      * exact Htotal.
      * repeat split; try assumption.
        exists kf, (p :: kd). repeat split; try assumption.
        -- constructor. exact Hkf.
        -- constructor. exact Hkd.
        -- rewrite Hpd, fmap_app, <- app_assoc. simpl. rewrite Hpath. reflexivity.
    + destruct (Z.ltb_spec 0 (fsize m)) as [Hpos|Hzero].
      * unfold calculateFileHash in Hrun.
        destruct (disk_read d p) as [bytes|] eqn:Hread; [|auto].
        destruct (IH _ _ _ Hrun) as (H1 & H2 & H3 & kf & kd & Hkf & Hkd & Hpf & Hpd).
        -- apply Forall_app. split; [exact Hfs|]. constructor; [|constructor].
           exists m. simpl. rewrite Hpath. split; [exact Hm|]. split; [exact Hdir|].
           right. split; [exact Hpos|]. exists bytes. split; [exact Hread|reflexivity].
        -- exact Hdirs.
        -- rewrite Htotal. unfold sizeSum. rewrite foldr_app. simpl.
           clear. induction fs as [|f r IHf]; simpl; lia.
        -- repeat split; try assumption.
           exists (p :: kf), kd. repeat split; try assumption.
           ++ constructor. exact Hkf.
           ++ constructor. exact Hkd.
           ++ rewrite Hpf, fmap_app, <- app_assoc. simpl. rewrite Hpath. reflexivity.
      * destruct (IH _ _ _ Hrun) as (H1 & H2 & H3 & kf & kd & Hkf & Hkd & Hpf & Hpd).
        -- apply Forall_app. split; [exact Hfs|]. constructor; [|constructor].
           exists m. rewrite Hpath. split; [exact Hm|]. split; [exact Hdir|].
           left. split; [exact Hzero|reflexivity].
        -- exact Hdirs.
        -- rewrite Htotal. unfold sizeSum. rewrite foldr_app. simpl.
           clear. induction fs as [|f r IHf]; simpl; lia.
        -- repeat split; try assumption.
           exists (p :: kf), kd. repeat split; try assumption.
           ++ constructor. exact Hkf.
           ++ constructor. exact Hkd.
           ++ rewrite Hpf, fmap_app, <- app_assoc. simpl. rewrite Hpath. reflexivity.
Qed.

Lemma scan_records_core h o d n result :
  (scan h o d n).1 = Some result →
  ScanResult.totalFiles result = length (ScanResult.files result)
  ∧ ScanResult.totalSize result = sizeSum (ScanResult.files result)
  ∧ ScanResult.scanTime result = host_clock h (S n) - host_clock h n
  ∧ Forall (scannedFile h d) (ScanResult.files result)
  ∧ Forall (scannedDirectory d) (ScanResult.directories result)
  ∧ ∃ paths,
      getFilePathsNative o d = Some paths
      ∧ path <$> ScanResult.files result `sublist_of` paths
      ∧ path <$> ScanResult.directories result `sublist_of` paths.
Proof.
  unfold scan, gbind, newDate, gret.
  destruct (getFilePathsNative o d) as [paths|]; [|discriminate].
  destruct (scanPaths h d (ScanOptions.ignorePatterns o) paths ([], [], 0))
    as [[[fs dirs] total]|] eqn:Hs; [|discriminate].
  cbn. intros [= <-]. cbn.
  destruct (scanPaths_records _ _ _ _ _ _ _ _ _ _ Hs) as
    (H1 & H2 & H3 & kf & kd & Hkf & Hkd & Hpf & Hpd);
    [constructor|constructor|reflexivity|].
  simpl in Hpf, Hpd. subst kf kd.
  repeat split; try assumption.
  exists paths. repeat split; assumption.
Qed.

Lemma scannedFile_facts h d f :
  scannedFile h d f →
  isDirectory f = false
  ∧ name f = basename (path f)
  ∧ (∃ stats, disk_stat d (path f) = Some stats ∧ fsize f = st_size stats)
  ∧ (fsize f <= 0 → hash f = None)
  ∧ (0 < fsize f →
     ∃ bytes, disk_read d (path f) = Some bytes
              ∧ hash f = Some (hexDigest h bytes)).
Proof.
  intros (m & Hm & Hdir & Hcase).
  unfold getFileMetadata in Hm.
  destruct (disk_stat d (path f)) as [stats|] eqn:Hstat; [|discriminate].
  injection Hm as <-. simpl in *.
  destruct Hcase as [[Hz ->]|[Hpos (bytes & Hread & ->)]]; simpl in *.
  - repeat split; try assumption; try reflexivity.
    + exists stats. split; [first [exact Hstat|reflexivity]|reflexivity].
    + intros Hpos. lia.
  - repeat split; try assumption; try reflexivity.
    + exists stats. split; [first [exact Hstat|reflexivity]|reflexivity].
    + intros Hz. lia.
    + intros _. exists bytes. split; [first [exact Hread|reflexivity]|reflexivity].
Qed.

(** X21: what a scan records.  The result counts its files and adds up
    their sizes; the scan time is the difference of the two clock
    readings; every file recorded is a regular file under its base name
    with the size [stat] gave, without hash when it is empty and with the
    digest of its bytes otherwise; every directory recorded is a
    directory; and files and directories come in the order in which the
    walk listed their paths. *)
Theorem scan_records_what_it_read (h : Host) (o : ScanOptions.t) (d : Disk)
    (n : nat) (result : ScanResult.t) :
  (scan h o d n).1 = Some result →
  ScanResult.totalFiles result = length (ScanResult.files result)
  ∧ ScanResult.totalSize result = sizeSum (ScanResult.files result)
  ∧ ScanResult.scanTime result = host_clock h (S n) - host_clock h n
  ∧ Forall (fun f =>
              isDirectory f = false
              ∧ name f = basename (path f)
              ∧ (∃ stats, disk_stat d (path f) = Some stats
                          ∧ fsize f = st_size stats)
              ∧ (fsize f <= 0 → hash f = None)
              ∧ (0 < fsize f →
                 ∃ bytes, disk_read d (path f) = Some bytes
                          ∧ hash f = Some (hexDigest h bytes)))
      (ScanResult.files result)
  ∧ Forall (fun f => isDirectory f = true ∧ hash f = None)
      (ScanResult.directories result)
  ∧ ∃ paths,
      getFilePathsNative o d = Some paths
      ∧ path <$> ScanResult.files result `sublist_of` paths
      ∧ path <$> ScanResult.directories result `sublist_of` paths.
Proof.
  intros Hscan.
  destruct (scan_records_core h o d n result Hscan)
    as (H1 & H2 & H3 & Hfs & Hdirs & Hpaths).
  repeat split; try assumption.
  - eapply Forall_impl; [exact Hfs|]. intros f Hf.
    apply (scannedFile_facts h d f Hf).
  - eapply Forall_impl; [exact Hdirs|]. intros f [Hm Hdir].
    split; [exact Hdir|].
    unfold getFileMetadata in Hm.
    destruct (disk_stat d (path f)); [|discriminate].
    injection Hm as Hm. rewrite <- Hm. reflexivity.
Qed.

Lemma scan_records_what_it_read_witness :
  ScanResult.totalFiles twinResult = length (ScanResult.files twinResult)
  ∧ ScanResult.totalSize twinResult = sizeSum (ScanResult.files twinResult)
  ∧ ScanResult.scanTime twinResult
    = host_clock plainHost 1%nat - host_clock plainHost 0%nat
  ∧ Forall (fun f =>
              isDirectory f = false
              ∧ name f = basename (path f)
              ∧ (∃ stats, disk_stat twinDisk (path f) = Some stats
                          ∧ fsize f = st_size stats)
              ∧ (fsize f <= 0 → hash f = None)
              ∧ (0 < fsize f →
                 ∃ bytes, disk_read twinDisk (path f) = Some bytes
                          ∧ hash f = Some (hexDigest plainHost bytes)))
      (ScanResult.files twinResult)
  ∧ Forall (fun f => isDirectory f = true ∧ hash f = None)
      (ScanResult.directories twinResult)
  ∧ ∃ paths,
      getFilePathsNative twinOptions twinDisk = Some paths
      ∧ path <$> ScanResult.files twinResult `sublist_of` paths
      ∧ path <$> ScanResult.directories twinResult `sublist_of` paths.
Proof.
  apply (scan_records_what_it_read plainHost twinOptions twinDisk 0%nat
           twinResult).
  vm_compute. reflexivity.
Defined.

(** ** Content groups of scanned files *)

Lemma hexDigit_inj (n m : N) :
  (n < 16)%N → (m < 16)%N → hexDigit n = hexDigit m → n = m.
Proof.
  intros Hn Hm.
  assert (Hn' : (n = 0 ∨ n = 1 ∨ n = 2 ∨ n = 3 ∨ n = 4 ∨ n = 5 ∨ n = 6 ∨ n = 7
                ∨ n = 8 ∨ n = 9 ∨ n = 10 ∨ n = 11 ∨ n = 12 ∨ n = 13
                ∨ n = 14 ∨ n = 15)%N) by lia.
  assert (Hm' : (m = 0 ∨ m = 1 ∨ m = 2 ∨ m = 3 ∨ m = 4 ∨ m = 5 ∨ m = 6 ∨ m = 7
                ∨ m = 8 ∨ m = 9 ∨ m = 10 ∨ m = 11 ∨ m = 12 ∨ m = 13
                ∨ m = 14 ∨ m = 15)%N) by lia.
  clear Hn Hm.
  repeat (destruct Hn' as [->|Hn']); try subst n;
    repeat (destruct Hm' as [->|Hm']); try subst m;
    simpl; intros H; first [reflexivity | discriminate H].
Qed.

Lemma toHex_inj (a b : string) : toHex a = toHex b → a = b.
Proof.
  revert b. induction a as [|x r IH]; intros [|y t]; simpl;
    try discriminate; [reflexivity|].
  intros [= H1 H2 H3].
  pose proof (N_ascii_bounded x) as Hx. pose proof (N_ascii_bounded y) as Hy.
  apply hexDigit_inj in H1;
    [|apply N.Div0.div_lt_upper_bound; lia|apply N.Div0.div_lt_upper_bound; lia].
  apply hexDigit_inj in H2; [|apply N.mod_lt; lia|apply N.mod_lt; lia].
  assert (Hxy : N_of_ascii x = N_of_ascii y).
  { rewrite (N.div_mod (N_of_ascii x) 16), (N.div_mod (N_of_ascii y) 16) by lia.
    rewrite H1, H2. reflexivity. }
  f_equal; [|apply IH, H3].
  rewrite <- (ascii_N_embedding x), <- (ascii_N_embedding y), Hxy. reflexivity.
Qed.

(** X22: the content groups of a scan.  Every member of a
    content-based group of scanned files is a non-empty regular file whose
    bytes could be read; two members have the same digest, and the same
    bytes when the digest function of the host has no collision.  An empty
    file is in no content-based group. *)
Theorem content_groups_of_a_scan (h : Host) (o : ScanOptions.t) (d : Disk)
    (n m : nat) (result : ScanResult.t) (g : DuplicateGroup)
    (f1 f2 : FileMetadata) :
  (scan h o d n).1 = Some result →
  g ∈ (findContentBasedDuplicates h (ScanResult.files result) m).1 →
  f1 ∈ files g → f2 ∈ files g →
  0 < fsize f1
  ∧ ∃ bytes1 bytes2,
      disk_read d (path f1) = Some bytes1
      ∧ disk_read d (path f2) = Some bytes2
      ∧ hexDigest h bytes1 = hexDigest h bytes2
      ∧ ((∀ a b, host_sha256 h a = host_sha256 h b → a = b) →
         bytes1 = bytes2).
Proof.
  intros Hscan Hg Hf1 Hf2.
  destruct (scan_records_core h o d n result Hscan)
    as (_ & _ & _ & Hfs & _ & _).
  rewrite Forall_forall in Hfs.
  unfold findContentBasedDuplicates, JsMap.entries in Hg.
  rewrite hashGroups_keyed in Hg.
  assert (Hin : ∀ f, f ∈ files g → f ∈ ScanResult.files result).
  { intros f Hf.
    eapply (group_members_from_files h contentGroup hashKey); try eassumption.
    reflexivity. }
  apply emitGroups_sound in Hg as (i & k & ms & Hk & _ & ->).
  apply keyed_elem in Hk as [-> _]. cbn [files contentGroup] in *.
  assert (Hkey : ∀ f, f ∈ membersOf hashKey k (ScanResult.files result) →
                 hash f = Some k).
  { intros f Hf. unfold membersOf in Hf.
    apply list_elem_of_filter in Hf as [Hf _]. unfold hashKey in Hf.
    destruct (truthy (hash f)); [exact Hf|discriminate]. }
  assert (Hread : ∀ f, f ∈ membersOf hashKey k (ScanResult.files result) →
                  0 < fsize f
                  ∧ ∃ bytes, disk_read d (path f) = Some bytes
                             ∧ hexDigest h bytes = k).
  { intros f Hf. pose proof (Hkey f Hf) as Hh.
    destruct (scannedFile_facts h d f (Hfs f (Hin f Hf)))
      as (_ & _ & _ & Hzero & Hpos).
    destruct (Z.lt_ge_cases 0 (fsize f)) as [Hlt|Hge].
    - split; [exact Hlt|]. destruct (Hpos Hlt) as (bytes & Hb & Hhash).
      exists bytes. split; [exact Hb|]. congruence.
    - rewrite (Hzero Hge) in Hh. discriminate. }
  destruct (Hread f1 Hf1) as (Hpos & b1 & Hb1 & Hk1).
  destruct (Hread f2 Hf2) as (_ & b2 & Hb2 & Hk2).
  split; [exact Hpos|]. exists b1, b2.
  split; [exact Hb1|]. split; [exact Hb2|]. split; [congruence|].
  intros Hinj. apply Hinj, toHex_inj. unfold hexDigest in *. congruence.
Qed.

Lemma content_groups_of_a_scan_witness :
  0 < fsize (withHash
               {| path := "/t/a.txt"; name := "a.txt"; fsize := 2;
                  modified := 0; created := 0; isDirectory := false;
                  hash := None; extension := Some ".txt" |} "6869")
  ∧ ∃ bytes1 bytes2,
      disk_read twinDisk "/t/a.txt" = Some bytes1
      ∧ disk_read twinDisk "/t/b.txt" = Some bytes2
      ∧ hexDigest plainHost bytes1 = hexDigest plainHost bytes2
      ∧ ((∀ a b, host_sha256 plainHost a = host_sha256 plainHost b → a = b) →
         bytes1 = bytes2).
Proof.
  apply (content_groups_of_a_scan plainHost twinOptions twinDisk 0%nat 0%nat
           twinResult
           (contentGroup ""
              [withHash
                 {| path := "/t/a.txt"; name := "a.txt"; fsize := 2;
                    modified := 0; created := 0; isDirectory := false;
                    hash := None; extension := Some ".txt" |} "6869";
               withHash
                 {| path := "/t/b.txt"; name := "b.txt"; fsize := 2;
                    modified := 0; created := 0; isDirectory := false;
                    hash := None; extension := Some ".txt" |} "6869"])
           (withHash
              {| path := "/t/a.txt"; name := "a.txt"; fsize := 2;
                 modified := 0; created := 0; isDirectory := false;
                 hash := None; extension := Some ".txt" |} "6869")
           (withHash
              {| path := "/t/b.txt"; name := "b.txt"; fsize := 2;
                 modified := 0; created := 0; isDirectory := false;
                 hash := None; extension := Some ".txt" |} "6869")).
  - vm_compute. reflexivity.
  - vm_compute. left.
  - left.
  - right. left.
Defined.

(** ** Relative times *)

Lemma ago_not_today (x suffix : string) :
  (5 < String.length suffix)%nat → x +:+ suffix ≠ "Today".
Proof.
  intros Hlen Heq. apply (f_equal String.length) in Heq.
  rewrite string_length_app in Heq. simpl in Heq. lia.
Qed.

Lemma ago_not_yesterday (x suffix : string) :
  (8 < String.length suffix)%nat → suffix ≠ "Yesterday" →
  x +:+ suffix ≠ "Yesterday".
Proof.
  intros Hlen Hne Heq. pose proof (f_equal String.length Heq) as Hl.
  rewrite string_length_app in Hl. simpl in Hl.
  destruct x as [|c r]; [rewrite string_app_nil in Heq; contradiction|].
  simpl in Hl. lia.
Qed.

(** X23: relative times go by whole days.  With [days] the number of
    whole days from the date to now, rounded down, the text is "Today"
    exactly when the date is less than a day old and not in the future,
    "Yesterday" exactly when it is one to two days old; from two days on it
    counts days, then whole weeks, months of 30 days and years of 365
    days; and a date in the future gives a negative number of days. *)
Theorem relative_time_goes_by_days (h : Host) (date : Z) (n : nat) :
  let diffMs := host_clock h n - date in
  let days := diffMs / dayMs in
  ((formatRelativeTime h date n).1 = "Today" ↔ 0 <= diffMs < dayMs)
  ∧ ((formatRelativeTime h date n).1 = "Yesterday"
     ↔ dayMs <= diffMs < 2 * dayMs)
  ∧ (diffMs < 0 →
     days < 0 ∧ (formatRelativeTime h date n).1 = pretty days +:+ " days ago")
  ∧ (2 * dayMs <= diffMs < 7 * dayMs →
     2 <= days < 7
     ∧ (formatRelativeTime h date n).1 = pretty days +:+ " days ago")
  ∧ (7 * dayMs <= diffMs < 30 * dayMs →
     1 <= days / 7 <= 4
     ∧ (formatRelativeTime h date n).1 = pretty (days / 7) +:+ " weeks ago")
  ∧ (30 * dayMs <= diffMs < 365 * dayMs →
     1 <= days / 30 <= 12
     ∧ (formatRelativeTime h date n).1 = pretty (days / 30) +:+ " months ago")
  ∧ (365 * dayMs <= diffMs →
     1 <= days / 365
     ∧ (formatRelativeTime h date n).1 = pretty (days / 365) +:+ " years ago").
Proof.
  intros diffMs days.
  unfold formatRelativeTime, gbind, newDate, gret. cbn [fst].
  fold diffMs. change (1000 * 60 * 60 * 24) with dayMs. fold days.
  assert (Hdiv : dayMs * days <= diffMs < dayMs * days + dayMs).
  { unfold days. pose proof (Z.mul_div_le diffMs dayMs).
    pose proof (Z.mul_succ_div_gt diffMs dayMs). unfold dayMs in *. lia. }
  assert (Hw : 7 * (days / 7) <= days < 7 * (days / 7) + 7).
  { pose proof (Z.mul_div_le days 7). pose proof (Z.mul_succ_div_gt days 7). lia. }
  assert (Hm : 30 * (days / 30) <= days < 30 * (days / 30) + 30).
  { pose proof (Z.mul_div_le days 30). pose proof (Z.mul_succ_div_gt days 30). lia. }
  assert (Hy : 365 * (days / 365) <= days < 365 * (days / 365) + 365).
  { pose proof (Z.mul_div_le days 365). pose proof (Z.mul_succ_div_gt days 365). lia. }
  unfold dayMs in *.
  destruct (Z.eqb_spec days 0) as [H0|H0];
    [|destruct (Z.eqb_spec days 1) as [H1|H1];
      [|destruct (Z.ltb_spec days 7) as [H7|H7];
        [|destruct (Z.ltb_spec days 30) as [H30|H30];
          [|destruct (Z.ltb_spec days 365) as [H365|H365]]]]];
    repeat split; intros; repeat split;
    try lia; try reflexivity; try discriminate;
    try (exfalso; eapply ago_not_today; [|eassumption]; simpl; lia);
    try (exfalso; eapply ago_not_yesterday; [| |eassumption];
         [simpl; lia|discriminate]).
Qed.

(** ** The actions set on a group *)

Lemma JsMap_get_set_other {V} (k k' : string) (v : V) (m : JsMap.t V) :
  k' ≠ k → JsMap.get k' (JsMap.set k v m) = JsMap.get k' m.
Proof.
  intros Hne. rewrite JsMap_get_set.
  destruct (String.eqb_spec k' k); [contradiction|reflexivity].
Qed.

Lemma JsMap_get_set_same {V} (k : string) (v : V) (m : JsMap.t V) :
  JsMap.get k (JsMap.set k v m) = Some v.
Proof. rewrite JsMap_get_set, String.eqb_refl. reflexivity. Qed.

Lemma markFrom_other keepIndex (fs : list FileMetadata) :
  ∀ index acts p,
    p ∉ path <$> fs →
    JsMap.get p (markFrom keepIndex index fs acts) = JsMap.get p acts.
Proof.
  induction fs as [|f rest IH]; intros index acts p Hp; [reflexivity|].
  cbn [markFrom]. rewrite fmap_cons in Hp.
  apply not_elem_of_cons in Hp as [Hne Hp].
  rewrite IH by exact Hp. apply JsMap_get_set_other. exact Hne.
Qed.

Lemma markFrom_member keepIndex (fs : list FileMetadata) :
  NoDup (path <$> fs) →
  ∀ index acts i f,
    fs !! i = Some f →
    JsMap.get (path f) (markFrom keepIndex index fs acts)
    = Some (if (index + i =? keepIndex)%nat then KEEP else DELETE).
Proof.
  induction fs as [|f0 rest IH]; intros Hnd index acts i f Hi;
    [discriminate|].
  rewrite fmap_cons in Hnd. inversion Hnd as [|? ? Hnotin Hnd']; subst.
  cbn [markFrom]. destruct i as [|i'].
  - injection Hi as <-. rewrite markFrom_other by exact Hnotin.
    rewrite Nat.add_0_r. apply JsMap_get_set_same.
  - rewrite (IH Hnd' (S index) _ i' f Hi).
    replace (S index + i')%nat with (index + S i')%nat by lia. reflexivity.
Qed.

Lemma setAll_other (action : DuplicateAction) (fs : list FileMetadata) :
  ∀ acts p,
    p ∉ path <$> fs →
    JsMap.get p
      (fold_left (fun a file => JsMap.set (path file) action a) fs acts)
    = JsMap.get p acts.
Proof.
  induction fs as [|f rest IH]; intros acts p Hp; [reflexivity|].
  cbn [fold_left]. rewrite fmap_cons in Hp.
  apply not_elem_of_cons in Hp as [Hne Hp].
  rewrite IH by exact Hp. apply JsMap_get_set_other. exact Hne.
Qed.

Lemma setAll_member (action : DuplicateAction) (fs : list FileMetadata) :
  ∀ acts f,
    f ∈ fs →
    JsMap.get (path f)
      (fold_left (fun a file => JsMap.set (path file) action a) fs acts)
    = Some action.
Proof.
  induction fs as [|f0 rest IH]; intros acts f Hf; [inversion Hf|].
  cbn [fold_left].
  destruct (decide (path f ∈ path <$> rest)) as [Hin|Hout].
  - apply list_elem_of_fmap in Hin as (f' & Hp & Hin).
    rewrite Hp. apply IH. exact Hin.
  - rewrite setAll_other by exact Hout.
    apply elem_of_cons in Hf as [->|Hf]; [apply JsMap_get_set_same|].
    exfalso. apply Hout. apply list_elem_of_fmap. exists f. auto.
Qed.

(** X24: keeping one member of a group.  When the members of a group
    have different paths, [deleteAllButOne] marks the member chosen with
    [KEEP] and every other member with [DELETE], and [setGroupAction]
    marks every member with the action given; neither changes the mark of
    a path outside the group, nor anything else in the group. *)
Theorem one_member_is_kept (group : DuplicateGroup) (keepIndex : nat)
    (action : DuplicateAction) :
  NoDup (path <$> files group) →
  (∀ i f, files group !! i = Some f →
     JsMap.get (path f) (actions (deleteAllButOne group keepIndex))
     = Some (if (i =? keepIndex)%nat then KEEP else DELETE))
  ∧ (∀ f, f ∈ files group →
       JsMap.get (path f) (actions (setGroupAction group action)) = Some action)
  ∧ (∀ p, p ∉ path <$> files group →
       JsMap.get p (actions (deleteAllButOne group keepIndex))
       = JsMap.get p (actions group)
       ∧ JsMap.get p (actions (setGroupAction group action))
         = JsMap.get p (actions group))
  ∧ files (deleteAllButOne group keepIndex) = files group
  ∧ files (setGroupAction group action) = files group.
Proof.
  intros Hnd. split; [|split; [|split; [|split; reflexivity]]].
  - intros i f Hi. cbn [deleteAllButOne withActions actions].
    apply (markFrom_member keepIndex (files group) Hnd 0%nat _ i f Hi).
  - intros f Hf. cbn [setGroupAction withActions actions].
    apply setAll_member. exact Hf.
  - intros p Hp. split.
    + cbn [deleteAllButOne withActions actions].
      apply markFrom_other. exact Hp.
    + cbn [setGroupAction withActions actions].
      apply setAll_other. exact Hp.
Qed.

Lemma one_member_is_kept_witness :
  (∀ i f, files twinGroup !! i = Some f →
     JsMap.get (path f) (actions (deleteAllButOne twinGroup 1))
     = Some (if (i =? 1)%nat then KEEP else DELETE))
  ∧ (∀ f, f ∈ files twinGroup →
       JsMap.get (path f) (actions (setGroupAction twinGroup MOVE)) = Some MOVE)
  ∧ (∀ p, p ∉ path <$> files twinGroup →
       JsMap.get p (actions (deleteAllButOne twinGroup 1))
       = JsMap.get p (actions twinGroup)
       ∧ JsMap.get p (actions (setGroupAction twinGroup MOVE))
         = JsMap.get p (actions twinGroup))
  ∧ files (deleteAllButOne twinGroup 1) = files twinGroup
  ∧ files (setGroupAction twinGroup MOVE) = files twinGroup.
Proof.
  apply (one_member_is_kept twinGroup 1 MOVE).
  apply (bool_decide_unpack _). vm_compute. exact I.
Defined.

(** ** The search for ignore files *)

Lemma searchEntry_shape d (e : Dirent) :
  ∀ dir depth p,
    p ∈ searchEntry d dir depth e →
    access d p = true
    ∧ ∃ below,
        p = join (pathFrom dir (entryName <$> e :: below)) ".gitignore"
        ∧ searchedChain (e :: below)
        ∧ (depth + S (length below) <= 10)%nat.
Proof.
  induction e as [nm listing IH|nm|nm listing IH|nm] using Dirent_nested_ind;
    intros dir depth p; cbn [searchEntry entryName];
    try (intros H; inversion H; fail).
  destruct (startsWith nm ".") eqn:Hhid; [intros H; inversion H|].
  destruct (Nat.ltb_spec 10 (S depth)) as [_|Hdepth]; [intros H; inversion H|].
  rewrite elem_of_app. intros [Hp|Hp].
  - destruct (access d (join (join dir nm) ".gitignore")) eqn:Hacc;
      [|inversion Hp].
    apply list_elem_of_singleton in Hp as ->. split; [exact Hacc|].
    exists []. split; [reflexivity|]. split; [|simpl; lia].
    cbn [searchedChain entryName]. split; [exact Hhid|]. split; [|exact I].
    exists nm, listing. split; [reflexivity|exact I].
  - destruct listing as [es|]; [|inversion Hp].
    rewrite descend_each in Hp. apply list_elem_of_In, in_flat_map in Hp.
    destruct Hp as (e' & Hin & Hp). apply list_elem_of_In in Hin, Hp.
    specialize (IH es eq_refl). rewrite Forall_forall in IH.
    destruct (IH e' Hin _ _ _ Hp) as (Hacc & below & -> & Hchain & Hlen).
    split; [exact Hacc|].
    exists (e' :: below). split; [reflexivity|]. split; [|simpl in *; lia].
    cbn [searchedChain entryName]. split; [exact Hhid|]. split; [|exact Hchain].
    exists nm, (Some es). split; [reflexivity|exact Hin].
Qed.

Lemma searchEntry_reached d (below : list Dirent) :
  ∀ (e : Dirent) dir depth,
    searchedChain (e :: below) →
    (depth + S (length below) <= 10)%nat →
    access d (join (pathFrom dir (entryName <$> e :: below)) ".gitignore")
    = true →
    join (pathFrom dir (entryName <$> e :: below)) ".gitignore"
    ∈ searchEntry d dir depth e.
Proof.
  induction below as [|e' rest IH]; intros e dir depth;
    cbn [searchedChain]; intros (Hhid & (nm & listing & -> & Hnext) & Hrest)
      Hlen Hacc;
    cbn [searchEntry entryName] in *; rewrite Hhid;
    (destruct (Nat.ltb_spec 10 (S depth)) as [Hdepth|_];
       [simpl in Hlen; lia|]);
    apply elem_of_app.
  - left. change (pathFrom dir (entryName <$> [EntDir nm listing]))
            with (join dir nm) in *.
    rewrite Hacc. left.
  - right. destruct listing as [es|]; [|inversion Hnext].
    rewrite descend_each. apply list_elem_of_In, in_flat_map.
    exists e'. split; [apply list_elem_of_In, Hnext|].
    apply list_elem_of_In.
    apply (IH e' (join dir nm) (S depth) Hrest); [simpl in *; lia|exact Hacc].
Qed.

(** X25: where ignore files are looked for.  The files found are
    exactly the accessible files named [.gitignore] in the root and in the
    directories reached from it through a chain of at most ten directories
    of the disk, the first listed in the root and each next one listed in
    the one before it, none with a name that starts with a dot; the
    root's own ignore file, when there is one, comes first; and when the
    root cannot be listed nothing else is found. *)
Theorem ignore_files_found (d : Disk) (directory : string) :
  (∀ p, p ∈ findGitignoreFiles d directory ↔
     access d p = true
     ∧ (p = join directory ".gitignore"
        ∨ ∃ es e below,
            disk_readdir d directory = Some es
            ∧ e ∈ es
            ∧ searchedChain (e :: below)
            ∧ (length (e :: below) <= 10)%nat
            ∧ p = join (pathFrom directory (entryName <$> e :: below))
                    ".gitignore"))
  ∧ (access d (join directory ".gitignore") = true →
     head (findGitignoreFiles d directory)
     = Some (join directory ".gitignore"))
  ∧ (disk_readdir d directory = None →
     findGitignoreFiles d directory
     = if access d (join directory ".gitignore")
       then [join directory ".gitignore"] else []).
Proof.
  unfold findGitignoreFiles. split; [|split].
  - intros p. rewrite elem_of_app. split.
    + intros [Hp|Hp].
      * destruct (access d (join directory ".gitignore")) eqn:Hacc;
          [|inversion Hp].
        apply list_elem_of_singleton in Hp as ->. split; [exact Hacc|].
        left. reflexivity.
      * destruct (disk_readdir d directory) as [es|]; [|inversion Hp].
        apply list_elem_of_In, in_flat_map in Hp as (e & He & Hp).
        apply list_elem_of_In in He, Hp.
        destruct (searchEntry_shape d e _ _ _ Hp)
          as (Hacc & below & -> & Hchain & Hlen).
        split; [exact Hacc|]. right.
        exists es, e, below. split; [reflexivity|]. split; [exact He|].
        split; [exact Hchain|]. split; [simpl in *; lia|reflexivity].
    + intros [Hacc [->|(es & e & below & -> & He & Hchain & Hlen & ->)]].
      * left. rewrite Hacc. left.
      * right. apply list_elem_of_In, in_flat_map.
        exists e. split; [apply list_elem_of_In, He|].
        apply list_elem_of_In.
        apply searchEntry_reached; [exact Hchain|simpl in *; lia|exact Hacc].
  - intros ->. reflexivity.
  - intros ->. rewrite app_nil_r. reflexivity.
Qed.

(** ** The metadata of an entry *)

Lemma lastSegment_join (dir nm : string) :
  noSlash nm = true → lastSegment (join dir nm) = nm.
Proof.
  intros Hnm. unfold lastSegment, join.
  rewrite string_app_cons, string_app_nil, splitOn_app.
  assert (Hwhole : splitOn "/" nm = [nm]).
  { clear dir. induction nm as [|c r IH]; [reflexivity|]. simpl in *.
    destruct (Ascii.eqb c "/"); [discriminate|].
    rewrite (IH Hnm). reflexivity. }
  rewrite Hwhole. apply last_last.
Qed.

Lemma lastDotSuffix_None (s : string) :
  lastDotSuffix s = None ↔ hasChar "." s = false.
Proof.
  induction s as [|c r IH]; simpl; [tauto|].
  destruct (lastDotSuffix r) as [e|].
  - split; [discriminate|]. intros [_ H]%orb_false_elim.
    apply IH in H. discriminate.
  - destruct (Ascii.eqb c "."); simpl; [split; discriminate|].
    split; [intros _; apply IH; reflexivity|reflexivity].
Qed.

Lemma lastDotSuffix_Some (s e : string) :
  lastDotSuffix s = Some e →
  ∃ pre rest, s = pre +:+ e ∧ e = String "." rest ∧ hasChar "." rest = false.
Proof.
  revert e. induction s as [|c r IH]; intros e; simpl; [discriminate|].
  destruct (lastDotSuffix r) as [e'|] eqn:Hr.
  - intros [= <-]. destruct (IH e' eq_refl) as (pre & rest & -> & He & Hrest).
    exists (String c pre), rest. rewrite string_app_cons. auto.
  - destruct (Ascii.eqb_spec c ".") as [->|_]; [|discriminate].
    intros [= <-]. exists "", r. rewrite string_app_nil.
    split; [reflexivity|]. split; [reflexivity|].
    apply lastDotSuffix_None, Hr.
Qed.

Lemma toLowerAscii_twice (c : ascii) :
  toLowerAscii (toLowerAscii c) = toLowerAscii c.
Proof. destruct c as [[] [] [] [] [] [] [] []]; reflexivity. Qed.

Lemma toLowerCase_twice (s : string) : toLowerCase (toLowerCase s) = toLowerCase s.
Proof.
  induction s as [|c r IH]; [reflexivity|]. simpl.
  rewrite toLowerAscii_twice, IH. reflexivity.
Qed.

(** X26: the metadata of an entry.  The record made for the entry
    [nm] of a directory carries the joined path, the entry's own name and
    no hash.  Its extension, when it has one, is in lower case and is what
    the name has from its last dot on, that dot not being the first
    character of the name; a name without a dot after its first character,
    a dotfile for one, has no extension. *)
Theorem metadata_of_an_entry (d : Disk) (dir nm : string) (m : FileMetadata) :
  noSlash nm = true →
  getFileMetadata d (join dir nm) = Some m →
  path m = join dir nm
  ∧ name m = nm
  ∧ hash m = None
  ∧ (∀ x, extension m = Some x →
       ∃ stem rest,
         nm = stem +:+ String "." rest
         ∧ stem ≠ ""
         ∧ hasChar "." rest = false
         ∧ x = toLowerCase (String "." rest)
         ∧ toLowerCase x = x)
  ∧ (hasChar "." (dropFirst nm) = false → extension m = None).
Proof.
  intros Hnm. unfold getFileMetadata.
  destruct (disk_stat d (join dir nm)) as [stats|]; [|discriminate].
  intros [= <-]. cbn [path name hash extension].
  unfold basename, extname, basename. rewrite (lastSegment_join dir nm Hnm).
  split; [reflexivity|]. split; [reflexivity|]. split; [reflexivity|].
  destruct nm as [|c r]; [split; [discriminate|reflexivity]|].
  cbn [dropFirst].
  destruct (String.eqb_spec (String c r) "..") as [Hdots|_].
  { split; [discriminate|reflexivity]. }
  destruct (lastDotSuffix r) as [e|] eqn:He.
  - destruct (lastDotSuffix_Some r e He) as (pre & rest & -> & -> & Hrest).
    split.
    + intros x. cbn [toLowerCase String.eqb].
      intros [= <-]. exists (String c pre), rest.
      rewrite string_app_cons. split; [reflexivity|]. split; [discriminate|].
      split; [exact Hrest|]. split; [reflexivity|].
      apply (toLowerCase_twice (String "." rest)).
    + intros Hno. apply lastDotSuffix_None in Hno. congruence.
  - split; [discriminate|reflexivity].
Qed.

Lemma metadata_of_an_entry_witness :
  path {| path := "/r/src/main.ts"; name := "main.ts"; fsize := 3;
          modified := 0; created := 0; isDirectory := false; hash := None;
          extension := Some ".ts" |} = join "/r/src" "main.ts"
  ∧ name {| path := "/r/src/main.ts"; name := "main.ts"; fsize := 3;
            modified := 0; created := 0; isDirectory := false; hash := None;
            extension := Some ".ts" |} = "main.ts"
  ∧ hash {| path := "/r/src/main.ts"; name := "main.ts"; fsize := 3;
            modified := 0; created := 0; isDirectory := false; hash := None;
            extension := Some ".ts" |} = None
  ∧ (∀ x, extension {| path := "/r/src/main.ts"; name := "main.ts"; fsize := 3;
                       modified := 0; created := 0; isDirectory := false;
                       hash := None; extension := Some ".ts" |} = Some x →
       ∃ stem rest,
         "main.ts" = stem +:+ String "." rest
         ∧ stem ≠ ""
         ∧ hasChar "." rest = false
         ∧ x = toLowerCase (String "." rest)
         ∧ toLowerCase x = x)
  ∧ (hasChar "." (dropFirst "main.ts") = false →
     extension {| path := "/r/src/main.ts"; name := "main.ts"; fsize := 3;
                  modified := 0; created := 0; isDirectory := false;
                  hash := None; extension := Some ".ts" |} = None).
Proof.
  apply (metadata_of_an_entry projectDisk "/r/src" "main.ts").
  - reflexivity.
  - reflexivity.
Defined.

(** ** A configured pattern without wildcard *)

Lemma globSource_plain (p : string) :
  literalText p = true → globSource p = escapeSpecial p.
Proof.
  unfold globSource. induction p as [|c r IH]; [reflexivity|].
  cbn [literalText]. intros [Hc Hr]%andb_prop.
  rewrite (escape_plainChar c r Hc). specialize (IH Hr).
  destruct (Ascii.eqb_spec c ".") as [->|Hdot].
  - cbn [replaceChar Ascii.eqb Bool.eqb].
    rewrite !string_app_cons, string_app_nil.
    cbn [replaceChar Ascii.eqb Bool.eqb].
    rewrite IH. reflexivity.
  - assert (Hsame : ∀ t, replaceChar "?" "."
                           (replaceChar "*" ".*"
                              (replaceChar "." "\." (String c t)))
                         = String c (replaceChar "?" "."
                                       (replaceChar "*" ".*"
                                          (replaceChar "." "\." t)))).
    { intros t. destruct c as [[] [] [] [] [] [] [] []];
        try discriminate; try (exfalso; apply Hdot; reflexivity); reflexivity. }
    rewrite Hsame, IH. reflexivity.
Qed.

Lemma RegExp_plain (p : string) :
  literalText p = true → RegExp (escapeSpecial p) = Some (litSeq REmpty p).
Proof.
  intros Hp. unfold RegExp.
  pose proof (escape_length p) as Hlen.
  replace (S (String.length (escapeSpecial p)))
    with ((S (String.length (escapeSpecial p) - String.length p))
          + String.length p)%nat by lia.
  rewrite <- (string_app_nil_r (escapeSpecial p)) at 2.
  rewrite (parse_plainName p Hp) by reflexivity.
  reflexivity.
Qed.

Lemma literal_test (p s : string) :
  test (litSeq REmpty p) s = true ↔ occursIn p s.
Proof.
  unfold test, occursIn. rewrite searchFrom_iff. split.
  - intros (pre & suf & -> & Hm). rewrite litSeq_match in Hm.
    cbn [matchRe] in Hm. apply lit_true in Hm as (rest & -> & _).
    exists pre, rest. reflexivity.
  - intros (pre & post & ->). exists pre, (p +:+ post). split; [reflexivity|].
    rewrite litSeq_match. cbn [matchRe]. apply lit_true.
    exists post. split; reflexivity.
Qed.

(** X27: a configured pattern without wildcard.  A pattern of the
    configuration made of letters, digits, [-], [_], [.] and separators is
    never outside the fragment, and it excludes a path exactly when its
    text occurs somewhere in the path, whether it ends a whole segment or
    a longer name. *)
Theorem plain_pattern_matches_anywhere (p filePath : string) :
  literalText p = true →
  (shouldIgnoreFile filePath [p] = Some true
   ↔ occursIn p (replaceChar "\" "/" filePath))
  ∧ (shouldIgnoreFile filePath [p] = Some false
     ↔ ¬ occursIn p (replaceChar "\" "/" filePath)).
Proof.
  intros Hp. unfold shouldIgnoreFile. cbn [somePatternMatches].
  rewrite (globSource_plain p Hp), (RegExp_plain p Hp).
  rewrite <- literal_test.
  destruct (test (litSeq REmpty p) (replaceChar "\" "/" filePath));
    split; split; congruence.
Qed.

Lemma plain_pattern_matches_anywhere_witness :
  (shouldIgnoreFile "/r/venv/x.py" ["env/"] = Some true
   ↔ occursIn "env/" (replaceChar "\" "/" "/r/venv/x.py"))
  ∧ (shouldIgnoreFile "/r/venv/x.py" ["env/"] = Some false
     ↔ ¬ occursIn "env/" (replaceChar "\" "/" "/r/venv/x.py")).
Proof.
  apply (plain_pattern_matches_anywhere "env/" "/r/venv/x.py").
  reflexivity.
Defined.

(** ** An entry without a path to go back to *)

(** X28: an undo with nothing to restore.  When the entry is a delete
    whose backup path is missing or empty, or a move or a rename whose new
    path is missing or empty, the undo touches no file, yet answers [true]
    and drops the entry from the log in memory.  The history file then
    holds the new log and no line is written; when it cannot be written it
    holds what it held before and the one line written is "Failed to save
    undo history". *)
Theorem undo_with_nothing_to_restore (u : UndoSystem) (w : World)
    (operation : UndoOperation.t) (index : nat) :
  findIndex (UndoOperation.id operation) (operations u) = Some index →
  operations u !! index = Some operation →
  (UndoOperation.action operation = DELETE
   ∧ truthy (UndoOperation.backupPath operation) = false)
  ∨ ((UndoOperation.action operation = MOVE
      ∨ UndoOperation.action operation = RENAME)
     ∧ truthy (UndoOperation.newPath operation) = false) →
  ∃ w',
    undoOperation u (UndoOperation.id operation) w
    = (Resolved (true, withOperations u (delete index (operations u))), w')
    ∧ store w' = store w
    ∧ ticks w' = ticks w
    ∧ (saveFails u w = false →
       history w' = Some (delete index (operations u))
       ∧ logged w' = logged w)
    ∧ (saveFails u w = true →
       history w' = history w
       ∧ logged w' = logged w ++ [(ERROR, "Failed to save undo history")]).
Proof.
  intros Hfind Hlook Hcase.
  unfold undoOperation. rewrite Hfind, Hlook.
  unfold tryCatch.
  assert (Hreverse : reverse operation w = (Resolved true, w)).
  { unfold reverse. destruct Hcase as [[-> Ht]|[[-> | ->] Ht]].
    - destruct (UndoOperation.backupPath operation) as [p|]; [|reflexivity].
      rewrite Ht. reflexivity.
    - destruct (UndoOperation.newPath operation) as [p|]; [|reflexivity].
      rewrite Ht. reflexivity.
    - destruct (UndoOperation.newPath operation) as [p|]; [|reflexivity].
      rewrite Ht. reflexivity. }
  unfold iobind at 1. rewrite Hreverse. unfold iobind.
  destruct (saveHistory_outcome u (delete index (operations u)) w)
    as (w1 & -> & Hs & Hk & _ & Hok & Hfail).
  exists w1. split; [reflexivity|]. repeat split; tauto.
Qed.

Lemma undo_with_nothing_to_restore_witness :
  ∃ w',
    undoOperation
      (withOperations exampleUndo
         [UndoOperation.mk "undo_1_r" 1 MOVE "/r/a.txt" None (Some "")])
      "undo_1_r" exampleWorld
    = (Resolved (true, withOperations
                         (withOperations exampleUndo
                            [UndoOperation.mk "undo_1_r" 1 MOVE "/r/a.txt" None
                               (Some "")])
                         []),
       w')
    ∧ store w' = store exampleWorld
    ∧ ticks w' = ticks exampleWorld
    ∧ (saveFails
         (withOperations exampleUndo
            [UndoOperation.mk "undo_1_r" 1 MOVE "/r/a.txt" None (Some "")])
         exampleWorld = false →
       history w' = Some []
       ∧ logged w' = logged exampleWorld)
    ∧ (saveFails
         (withOperations exampleUndo
            [UndoOperation.mk "undo_1_r" 1 MOVE "/r/a.txt" None (Some "")])
         exampleWorld = true →
       history w' = history exampleWorld
       ∧ logged w'
         = logged exampleWorld ++ [(ERROR, "Failed to save undo history")]).
Proof.
  apply (undo_with_nothing_to_restore
           (withOperations exampleUndo
              [UndoOperation.mk "undo_1_r" 1 MOVE "/r/a.txt" None (Some "")])
           exampleWorld
           (UndoOperation.mk "undo_1_r" 1 MOVE "/r/a.txt" None (Some ""))
           0%nat).
  - reflexivity.
  - reflexivity.
  - right. split; [left; reflexivity|reflexivity].
Defined.

(** ** A plain name in an ignore file *)

Lemma plainName_chars (p : string) :
  plainName p = true →
  noNewline p = true
  ∧ trim p = p
  ∧ startsWith p "#" = false
  ∧ replaceChar "\" "/" p = p.
Proof.
  induction p as [|c r IH]; [repeat split; reflexivity|].
  cbn [plainName]. intros [Hc Hr]%andb_prop.
  destruct (IH Hr) as (Hnl & Htrim & _ & Hrep).
  assert (Hws : isWhiteSpace c = false
                ∧ Ascii.eqb c "010" = false
                ∧ Ascii.eqb c "\" = false
                ∧ startsWith (String c r) "#" = false).
  { destruct c as [[] [] [] [] [] [] [] []]; try discriminate;
      repeat split; reflexivity. }
  destruct Hws as (Hws & Hn & Hb & Hhash).
  split; [|split; [|split]].
  - cbn [noNewline]. rewrite Hn, Hnl. reflexivity.
  - unfold trim in *. cbn [trimStart]. rewrite Hws. cbn [trimEnd].
    assert (Hend : trimEnd r = r).
    { destruct r as [|c' r']; [reflexivity|].
      cbn [trimStart plainName] in Htrim, Hr.
      apply andb_prop in Hr as [Hc' _].
      assert (Hws' : isWhiteSpace c' = false)
        by (destruct c' as [[] [] [] [] [] [] [] []]; try discriminate;
            reflexivity).
      rewrite Hws' in Htrim. exact Htrim. }
    rewrite Hend. destruct r; [rewrite Hws|]; reflexivity.
  - exact Hhash.
  - cbn [replaceChar]. rewrite Hb, Hrep. reflexivity.
Qed.

Lemma fromContent_plain (p : string) :
  plainName p = true → p ≠ "" →
  fromContent p = Some [GitignoreRule.mk p false false (literalRegex p)].
Proof.
  intros Hp Hne. unfold fromContent.
  destruct (plainName_chars p Hp) as (Hnl & Htrim & Hhash & _).
  rewrite (noNewline_whole p Hnl). cbn [rulesOfLines].
  rewrite Htrim, Hhash, (parseRule_plain p Hp).
  destruct (String.eqb_spec p "") as [|_]; [contradiction|]. reflexivity.
Qed.

Lemma keptChain_paths rules o d (entries : list Dirent) :
  ∀ directory currentDepth pre,
    stripPrefix (ScanOptions.directory o +:+ "/") (directory +:+ "/") = Some pre →
    (pre = "" ∨ ∃ x, pre = x +:+ "/") →
    keptChain rules o d directory currentDepth entries →
    Forall (fun e =>
              ∃ pre', (pre' = "" ∨ ∃ x, pre' = x +:+ "/")
                      ∧ shouldIgnore rules (pre' +:+ entryName e)
                          (entryIsDirectory e) = false)
      entries.
Proof.
  induction entries as [|e rest IH]; intros directory currentDepth pre Hpre Hshape;
    [constructor|].
  cbn [keptChain]. intros (Hpass & _ & Hrest). constructor.
  - exists pre. split; [exact Hshape|].
    unfold passedOver in Hpass. apply orb_false_elim in Hpass as [_ Hpass].
    rewrite (relative_join _ _ _ _ Hpre) in Hpass. exact Hpass.
  - apply (IH (join directory (entryName e)) (S currentDepth)
             (pre +:+ entryName e +:+ "/")).
    + apply stripPrefix_join. exact Hpre.
    + right. exists (pre +:+ entryName e). symmetry. apply string_app_assoc.
    + exact Hrest.
Qed.

Lemma plain_rule_ignores (p pre : string) (isDir : bool) :
  plainName p = true →
  (pre = "" ∨ ∃ x, pre = x +:+ "/") →
  shouldIgnore [GitignoreRule.mk p false false (literalRegex p)]
    (pre +:+ p) isDir = true.
Proof.
  intros Hp Hpre. unfold shouldIgnore. cbn.
  destruct (plainName_chars p Hp) as (_ & _ & _ & Hrep).
  assert (Hm : test (literalRegex p) (replaceChar "\" "/" (pre +:+ p)) = true).
  { apply literalRegex_test. rewrite replaceChar_app, Hrep.
    exists (replaceChar "\" "/" pre), "". split; [|split; [|left; reflexivity]].
    - rewrite string_app_nil_r. reflexivity.
    - destruct Hpre as [-> | [x ->]]; [left; reflexivity|].
      right. exists (replaceChar "\" "/" x). apply replaceChar_app. }
  rewrite Hm. reflexivity.
Qed.

(** X29: a plain name in the ignore file prunes at every depth.  When
    the combined rules are the one rule made of a plain name, every path
    listed is reached from the root through a chain of entries of the
    disk, the first listed in the root and each next one among the
    entries the walk goes on with below the one before it, and none of
    them bears that name: an entry with the name is left out wherever it
    is, file or directory, with everything below it. *)
Theorem plain_rule_prunes_everywhere (o : ScanOptions.t) (d : Disk)
    (p : string) (paths : list string) (q : string) :
  plainName p = true → p ≠ "" →
  createCombinedParser d (ScanOptions.directory o) = fromContent p →
  getFilePathsNative o d = Some paths →
  q ∈ paths →
  ∃ rules es e below,
    fromContent p = Some rules
    ∧ disk_readdir d (ScanOptions.directory o) = Some es
    ∧ e ∈ es
    ∧ q = pathFrom (ScanOptions.directory o) (entryName <$> e :: below)
    ∧ keptChain rules o d (ScanOptions.directory o) 0 (e :: below)
    ∧ Forall (fun e => entryName e ≠ p) (e :: below).
Proof.
  intros Hp Hne Hrules Hpaths Hq.
  destruct (listed_chain o d paths Hpaths) as (rules & Hr & Hiff & _).
  destruct (proj1 (Hiff q) Hq) as (es & e & below & _ & Hes & He & -> & Hchain).
  rewrite Hrules, (fromContent_plain p Hp Hne) in Hr.
  injection Hr as Hr. subst rules.
  eexists _, es, e, below.
  split; [exact (fromContent_plain p Hp Hne)|].
  split; [exact Hes|]. split; [exact He|].
  split; [reflexivity|]. split; [exact Hchain|].
  pose proof (keptChain_paths _ o d (e :: below) (ScanOptions.directory o)
                0%nat "" (stripPrefix_self _) (or_introl eq_refl) Hchain)
    as Hall.
  eapply Forall_impl; [exact Hall|].
  intros e' (pre' & Hpre' & Hkept) Hname. rewrite Hname in Hkept.
  rewrite (plain_rule_ignores p pre' _ Hp Hpre') in Hkept. discriminate.
Qed.

Lemma plain_rule_prunes_everywhere_witness :
  ∃ rules es e below,
    fromContent "tmp" = Some rules
    ∧ disk_readdir plainDisk (ScanOptions.directory plainOptions) = Some es
    ∧ e ∈ es
    ∧ "/p/src/main.ts"
      = pathFrom (ScanOptions.directory plainOptions)
          (entryName <$> e :: below)
    ∧ keptChain rules plainOptions plainDisk
        (ScanOptions.directory plainOptions) 0 (e :: below)
    ∧ Forall (fun e => entryName e ≠ "tmp") (e :: below).
Proof.
  apply (plain_rule_prunes_everywhere plainOptions plainDisk "tmp"
           ["/p/src"; "/p/src/main.ts"] "/p/src/main.ts").
  - reflexivity.
  - discriminate.
  - vm_compute. reflexivity.
  - vm_compute. reflexivity.
  - right. left.
Defined.

(** ** Two backups under one name *)

(** X30: the backup of a delete is named after the clock reading and
    the base name of the file alone.  When two files with the same base
    name are deleted and the two readings render alike, the second backup
    replaces the first: undoing the first delete then answers [true] and
    puts the bytes of the second file at the path of the first. *)
Theorem backups_of_one_instant_collide (h : Host) (u : UndoSystem) (w : World)
    (p1 p2 b1 b2 : string) :
  store w !! p1 = Some b1 →
  store w !! p2 = Some b2 →
  p1 ≠ p2 →
  basename p1 = basename p2 →
  host_toISOString h (host_clock h (3 + ticks w))
  = host_toISOString h (host_clock h (7 + ticks w)) →
  nextBackupPath h u w p1 ≠ p1 →
  nextBackupPath h u w p1 ≠ p2 →
  unwritable w (nextBackupPath h u w p1) = false →
  unwritable w p1 = false →
  nextOperationId h w ∉ UndoOperation.id <$> operations u →
  ∃ id1 op1 w1 w2 id2 op2 w3 w4,
    recordOperation h u DELETE p1 None None w
    = (Resolved (id1, withOperations u (operations u ++ [op1])), w1)
    ∧ unlink p1 w1 = (Resolved tt, w2)
    ∧ recordOperation h (withOperations u (operations u ++ [op1])) DELETE p2
        None None w2
      = (Resolved (id2, withOperations u (operations u ++ [op1; op2])), w3)
    ∧ UndoOperation.originalPath op1 = p1
    ∧ UndoOperation.originalPath op2 = p2
    ∧ UndoOperation.backupPath op1 = Some (nextBackupPath h u w p1)
    ∧ UndoOperation.backupPath op2 = Some (nextBackupPath h u w p1)
    ∧ store w3 !! p1 = None
    ∧ undoOperation (withOperations u (operations u ++ [op1; op2])) id1 w3
      = (Resolved (true, withOperations u (operations u ++ [op2])), w4)
    ∧ store w4 !! p1 = Some b2.
Proof.
  intros H1 H2 Hne Hbase Hclock Hb1 Hb2 Hfree Hfree1 Hfresh.
  destruct (recordOperation_delete h u w p1 b1 None None H1 Hfree)
    as (t1 & w1 & Hrec1 & Hs1 & _ & _ & Hk1 & Hu1).
  set (backup := nextBackupPath h u w p1) in *.
  set (op1 := UndoOperation.mk (nextOperationId h w) t1 DELETE p1
                (Some backup) None) in *.
  set (u1 := withOperations u (operations u ++ [op1])) in *.
  set (w2 := withStore w1 (delete p1 (store w1))).
  assert (Hunlink : unlink p1 w1 = (Resolved tt, w2)).
  { unfold unlink, w2.
    rewrite Hs1, lookup_insert_ne, H1, Hu1, Hfree1 by exact Hb1.
    reflexivity. }
  assert (Hnext : nextBackupPath h u1 w2 p2 = backup).
  { unfold backup, nextBackupPath.
    cbn [backupDirectory u1 withOperations ticks w2 withStore].
    rewrite Hk1, <- Hbase.
    change (S (S (S (S (S (S (S (ticks w)))))))) with (7 + ticks w)%nat.
    change (S (S (S (ticks w)))) with (3 + ticks w)%nat.
    rewrite Hclock. reflexivity. }
  assert (H2' : store w2 !! p2 = Some b2).
  { unfold w2. cbn [store withStore].
    rewrite lookup_delete_ne by exact Hne.
    rewrite Hs1, lookup_insert_ne by exact Hb2. exact H2. }
  assert (Hfree2 : unwritable w2 (nextBackupPath h u1 w2 p2) = false).
  { rewrite Hnext. unfold w2. cbn [unwritable withStore].
    rewrite Hu1. exact Hfree. }
  destruct (recordOperation_delete h u1 w2 p2 b2 None None H2' Hfree2)
    as (t2 & w3 & Hrec2 & Hs3 & _ & _ & _ & Hu3).
  rewrite Hnext in Hrec2, Hs3.
  set (op2 := UndoOperation.mk (nextOperationId h w2) t2 DELETE p2
                (Some backup) None) in *.
  cbn [operations u1 withOperations] in Hrec2.
  rewrite <- app_assoc in Hrec2.
  change (withOperations u1 (operations u ++ [op1] ++ [op2]))
    with (withOperations u (operations u ++ [op1; op2])) in Hrec2.
  assert (Hgone : store w3 !! p1 = None).
  { rewrite Hs3, lookup_insert_ne by exact Hb1.
    unfold w2. cbn [store withStore]. apply lookup_delete_eq. }
  destruct (undo_delete_entry
              (withOperations u (operations u ++ [op1; op2])) w3 op1
              (length (operations u)) backup b2)
    as (w4 & Hundo & Hs4 & _).
  { apply findIndex_middle; [exact Hfresh|reflexivity]. }
  { cbn [operations withOperations].
    rewrite lookup_app_r, Nat.sub_diag by lia. reflexivity. }
  { reflexivity. }
  { reflexivity. }
  { apply join_not_empty. }
  { rewrite Hs3. apply lookup_insert_eq. }
  { cbn [UndoOperation.originalPath op1]. rewrite Hu3. unfold w2.
    cbn [unwritable withStore]. rewrite Hu1. exact Hfree1. }
  cbn [operations withOperations UndoOperation.id UndoOperation.originalPath op1]
    in Hundo, Hs4.
  rewrite (delete_middle (operations u) [op2] op1) in Hundo.
  exists (nextOperationId h w), op1, w1, w2, (nextOperationId h w2), op2, w3, w4.
  split; [exact Hrec1|]. split; [exact Hunlink|]. split; [exact Hrec2|].
  split; [reflexivity|]. split; [reflexivity|]. split; [reflexivity|].
  split; [reflexivity|]. split; [exact Hgone|]. split; [exact Hundo|].
  rewrite Hs4. apply lookup_insert_eq.
Qed.

Lemma backups_of_one_instant_collide_witness :
  ∃ id1 op1 w1 w2 id2 op2 w3 w4,
    recordOperation frozenHost exampleUndo DELETE "/r/a/x.txt" None None
      twoFilesWorld
    = (Resolved
         (id1, withOperations exampleUndo (operations exampleUndo ++ [op1])),
       w1)
    ∧ unlink "/r/a/x.txt" w1 = (Resolved tt, w2)
    ∧ recordOperation frozenHost
        (withOperations exampleUndo (operations exampleUndo ++ [op1]))
        DELETE "/r/b/x.txt" None None w2
      = (Resolved
           (id2,
            withOperations exampleUndo (operations exampleUndo ++ [op1; op2])),
         w3)
    ∧ UndoOperation.originalPath op1 = "/r/a/x.txt"
    ∧ UndoOperation.originalPath op2 = "/r/b/x.txt"
    ∧ UndoOperation.backupPath op1
      = Some (nextBackupPath frozenHost exampleUndo twoFilesWorld "/r/a/x.txt")
    ∧ UndoOperation.backupPath op2
      = Some (nextBackupPath frozenHost exampleUndo twoFilesWorld "/r/a/x.txt")
    ∧ store w3 !! "/r/a/x.txt" = None
    ∧ undoOperation
        (withOperations exampleUndo (operations exampleUndo ++ [op1; op2]))
        id1 w3
      = (Resolved
           (true, withOperations exampleUndo (operations exampleUndo ++ [op2])),
         w4)
    ∧ store w4 !! "/r/a/x.txt" = Some "two".
Proof.
  apply (backups_of_one_instant_collide frozenHost exampleUndo twoFilesWorld
           "/r/a/x.txt" "/r/b/x.txt" "one" "two").
  - vm_compute. reflexivity.
  - vm_compute. reflexivity.
  - discriminate.
  - vm_compute. reflexivity.
  - reflexivity.
  - vm_compute. discriminate.
  - vm_compute. discriminate.
  - reflexivity.
  - reflexivity.
  - apply not_elem_of_nil.
Defined.
